(** * Puli Meka: rule engine and AI decision engine

    A shallow embedding of [constants.ts], [types.ts] and
    [services/gameLogic.ts], followed by the properties of the rule
    engine (move generation, win evaluation, move simulation) and of the
    search engine (heuristic evaluation, placement heuristic, minimax).

    Conventions of the embedding:
    - a board ([Record<number, Player>]) is a finite map from node ids to
      players; an absent key is an empty node ([!board[n]]);
    - [Object.keys] of a board lists its keys in ascending order, as
      JavaScript does for integer keys;
    - counters ([goatsPlaced], [goatsCaptured], scores) are integers;
    - [Infinity] and [-Infinity] are the two extra points of [ext];
    - the search depth is a natural number, on which [minimax] recurses;
    - [Math.random() * 10] is an arbitrary rational in the interval
      from 0 (included) to 10 (excluded), supplied by an oracle. *)

From Stdlib Require Import ZArith QArith Qround Lia Lqa List Bool String.
From stdpp Require Import base decidable option list sorting gmap fin_maps.

Local Open Scope Z_scope.

(** ** types.ts *)

Inductive Player : Set := tiger | goat.

#[global] Instance Player_eq_dec : EqDecision Player.
Proof. solve_decision. Defined.

Inductive Difficulty : Set := easy | medium | hard.

Record Point : Set := mkPoint { Point_id : nat; Point_x : nat; Point_y : nat }.

Abbreviation Board := (gmap nat Player).

Definition GOATS_TOTAL : Z := 18.
Definition TIGERS_TOTAL : Z := 4.
Definition GOATS_TO_WIN : Z := 8.

(** ** constants.ts *)

Definition NODES : list Point :=
  [ mkPoint 0 50 5;
    mkPoint 1 15 25; mkPoint 2 41 25; mkPoint 3 50 25; mkPoint 4 59 25; mkPoint 5 85 25;
    mkPoint 6 15 45; mkPoint 7 32 45; mkPoint 8 50 45; mkPoint 9 68 45; mkPoint 10 85 45;
    mkPoint 11 5 65; mkPoint 12 23 65; mkPoint 13 50 65; mkPoint 14 77 65; mkPoint 15 95 65;
    mkPoint 16 5 85; mkPoint 17 14 85; mkPoint 18 50 85; mkPoint 19 86 85; mkPoint 20 95 85;
    mkPoint 21 10 95; mkPoint 22 50 95; mkPoint 23 90 95 ]%nat.

Definition ADJACENCY_entries : list (nat * list nat) :=
  [ (0, [2; 3; 4]);
    (1, [2; 6]); (2, [1; 3; 0; 7]); (3, [2; 4; 0; 8]); (4, [3; 5; 0; 9]); (5, [4; 10]);
    (6, [1; 7]); (7, [6; 8; 2; 12]); (8, [7; 9; 3; 13]); (9, [8; 10; 4; 14]); (10, [5; 9]);
    (11, [12; 16]); (12, [11; 13; 7; 17]); (13, [12; 14; 8; 18]); (14, [13; 15; 9; 19]); (15, [14; 20]);
    (16, [11; 17]); (17, [16; 18; 12; 21]); (18, [17; 19; 13; 22]); (19, [18; 20; 14; 23]); (20, [15; 19]);
    (21, [17; 22]); (22, [18; 21; 23]); (23, [22; 19]) ]%nat.

Definition ADJACENCY : gmap nat (list nat) := list_to_map ADJACENCY_entries.

(** [ADJACENCY[id] || []] *)
Definition adjacent (n : nat) : list nat := default [] (ADJACENCY !! n).

(** [Start, Middle (Jumped), End] *)
Definition JUMP_PATHS : list (nat * nat * nat) :=
  [ (0, 3, 8); (3, 8, 13); (8, 13, 18); (13, 18, 22);
    (0, 2, 7); (2, 7, 12); (7, 12, 17); (12, 17, 21);
    (0, 4, 9); (4, 9, 14); (9, 14, 19); (14, 19, 23);
    (1, 2, 3); (2, 3, 4); (3, 4, 5); (6, 7, 8); (7, 8, 9); (8, 9, 10);
    (11, 12, 13); (12, 13, 14); (13, 14, 15); (16, 17, 18); (17, 18, 19); (18, 19, 20); (21, 22, 23) ]%nat.

Definition INITIAL_BOARD : Board :=
  list_to_map [ (0, tiger); (3, tiger); (8, tiger); (13, tiger) ]%nat.

(** ** Reading a board *)

(** [!board[n]] *)
Definition isEmpty (board : Board) (n : nat) : bool :=
  bool_decide (board !! n = None).

(** [board[n] === p] *)
Definition holds (board : Board) (n : nat) (p : Player) : bool :=
  bool_decide (board !! n = Some p).

(** [Object.keys(board).map(Number)]: the occupied nodes, ascending. *)
Definition Object_keys (board : Board) : list nat :=
  merge_sort (≤)%nat (map fst (map_to_list board)).

(** [Object.keys(board).map(Number).filter(id => board[id] === role)] *)
Definition piecesOf (board : Board) (role : Player) : list nat :=
  filter (λ n, holds board n role = true) (Object_keys board).

(** ** gameLogic.ts: core game rules *)

(** One iteration of the [JUMP_PATHS.forEach] of [getValidMoves]. *)
Definition pushJumps (n : nat) (board : Board)
    (moves : list nat) (path : nat * nat * nat) : list nat :=
  let '(start, middle, end_) := path in
  let moves :=
    if (start =? n)%nat && holds board middle goat && isEmpty board end_
    then moves ++ [end_] else moves in
  if (end_ =? n)%nat && holds board middle goat && isEmpty board start
  then moves ++ [start] else moves.

Definition getValidMoves (n : nat) (turn : Player) (board : Board)
    (goatsPlaced : Z) : list nat :=
  if bool_decide (turn = goat) && (goatsPlaced <? GOATS_TOTAL) then []
  else
    let moves := filter (λ m, isEmpty board m = true) (adjacent n) in
    if bool_decide (turn = tiger)
    then fold_left (pushJumps n board) JUMP_PATHS moves
    else moves.

Record WinState : Set := mkWinState {
  gameOver : bool;
  winner : option Player;
  reason : string
}.

Definition tigersWin : WinState :=
  mkWinState true (Some tiger) "Tigers captured 8 goats!".
Definition goatsWin : WinState :=
  mkWinState true (Some goat) "Tigers are trapped!".
Definition notOver : WinState :=
  mkWinState false None EmptyString.

Definition checkWinCondition (board : Board) (goatsCaptured : Z)
    (turn : Player) : WinState :=
  if GOATS_TO_WIN <=? goatsCaptured then tigersWin
  else
    (* Check if tigers are trapped *)
    let tigers := piecesOf board tiger in
    if (length tigers =? 0)%nat then notOver
    else
      let canTigerMove :=
        existsb
          (λ n, (0 <? length (getValidMoves n tiger board GOATS_TOTAL))%nat)
          tigers in
      if negb canTigerMove then goatsWin else notOver.

(** ** gameLogic.ts, the earlier copy of the rules

    The file carries a first definition of the two rule functions. Its
    [getValidMoves] has the same text; its [checkWinCondition] has no
    guard for a board without tigers. *)

Module Legacy.

Definition getValidMoves (n : nat) (turn : Player) (board : Board)
    (goatsPlaced : Z) : list nat :=
  if bool_decide (turn = goat) && (goatsPlaced <? GOATS_TOTAL) then []
  else
    let moves := filter (λ m, isEmpty board m = true) (adjacent n) in
    if bool_decide (turn = tiger)
    then fold_left (pushJumps n board) JUMP_PATHS moves
    else moves.

Definition checkWinCondition (board : Board) (goatsCaptured : Z)
    (turn : Player) : WinState :=
  if GOATS_TO_WIN <=? goatsCaptured then tigersWin
  else
    let tigers := piecesOf board tiger in
    let canTigerMove :=
      existsb
        (λ n, (0 <? length (getValidMoves n tiger board GOATS_TOTAL))%nat)
        tigers in
    if negb canTigerMove then goatsWin else notOver.

End Legacy.

(** ** gameLogic.ts: AI moves *)

Record AIMove : Set := mkMove {
  from : option nat;   (* undefined when a goat is placed *)
  to : nat
}.

#[global] Instance AIMove_eq_dec : EqDecision AIMove.
Proof. solve_decision. Defined.

Definition getAllPossibleMoves (board : Board) (role : Player)
    (goatsPlaced : Z) : list AIMove :=
  if bool_decide (role = goat) && (goatsPlaced <? GOATS_TOTAL) then
    (* Placement moves *)
    flat_map
      (λ node, if isEmpty board (Point_id node)
               then [mkMove None (Point_id node)] else [])
      NODES
  else
    (* Board moves *)
    let pieces := piecesOf board role in
    flat_map
      (λ f, map (λ t, mkMove (Some f) t) (getValidMoves f role board goatsPlaced))
      pieces.

Definition isReverseMove (curr prev : AIMove) : bool :=
  match from curr, from prev with
  | Some cf, Some pf => (cf =? to prev)%nat && (to curr =? pf)%nat
  | _, _ => false
  end.

(** [p => (p[0] === from && p[2] === to) || (p[2] === from && p[0] === to)] *)
Definition matchesJump (f t : nat) (p : nat * nat * nat) : bool :=
  let '(p0, _, p2) := p in
  (p0 =? f)%nat && (p2 =? t)%nat || (p2 =? f)%nat && (p0 =? t)%nat.

Definition simulateMove (board : Board) (move : AIMove) (role : Player)
    (currentCaptured : Z) : Board * Z :=
  let nextBoard :=
    match from move with Some f => delete f board | None => board end in
  let nextBoard := <[to move := role]> nextBoard in
  match role, from move with
  | tiger, Some f =>
      match List.find (matchesJump f (to move)) JUMP_PATHS with
      | Some (_, capturedId, _) =>
          if holds nextBoard capturedId goat
          then (delete capturedId nextBoard, currentCaptured + 1)
          else (nextBoard, currentCaptured)
      | None => (nextBoard, currentCaptured)
      end
  | _, _ => (nextBoard, currentCaptured)
  end.

Definition isJump (board : Board) (move : AIMove) : bool :=
  match from move with
  | None => false
  | Some f => bool_decide (is_Some (List.find (matchesJump f (to move)) JUMP_PATHS))
  end.

Definition includes (l : list nat) (n : nat) : bool := bool_decide (n ∈ l).

Definition centerScore (n : nat) : Z :=
  if includes [12; 13; 14; 8]%nat n then 2
  else if includes [2; 3; 4; 18]%nat n then 1 else 0.

(** The comparator handed to [moves.sort]. *)
Definition compareMoves (board : Board) (role : Player) (a b : AIMove) : Z :=
  let byCenter := centerScore (to b) - centerScore (to a) in
  if bool_decide (role = tiger) then
    let isJumpA := isJump board a in
    let isJumpB := isJump board b in
    if isJumpA && negb isJumpB then -1
    else if negb isJumpA && isJumpB then 1
    else byCenter
  else byCenter.

(** [Array.prototype.sort] is stable: an element goes in front of the
    first one it does not have to follow. *)
Fixpoint insertBy (cmp : AIMove → AIMove → Z) (m : AIMove)
    (l : list AIMove) : list AIMove :=
  match l with
  | [] => [m]
  | m' :: l' => if cmp m m' <=? 0 then m :: l else m' :: insertBy cmp m l'
  end.

Definition sortMovesForPruning (moves : list AIMove) (board : Board)
    (role : Player) : list AIMove :=
  foldr (insertBy (compareMoves board role)) [] moves.

(** ** Evaluation function *)

Record TigerStats : Set := mkStats {
  tigerMobility : Z;
  trappedTigers : Z;
  captureOpportunities : Z
}.

(** The body of [tigers.forEach] in [evaluatePosition]. *)
Definition tigerStep (board : Board) (goatsPlaced : Z)
    (st : TigerStats) (tId : nat) : TigerStats :=
  let moves := getValidMoves tId tiger board goatsPlaced in
  mkStats
    (tigerMobility st + Z.of_nat (length moves))
    (if (length moves =? 0)%nat then trappedTigers st + 1 else trappedTigers st)
    (fold_left
       (λ c t, if existsb (matchesJump tId t) JUMP_PATHS then c + 1 else c)
       moves (captureOpportunities st)).

(** The double loop over [i < j] on the tigers. *)
Fixpoint coordinationFrom (tigers : list nat) (coordination : Z) : Z :=
  match tigers with
  | [] => coordination
  | ti :: rest =>
      coordinationFrom rest
        (fold_left
           (λ c tj, if includes (adjacent ti) tj then c + 1 else c)
           rest coordination)
  end.

(** [goats.forEach(g => ADJACENCY[g].forEach(n => ...connections++))] *)
Definition connectionsOf (board : Board) (goats : list nat) : Z :=
  fold_left
    (λ connections g,
       fold_left
         (λ c n, if holds board n goat then c + 1 else c)
         (adjacent g) connections)
    goats 0.

Definition evaluatePosition (board : Board) (aiRole : Player)
    (goatsCaptured goatsPlaced : Z) : Z :=
  let tigers := piecesOf board tiger in
  let goats := piecesOf board goat in
  let score := 0 + goatsCaptured * 2000 in
  let score := if 7 <=? goatsCaptured then score + 5000 else score in
  let st := fold_left (tigerStep board goatsPlaced) tigers (mkStats 0 0 0) in
  if bool_decide (aiRole = tiger) then
    let score := score + captureOpportunities st * 500 in
    let score := score - trappedTigers st * 1500 in
    let score := score + tigerMobility st * 30 in
    let coordination := coordinationFrom tigers 0 in
    score + coordination * 60
  else
    let score := 0 in
    let score := score - goatsCaptured * 2500 in
    let score := score + trappedTigers st * 1500 in
    let score := score - tigerMobility st * 50 in
    let score := score - captureOpportunities st * 1000 in
    let connections := connectionsOf board goats in
    let score := score + connections * 40 in
    fold_left
      (λ score g, if includes [12; 13; 14; 8; 18]%nat g then score + 70 else score)
      goats score.

(** ** Placement heuristic *)

(** The [for (const path of JUMP_PATHS)] safety check. *)
Definition immediateDanger (board : Board) (nodeId : nat) : bool :=
  fold_left
    (λ danger '(start, middle, end_),
       if (middle =? nodeId)%nat
          && (holds board start tiger && isEmpty board end_
              || holds board end_ tiger && isEmpty board start)
       then true else danger)
    JUMP_PATHS false.

(** The score of a candidate before the random factor is added. *)
Definition placementScore (board : Board) (nodeId : nat) : Z :=
  let score := 0 in
  if immediateDanger board nodeId then score - 10000
  else
    let adjTigers :=
      fold_left (λ c n, if holds board n tiger then c + 1 else c)
        (adjacent nodeId) 0 in
    let score := score + adjTigers * 200 in
    let adjGoats :=
      fold_left (λ c n, if holds board n goat then c + 1 else c)
        (adjacent nodeId) 0 in
    let score := score + adjGoats * 50 in
    let score :=
      if includes [8; 12; 13; 14; 18]%nat nodeId then score + 100 else score in
    if includes [2; 3; 4; 7; 9]%nat nodeId then score + 60 else score.

(** [score > maxScore], where [None] is [-Infinity]. *)
Definition exceeds (score : Q) (maxScore : option Q) : bool :=
  match maxScore with
  | None => true
  | Some m => negb (Qle_bool score m)
  end.

(** The loop state: [bestNode], [maxScore] and the number of calls made
    to the random source so far. *)
Definition placementStep (board : Board) (rnd : nat → Q)
    (st : Z * option Q * nat) (nodeId : nat) : Z * option Q * nat :=
  let '(bestNode, maxScore, calls) := st in
  let score := (inject_Z (placementScore board nodeId) + rnd calls)%Q in
  if exceeds score maxScore
  then (Z.of_nat nodeId, Some score, S calls)
  else (bestNode, maxScore, S calls).

(** The [to] field of the result; [rnd k] is the value of the [k]-th
    [Math.random() * 10]. It is [-1] when no node is empty. *)
Definition getBestPlacementGoat (board : Board) (rnd : nat → Q) : Z :=
  let emptyNodes :=
    map Point_id (filter (λ n, isEmpty board (Point_id n) = true) NODES) in
  (fold_left (placementStep board rnd) emptyNodes (-1, None, 0%nat)).1.1.

(** ** Minimax with alpha-beta pruning *)

(** JavaScript numbers that may be infinite: [alpha] and [beta]. *)
Inductive ext : Set := NegInf | Fin (z : Z) | PosInf.

(** [a <= b] *)
Definition ext_leb (a b : ext) : bool :=
  match a, b with
  | NegInf, _ => true
  | _, PosInf => true
  | Fin u, Fin v => u <=? v
  | _, _ => false
  end.

(** [Math.max(a, b)] and [Math.min(a, b)] *)
Definition ext_max (a b : ext) : ext := if ext_leb a b then b else a.
Definition ext_min (a b : ext) : ext := if ext_leb a b then a else b.

Section Ply.

(** What one ply of [minimax] is given: the recursive call on a
    candidate under the current window, the previous move and
    [moves.length]. *)
Variable child : AIMove → ext → ext → Z.
Variable previousMove : option AIMove.
Variable movesLength : nat.

(** The repetition check: [true] when the loop takes [continue]. *)
Definition skipsMove (move : AIMove) : bool :=
  match previousMove with
  | Some prev => isReverseMove move prev && (1 <? movesLength)%nat
  | None => false
  end.

(** The maximizing [for] loop; [maxEval] is [None] while it is
    [-Infinity]. *)
Fixpoint maxLoop (moves : list AIMove) (maxEval : option Z)
    (alpha beta : ext) : option Z :=
  match moves with
  | [] => maxEval
  | move :: rest =>
      if skipsMove move then maxLoop rest maxEval alpha beta
      else
        let evalScore := child move alpha beta in
        let maxEval :=
          match maxEval with
          | None => Some evalScore
          | Some m => Some (Z.max m evalScore)
          end in
        let alpha := ext_max alpha (Fin evalScore) in
        if ext_leb beta alpha then maxEval
        else maxLoop rest maxEval alpha beta
  end.

(** The minimizing [for] loop; [minEval] is [None] while it is
    [Infinity]. *)
Fixpoint minLoop (moves : list AIMove) (minEval : option Z)
    (alpha beta : ext) : option Z :=
  match moves with
  | [] => minEval
  | move :: rest =>
      if skipsMove move then minLoop rest minEval alpha beta
      else
        let evalScore := child move alpha beta in
        let minEval :=
          match minEval with
          | None => Some evalScore
          | Some m => Some (Z.min m evalScore)
          end in
        let beta := ext_min beta (Fin evalScore) in
        if ext_leb beta alpha then minEval
        else minLoop rest minEval alpha beta
  end.

End Ply.

Definition opponentOf (aiRole : Player) : Player :=
  if bool_decide (aiRole = tiger) then goat else tiger.

(** [goatsPlaced + (currentTurn === 'goat' && move.from === undefined ? 1 : 0)] *)
Definition placedAfter (goatsPlaced : Z) (currentTurn : Player)
    (move : AIMove) : Z :=
  goatsPlaced
  + (if bool_decide (currentTurn = goat) && bool_decide (from move = None)
     then 1 else 0).

(** The candidates of a ply: generated, then sorted for pruning. *)
Definition plyMoves (board : Board) (currentTurn : Player)
    (goatsPlaced : Z) : list AIMove :=
  sortMovesForPruning (getAllPossibleMoves board currentTurn goatsPlaced)
    board currentTurn.

(** The two loops of a ply and their fallbacks when every move was
    passed over. *)
Definition searchPly (child : AIMove → ext → ext → Z)
    (previousMove : option AIMove) (isMaximizing : bool)
    (moves : list AIMove) (alpha beta : ext) : Z :=
  if isMaximizing then
    match maxLoop child previousMove (length moves) moves None alpha beta with
    | None => -10000
    | Some maxEval => maxEval
    end
  else
    match minLoop child previousMove (length moves) moves None alpha beta with
    | None => 10000
    | Some minEval => minEval
    end.

Fixpoint minimax (depth : nat) (board : Board) (alpha beta : ext)
    (isMaximizing : bool) (aiRole : Player) (goatsPlaced goatsCaptured : Z)
    (previousMove : option AIMove) {struct depth} : Z :=
  let opponent := opponentOf aiRole in
  let currentTurn := if isMaximizing then aiRole else opponent in
  let winState := checkWinCondition board goatsCaptured currentTurn in
  if gameOver winState then
    if bool_decide (winner winState = Some aiRole)
    then 20000 + Z.of_nat depth      (* Prefer winning sooner *)
    else -20000 - Z.of_nat depth     (* Prefer losing later *)
  else
    match depth with
    | O => evaluatePosition board aiRole goatsCaptured goatsPlaced
    | S depth' =>
        let moves := plyMoves board currentTurn goatsPlaced in
        if (length moves =? 0)%nat then
          if bool_decide (currentTurn = aiRole) then -20000 else 20000
        else
          searchPly
            (λ move alpha beta,
               let '(nextBoard, nextCaptured) :=
                 simulateMove board move currentTurn goatsCaptured in
               minimax depth' nextBoard alpha beta (negb isMaximizing) aiRole
                 (placedAfter goatsPlaced currentTurn move) nextCaptured
                 (Some move))
            previousMove isMaximizing moves alpha beta
    end.

(** The recursive call of a ply on one of its candidates. *)
Definition descend (depth' : nat) (board : Board) (isMaximizing : bool)
    (aiRole : Player) (goatsPlaced goatsCaptured : Z)
    (move : AIMove) (alpha beta : ext) : Z :=
  let currentTurn := if isMaximizing then aiRole else opponentOf aiRole in
  let '(nextBoard, nextCaptured) :=
    simulateMove board move currentTurn goatsCaptured in
  minimax depth' nextBoard alpha beta (negb isMaximizing) aiRole
    (placedAfter goatsPlaced currentTurn move) nextCaptured (Some move).

(** ** The game as the application plays it

    The state kept by the caller, and one turn: a move out of
    [getAllPossibleMoves] for the side to move, applied by
    [simulateMove]; a placement counts one more goat placed. *)

Module GameState.
Record t : Type := mk {
  board : Board;
  turn : Player;
  goatsPlaced : Z;
  goatsCaptured : Z
}.
End GameState.

Definition initialState : GameState.t :=
  GameState.mk INITIAL_BOARD goat 0 0.

Definition legalMove (s : GameState.t) (move : AIMove) : Prop :=
  move ∈ getAllPossibleMoves (GameState.board s) (GameState.turn s)
           (GameState.goatsPlaced s).

Definition playMove (s : GameState.t) (move : AIMove) : GameState.t :=
  let '(nextBoard, nextCaptured) :=
    simulateMove (GameState.board s) move (GameState.turn s)
      (GameState.goatsCaptured s) in
  GameState.mk nextBoard (opponentOf (GameState.turn s))
    (placedAfter (GameState.goatsPlaced s) (GameState.turn s) move)
    nextCaptured.

Inductive reachable : GameState.t → Prop :=
  | reachable_initial : reachable initialState
  | reachable_step s move :
      reachable s → legalMove s move → reachable (playMove s move).

(** ** The application's own move handler

    [executeMove] of the application component, on a game that is not
    over: the board, the two counters and the turn it stores. Its jump
    table is the literal of [JUMP_PATHS]. *)
Definition executeMove (s : GameState.t) (from_ : option nat) (to_ : nat)
    : GameState.t :=
  let turn := GameState.turn s in
  let newBoard := GameState.board s in
  let captured := GameState.goatsCaptured s in
  let placed := GameState.goatsPlaced s in
  let '(newBoard, captured, placed) :=
    match from_ with
    | Some f =>
        let newBoard := delete f newBoard in
        if bool_decide (turn = tiger) then
          match List.find (matchesJump f to_) JUMP_PATHS with
          | Some (_, capturedId, _) =>
              if holds newBoard capturedId goat
              then (delete capturedId newBoard, captured + 1, placed)
              else (newBoard, captured, placed)
          | None => (newBoard, captured, placed)
          end
        else (newBoard, captured, placed)
    | None => (newBoard, captured, placed + 1)
    end in
  let newBoard := <[to_ := turn]> newBoard in
  let nextTurn := if bool_decide (turn = tiger) then goat else tiger in
  GameState.mk newBoard nextTurn placed captured.

(** ** Move selection

    [Math.random()] is an arbitrary rational from 0 (included) to 1
    (excluded); a function that draws once takes the value drawn, one
    that draws several times takes the sequence of the values. *)

(** [Math.floor(Math.random() * n)] *)
Definition randomIndex (r : Q) (n : nat) : nat :=
  Z.to_nat (Qfloor (r * inject_Z (Z.of_nat n))).

(** 1. Random AI *)
Definition getRandomMove (board : Board) (role : Player) (goatsPlaced : Z)
    (r : Q) : option AIMove :=
  let moves := getAllPossibleMoves board role goatsPlaced in
  if (length moves =? 0)%nat then None
  else moves !! randomIndex r (length moves).

(** 2. Greedy AI *)
Definition getGreedyMove (board : Board) (role : Player) (goatsPlaced : Z)
    (r : Q) : option AIMove :=
  let moves := getAllPossibleMoves board role goatsPlaced in
  if (length moves =? 0)%nat then None
  else
    let jumps := filter (λ m, isJump board m = true) moves in
    if bool_decide (role = tiger) && (0 <? length jumps)%nat
    then jumps !! randomIndex r (length jumps)
    else moves !! randomIndex r (length moves).

(** The [for] loop of [getMinimaxMove]: [inl] is the move returned from
    inside the loop, [inr] the best moves when the loop ends;
    [bestScore] is [None] while it is [-Infinity]. The depth handed to
    [minimax] is [depth - 1]; the caller passes a depth of 4 or 5. *)
Fixpoint rootLoop (board : Board) (role : Player)
    (goatsPlaced goatsCaptured : Z) (depth : nat) (moves : list AIMove)
    (bestScore : option Z) (bestMoves : list AIMove)
    : AIMove + list AIMove :=
  match moves with
  | [] => inr bestMoves
  | move :: rest =>
      let '(nextBoard, nextCaptured) :=
        simulateMove board move role goatsCaptured in
      (* Check for immediate win *)
      if bool_decide (role = tiger) && (GOATS_TO_WIN <=? nextCaptured)
      then inl move
      else
        let score :=
          minimax (depth - 1) nextBoard NegInf PosInf false role
            (placedAfter goatsPlaced role move) nextCaptured (Some move) in
        match bestScore with
        | None => rootLoop board role goatsPlaced goatsCaptured depth rest
                    (Some score) [move]
        | Some best =>
            if best <? score then
              rootLoop board role goatsPlaced goatsCaptured depth rest
                (Some score) [move]
            else if score =? best then
              rootLoop board role goatsPlaced goatsCaptured depth rest
                bestScore (bestMoves ++ [move])
            else
              rootLoop board role goatsPlaced goatsCaptured depth rest
                bestScore bestMoves
        end
  end.

(** 3. Minimax AI *)
Definition getMinimaxMove (board : Board) (role : Player)
    (goatsPlaced goatsCaptured : Z) (depth : nat) (r : Q) : option AIMove :=
  let possibleMoves := plyMoves board role goatsPlaced in
  match rootLoop board role goatsPlaced goatsCaptured depth possibleMoves
          None [] with
  | inl move => Some move
  | inr bestMoves =>
      if (0 <? length bestMoves)%nat
      then bestMoves !! randomIndex r (length bestMoves)
      else None
  end.

(** The move as the pair of its [from] and [to]; the destination is an
    integer because the placement heuristic answers -1 on a full board. *)
Definition moveFields (move : AIMove) : option nat * Z :=
  (from move, Z.of_nat (to move)).

(** The orchestrator, on the [board], [goatsPlaced] and [goatsCaptured]
    of the game state; [rnd k] is the [k]-th value of [Math.random()]. *)
Definition calculateAIMove (board : Board) (goatsPlaced goatsCaptured : Z)
    (difficulty : Difficulty) (aiRole : Player) (rnd : nat → Q)
    : option (option nat * Z) :=
  match difficulty with
  | easy => moveFields <$> getRandomMove board aiRole goatsPlaced (rnd 0%nat)
  | medium => moveFields <$> getGreedyMove board aiRole goatsPlaced (rnd 0%nat)
  | hard =>
      if bool_decide (aiRole = goat) && (goatsPlaced <? GOATS_TOTAL) then
        Some (None, getBestPlacementGoat board (λ k, rnd k * 10)%Q)
      else
        let isPlacementPhase := goatsPlaced <? GOATS_TOTAL in
        let searchDepth := if isPlacementPhase then 4%nat else 5%nat in
        moveFields <$>
          getMinimaxMove board aiRole goatsPlaced goatsCaptured searchDepth
            (rnd 0%nat)
  end.

(** ** gameLogic.ts, the earlier copy of the AI

    The first definition of [calculateAIMove] and the two functions it
    dispatches to. A tiger move carries its [isJump] flag; a goat move
    is the pair of its [from] and [to], each absent when undefined. *)

(** [Array.prototype.sort] with a comparator, for any elements. *)
Fixpoint insertSorted {A : Type} (cmp : A → A → Z) (x : A) (l : list A)
    : list A :=
  match l with
  | [] => [x]
  | y :: l' => if cmp x y <=? 0 then x :: l else y :: insertSorted cmp x l'
  end.

Definition sortBy {A : Type} (cmp : A → A → Z) (l : list A) : list A :=
  foldr (insertSorted cmp) [] l.

Module LegacyAI.

Record Move : Set := mk { from : nat; to : nat; isJump : bool }.

(** Collect all possible moves for all tigers *)
Definition possibleMoves (board : Board) : list Move :=
  flat_map
    (λ n,
       (* Normal moves *)
       flat_map
         (λ neighbor,
            if isEmpty board neighbor then [mk n neighbor false] else [])
         (adjacent n)
       (* Jumps *)
       ++ flat_map
            (λ '(start, middle, end_),
               (if (start =? n)%nat && holds board middle goat
                   && isEmpty board end_
                then [mk n end_ true] else [])
               ++ (if (end_ =? n)%nat && holds board middle goat
                      && isEmpty board start
                   then [mk n start true] else []))
            JUMP_PATHS)
    (piecesOf board tiger).

(** The score of the hard tier: jumps first, and not into a trap. *)
Definition moveScore (board : Board) (move : Move) : Z :=
  let score := 0 in
  let score := if isJump move then score + 100 else score in
  let nextBoard := <[to move := tiger]> (delete (from move) board) in
  let nextMoves :=
    Legacy.getValidMoves (to move) tiger nextBoard GOATS_TOTAL in
  if (length nextMoves =? 0)%nat then score - 50
  else score + Z.of_nat (length nextMoves) * 5.

(** [r] is the value of the one [Math.random()] drawn. In the hard tier
    the list sorted is not empty, being that of the possible moves. *)
Definition calculateTigerMove (board : Board) (difficulty : Difficulty)
    (r : Q) : option Move :=
  let possible := possibleMoves board in
  if (length possible =? 0)%nat then None
  else
    match difficulty with
    | easy => possible !! randomIndex r (length possible)
    | medium =>
        let jumpMoves := filter (λ m, isJump m = true) possible in
        if (0 <? length jumpMoves)%nat
        then jumpMoves !! randomIndex r (length jumpMoves)
        else possible !! randomIndex r (length possible)
    | hard =>
        let scoredMoves := map (λ move, (move, moveScore board move)) possible in
        let sorted := sortBy (λ a b, b.2 - a.2) scoredMoves in
        match sorted with
        | [] => None
        | first :: _ =>
            let bestScore := first.2 in
            let bestMoves := filter (λ m, m.2 = bestScore) sorted in
            fst <$> bestMoves !! randomIndex r (length bestMoves)
        end
    end.

(** [rnd k] is the [k]-th value drawn from [Math.random()]. *)
Definition calculateGoatMove (board : Board) (goatsPlaced : Z)
    (difficulty : Difficulty) (rnd : nat → Q)
    : option (option nat * option nat) :=
  if goatsPlaced <? GOATS_TOTAL then
    (* PLACEMENT PHASE *)
    let emptyNodes :=
      filter (λ n, isEmpty board n = true) (map Point_id NODES) in
    let tigers := piecesOf board tiger in
    let nearTigers :=
      filter
        (λ n, existsb (λ tId, includes (adjacent tId) n) tigers = true)
        emptyNodes in
    if (match difficulty with easy => false | _ => true end)
       && (0 <? length nearTigers)%nat
    then
      (* 50% chance to play aggressive, otherwise random *)
      if negb (Qle_bool (rnd 0%nat) (1 # 2))
      then Some (None,
                 nearTigers !! randomIndex (rnd 1%nat) (length nearTigers))
      else Some (None,
                 emptyNodes !! randomIndex (rnd 1%nat) (length emptyNodes))
    else Some (None,
               emptyNodes !! randomIndex (rnd 0%nat) (length emptyNodes))
  else
    (* MOVEMENT PHASE *)
    let goats := piecesOf board goat in
    let possible :=
      flat_map
        (λ n,
           flat_map
             (λ neighbor,
                if isEmpty board neighbor then [(n, neighbor)] else [])
             (adjacent n))
        goats in
    if (length possible =? 0)%nat then None
    else
      match possible !! randomIndex (rnd 0%nat) (length possible) with
      | Some (f, t) => Some (Some f, Some t)
      | None => Some (None, None)
      end.

Definition calculateAIMove (board : Board) (goatsPlaced : Z)
    (difficulty : Difficulty) (aiRole : Player) (rnd : nat → Q)
    : option (option nat * option nat) :=
  if bool_decide (aiRole = tiger) then
    (λ m, (Some (from m), Some (to m)))
      <$> calculateTigerMove board difficulty (rnd 0%nat)
  else calculateGoatMove board goatsPlaced difficulty rnd.

End LegacyAI.

(** The move of the later definitions that a legacy tiger move is. *)
Definition ofLegacy (m : LegacyAI.Move) : AIMove :=
  mkMove (Some (LegacyAI.from m)) (LegacyAI.to m).

(** ** App.tsx: the game component

    The [GameState] of types.ts that the component keeps, and the
    handlers that replace it. A click handler reads the state of the
    render that created it, and [setGameState] hands it that same state
    as [prev]; the click handlers are therefore functions of the state.
    The callback of the AI timer reads the state of the render that
    armed the timer: see [aiTurn]. The [GameConfig] is read only; of it
    the mode, the role of the AI and the difficulty matter here. Of the state cells of the component
    only [gameState] is followed: [lastMove], which [executeMove] also
    sets, and the flags of the menus are read by the display alone. *)

Inductive GameMode : Set := pvp | pve.

#[global] Instance GameMode_eq_dec : EqDecision GameMode.
Proof. solve_decision. Defined.

Module App.

Record GameConfig : Set := mkConfig {
  mode : GameMode;
  aiRole : Player;
  difficulty : Difficulty
}.

Record State : Type := mk {
  board : Board;
  turn : Player;
  goatsPlaced : Z;
  goatsCaptured : Z;
  selectedNode : option nat;   (* null when no node is selected *)
  validMoves : list nat;
  gameOver : bool;
  winner : option Player;
  history : list Board
}.

(** The state [useState] starts from and [resetGame] sets. *)
Definition resetGame : State :=
  mk INITIAL_BOARD goat 0 0 None [] false None [].

(** Handle Move Logic *)
Definition executeMove (gameState : State) (from_ : option nat) (to_ : nat)
    : State :=
  if gameOver gameState then gameState
  else
    let newBoard := board gameState in
    let captured := goatsCaptured gameState in
    let placed := goatsPlaced gameState in
    let '(newBoard, captured, placed) :=
      match from_ with
      | Some f =>
          let newBoard := delete f newBoard in
          if bool_decide (turn gameState = tiger) then
            (* Determine captured piece using Jump Paths *)
            match List.find (matchesJump f to_) JUMP_PATHS with
            | Some (_, capturedId, _) =>
                if holds newBoard capturedId goat
                then (delete capturedId newBoard, captured + 1, placed)
                else (newBoard, captured, placed)
            | None => (newBoard, captured, placed)
            end
          else (newBoard, captured, placed)
      | None => (newBoard, captured, placed + 1)
      end in
    let newBoard := <[to_ := turn gameState]> newBoard in
    let nextTurn :=
      if bool_decide (turn gameState = tiger) then goat else tiger in
    let '(mkWinState over won _) :=
      checkWinCondition newBoard captured nextTurn in
    mk newBoard nextTurn placed captured None [] over won
      (history gameState).

(** [setGameState(prev => ({ ...prev, selectedNode, validMoves }))] *)
Definition select (gameState : State) (selected : option nat)
    (moves : list nat) : State :=
  mk (board gameState) (turn gameState) (goatsPlaced gameState)
    (goatsCaptured gameState) selected moves (gameOver gameState)
    (winner gameState) (history gameState).

(** Handle User Click *)
Definition handleNodeClick (config : GameConfig) (gameState : State)
    (id : nat) : State :=
  if gameOver gameState then gameState
  (* Prevent Human from clicking during AI Turn *)
  else if bool_decide (mode config = pve)
          && bool_decide (turn gameState = aiRole config)
  then gameState
  else
    let piece := board gameState !! id in
    (* Select own piece *)
    if bool_decide (piece = Some (turn gameState)) then
      if bool_decide (turn gameState = goat)
         && (goatsPlaced gameState <? GOATS_TOTAL)
      then gameState
      else
        let moves :=
          getValidMoves id (turn gameState) (board gameState)
            (goatsPlaced gameState) in
        select gameState (Some id) moves
    (* Place Goat (Empty node) *)
    else if bool_decide (piece = None)
            && bool_decide (turn gameState = goat)
            && (goatsPlaced gameState <? GOATS_TOTAL)
    then executeMove gameState None id
    else
      (* Move to valid empty node *)
      match selectedNode gameState with
      | Some selected =>
          if includes (validMoves gameState) id
          then executeMove gameState (Some selected) id
          else select gameState None []
      | None => select gameState None []
      end.

(** AI Logic Trigger: the callback of the timer, as a function of the
    state it closes over, which is the [gameState] of the render that
    armed the timer. That state is the state of the component when the
    timer fires unless the game is reset in between: a reset that
    leaves [turn] and [gameOver] as they are does not cancel the timer.
    Where the callback stores nothing the answer is the state given;
    where it stores a move, every field stored comes from the state
    given, but for [history], which the code keeps from the current
    state and no handler changes. The answer is absent where the move
    would store a piece under a negative key, which no board here can
    hold. *)
Definition aiTurn (config : GameConfig) (gameState : State)
    (rnd : nat → Q) : option State :=
  if negb (gameOver gameState)
     && bool_decide (mode config = pve)
     && bool_decide (turn gameState = aiRole config)
  then
    match calculateAIMove (board gameState) (goatsPlaced gameState)
            (goatsCaptured gameState) (difficulty config) (aiRole config) rnd
    with
    | Some (f, to_) =>
        if 0 <=? to_ then Some (executeMove gameState f (Z.to_nat to_))
        else None
    | None => Some gameState
    end
  else Some gameState.

(** The surrender button, which is disabled once the game is over. *)
Definition surrender (gameState : State) : State :=
  mk (board gameState) (turn gameState) (goatsPlaced gameState)
    (goatsCaptured gameState) (selectedNode gameState)
    (validMoves gameState) true
    (Some (if bool_decide (turn gameState = goat) then tiger else goat))
    (history gameState).

End App.

(** ** Boards used in the examples *)

(** Tiger at 8, goat at 13, node 18 empty. *)
Definition scenarioA : Board :=
  list_to_map [ (8, tiger); (13, goat) ]%nat.

(** Two adjacent goats and nothing else. *)
Definition twoGoats : Board :=
  list_to_map [ (1, goat); (2, goat) ]%nat.

(** A first goat placed on node 1, the move of a tiger from 0 to 2 in
    reply, and the board after it. *)
Definition firstGoat : Board := <[1%nat := goat]> INITIAL_BOARD.

Definition tigerReply : AIMove := mkMove (Some 0%nat) 2%nat.

Definition afterTigerReply : Board :=
  (simulateMove firstGoat tigerReply tiger 0).1.

(** * Vocabulary of the properties *)

(** ** Moves *)

(** What one jump path adds to the moves of node [n]. *)
Definition jumpsOf (n : nat) (board : Board) (path : nat * nat * nat) : list nat :=
  let '(start, middle, end_) := path in
  (if (start =? n)%nat && holds board middle goat && isEmpty board end_
   then [end_] else [])
  ++ (if (end_ =? n)%nat && holds board middle goat && isEmpty board start
      then [start] else []).

(** The two paths have the same pair of ends, in the same order or in
    the opposite order. *)
Definition sameEnds (p q : nat * nat * nat) : bool :=
  let '(s, _, e) := p in
  let '(s', _, e') := q in
  (s =? s')%nat && (e =? e')%nat || (s =? e')%nat && (e =? s')%nat.

(** The board before the capture is looked up: the source is vacated and
    the mover stands on the destination. *)
Definition movedBoard (board : Board) (move : AIMove) (role : Player) : Board :=
  <[to move := role]>
    (match from move with Some f => delete f board | None => board end).

(** The move is a jump of a tiger over a goat: its ends are the ends of
    some jump path, in either orientation, and the middle of that path
    holds a goat on the board the move is applied to. *)
Definition capturingJump (board : Board) (move : AIMove) (role : Player) : Prop :=
  role = tiger
  ∧ ∃ f start middle end_,
      from move = Some f
      ∧ (start, middle, end_) ∈ JUMP_PATHS
      ∧ ((start = f ∧ end_ = to move) ∨ (end_ = f ∧ start = to move))
      ∧ board !! middle = Some goat.

(** ** Pieces *)

(** An entry of the board that belongs to [role]. *)
Definition isRole (role : Player) (entry : nat * Player) : Prop :=
  entry.2 = role.

#[global] Instance isRole_dec role entry : Decision (isRole role entry).
Proof. unfold isRole. apply _. Defined.

(** ** Quantities of the evaluation function *)

(** Sum of an integer quantity over a list of nodes. *)
Definition sumOver (f : nat → Z) (l : list nat) : Z :=
  foldr (λ a acc, f a + acc) 0 l.

(** The three tiger quantities of the evaluator, each as a sum over the
    tigers: the moves a tiger has, whether it has none, and the jump
    destinations open to it. *)
Definition mobilityOf (board : Board) (goatsPlaced : Z) (t : nat) : Z :=
  Z.of_nat (length (getValidMoves t tiger board goatsPlaced)).

Definition trappedOf (board : Board) (goatsPlaced : Z) (t : nat) : Z :=
  if bool_decide (getValidMoves t tiger board goatsPlaced = []) then 1 else 0.

Definition jumpDestinations (board : Board) (t : nat) : list nat :=
  flat_map (jumpsOf t board) JUMP_PATHS.

Definition totalMobility (board : Board) (goatsPlaced : Z) : Z :=
  sumOver (mobilityOf board goatsPlaced) (piecesOf board tiger).

Definition trappedCount (board : Board) (goatsPlaced : Z) : Z :=
  sumOver (trappedOf board goatsPlaced) (piecesOf board tiger).

Definition captureOpportunitiesCount (board : Board) : Z :=
  sumOver (λ t, Z.of_nat (length (jumpDestinations board t)))
    (piecesOf board tiger).

(** Adjacent pairs among the pieces, each unordered pair counted once. *)
Fixpoint adjacentPairs (pieces : list nat) : Z :=
  match pieces with
  | [] => 0
  | a :: rest =>
      Z.of_nat (length (filter (λ b, b ∈ adjacent a) rest)) + adjacentPairs rest
  end.

(** Goats on one of the five central nodes. *)
Definition centralGoats (board : Board) : Z :=
  Z.of_nat (length (filter (λ g, g ∈ [12; 13; 14; 8; 18]%nat)
                      (piecesOf board goat))).

(** The score of the claim, with [connections] the number of unordered
    adjacent pairs of goats. *)
Definition goatScoreOnce (board : Board) (goatsCaptured goatsPlaced : Z) : Z :=
  - goatsCaptured * 2500
  + trappedCount board goatsPlaced * 1500
  - totalMobility board goatsPlaced * 50
  - captureOpportunitiesCount board * 1000
  + adjacentPairs (piecesOf board goat) * 40
  + 70 * centralGoats board.

(** The score with every adjacent pair of goats counted from both of
    its goats. *)
Definition goatScoreTwice (board : Board) (goatsCaptured goatsPlaced : Z) : Z :=
  - goatsCaptured * 2500
  + trappedCount board goatsPlaced * 1500
  - totalMobility board goatsPlaced * 50
  - captureOpportunitiesCount board * 1000
  + (2 * adjacentPairs (piecesOf board goat)) * 40
  + 70 * centralGoats board.

(** ** Placement *)

(** Placing a goat on [node] hands the tigers a capture: the node is
    the middle of a jump path with a tiger at one end and the other end
    empty. *)
Definition handsCapture (board : Board) (node : nat) : Prop :=
  ∃ start middle end_,
    (start, middle, end_) ∈ JUMP_PATHS ∧ middle = node
    ∧ ((board !! start = Some tiger ∧ board !! end_ = None)
       ∨ (board !! end_ = Some tiger ∧ board !! start = None)).

(** The leading candidate is a safe empty node with a score of 0 or
    more. *)
Definition leadsSafe (board : Board) (st : Z * option Q * nat) : Prop :=
  ∃ node score,
    st.1.1 = Z.of_nat node ∧ st.1.2 = Some score ∧ (0 <= score)%Q
    ∧ board !! node = None ∧ immediateDanger board node = false.

(** No candidate has led yet, or one with a score below 0. *)
Definition leadsLow (st : Z * option Q * nat) : Prop :=
  match st.1.2 with
  | None => True
  | Some score => (score < 0)%Q
  end.

(** A random source that cycles through 0, 1, ..., 9. *)
Definition cycleRnd (k : nat) : Q := inject_Z (Z.of_nat (k mod 10)).

(** ** The search *)

(** The node a move from [f] to [t] jumps over, if it is a jump. *)
Definition jumpedNode (f t : nat) : option nat :=
  match List.find (matchesJump f t) JUMP_PATHS with
  | Some (_, middle, _) => Some middle
  | None => None
  end.

(** The node a move jumps over, if it has a source and is a jump. *)
Definition jumpedBy (move : AIMove) : option nat :=
  match from move with
  | Some f => jumpedNode f (to move)
  | None => None
  end.

(** The rank the comparator sorts by: jumps of a tiger first, then the
    central destinations. *)
Definition moveRank (board : Board) (role : Player) (m : AIMove) : Z :=
  (if bool_decide (role = tiger) && negb (isJump board m) then 3 else 0)
  + (2 - centerScore (to m)).

(** The best moves so far: all seen, all with the best score, which no
    move seen exceeds. *)
Definition bestSoFar (score : AIMove → Z) (seen : list AIMove)
    (bestScore : option Z) (bestMoves : list AIMove) : Prop :=
  match bestScore with
  | None => bestMoves = [] ∧ seen = []
  | Some best =>
      bestMoves ≠ []
      ∧ (∀ m, m ∈ bestMoves → m ∈ seen ∧ score m = best)
      ∧ ∀ m, m ∈ seen → score m <= best
  end.

(** The score [getMinimaxMove] gives a move of the root, and whether the
    move is returned at once as a win. *)
Definition rootScore (board : Board) (role : Player)
    (goatsPlaced goatsCaptured : Z) (depth : nat) (move : AIMove) : Z :=
  let '(nextBoard, nextCaptured) :=
    simulateMove board move role goatsCaptured in
  minimax (depth - 1) nextBoard NegInf PosInf false role
    (placedAfter goatsPlaced role move) nextCaptured (Some move).

Definition winsAtOnce (board : Board) (role : Player) (goatsCaptured : Z)
    (move : AIMove) : bool :=
  bool_decide (role = tiger)
  && (GOATS_TO_WIN <=? (simulateMove board move role goatsCaptured).2).

(** ** Plain minimax

    The search without pruning, without ordering and without the
    repetition check: the best of the values of all the moves of the
    side to move, the largest for the AI and the smallest for its
    opponent. *)

(** The best of a list of scores, if there is one. *)
Definition bestOf (isMaximizing : bool) (scores : list Z) : option Z :=
  foldr
    (λ s acc,
       Some (match acc with
             | None => s
             | Some b => if isMaximizing then Z.max s b else Z.min s b
             end))
    None scores.

Fixpoint plainMinimax (depth : nat) (board : Board) (isMaximizing : bool)
    (aiRole : Player) (goatsPlaced goatsCaptured : Z) {struct depth} : Z :=
  let currentTurn := if isMaximizing then aiRole else opponentOf aiRole in
  let winState := checkWinCondition board goatsCaptured currentTurn in
  if gameOver winState then
    if bool_decide (winner winState = Some aiRole)
    then 20000 + Z.of_nat depth
    else -20000 - Z.of_nat depth
  else
    match depth with
    | O => evaluatePosition board aiRole goatsCaptured goatsPlaced
    | S depth' =>
        let value (move : AIMove) : Z :=
          let '(nextBoard, nextCaptured) :=
            simulateMove board move currentTurn goatsCaptured in
          plainMinimax depth' nextBoard (negb isMaximizing) aiRole
            (placedAfter goatsPlaced currentTurn move) nextCaptured in
        match bestOf isMaximizing
                (map value (getAllPossibleMoves board currentTurn goatsPlaced))
        with
        | Some best => best
        | None => if bool_decide (currentTurn = aiRole) then -20000 else 20000
        end
    end.

(** The value of a move in the plain search. *)
Definition plainValue (depth' : nat) (board : Board) (isMaximizing : bool)
    (aiRole : Player) (goatsPlaced goatsCaptured : Z) (move : AIMove) : Z :=
  let currentTurn := if isMaximizing then aiRole else opponentOf aiRole in
  let '(nextBoard, nextCaptured) :=
    simulateMove board move currentTurn goatsCaptured in
  plainMinimax depth' nextBoard (negb isMaximizing) aiRole
    (placedAfter goatsPlaced currentTurn move) nextCaptured.

(** How a score [v] returned for the window from [alpha] to [beta]
    stands to the exact value [e]: at or below [alpha] it is an upper
    bound, at or above [beta] a lower bound, and inside the window it is
    the value. *)
Definition withinWindow (alpha beta : ext) (v e : Z) : Prop :=
  (ext_leb (Fin v) alpha = true → e <= v)
  ∧ (ext_leb beta (Fin v) = true → v <= e)
  ∧ (ext_leb (Fin v) alpha = false → ext_leb beta (Fin v) = false → v = e).

(** No candidate of [turn] on [board] reverses the previous move. *)
Definition neverReversed (previousMove : option AIMove) (board : Board)
    (turn : Player) (goatsPlaced : Z) : Prop :=
  ∀ prev, previousMove = Some prev →
    ∀ m, m ∈ getAllPossibleMoves board turn goatsPlaced →
         isReverseMove m prev = false.

(** An exact value joined to the best of further exact values. *)
Definition joinBest (isMaximizing : bool) (acc : option Z)
    (rest : option Z) : option Z :=
  match acc, rest with
  | None, r => r
  | Some x, None => Some x
  | Some x, Some y => Some (if isMaximizing then Z.max x y else Z.min x y)
  end.

(** What a loop holds after some candidates: its best score [acc]
    against their exact best [eacc], for the maximizing and for the
    minimizing loop, and its result against the exact best of all. *)
Definition maxSoFar (alpha0 : ext) (acc eacc : option Z) : Prop :=
  match acc, eacc with
  | None, None => True
  | Some w, Some e =>
      (ext_leb (Fin w) alpha0 = true → e <= w)
      ∧ (ext_leb (Fin w) alpha0 = false → e = w)
  | _, _ => False
  end.

Definition minSoFar (beta0 : ext) (acc eacc : option Z) : Prop :=
  match acc, eacc with
  | None, None => True
  | Some w, Some e =>
      (ext_leb beta0 (Fin w) = true → w <= e)
      ∧ (ext_leb beta0 (Fin w) = false → e = w)
  | _, _ => False
  end.

Definition windowResult (alpha0 beta0 : ext) (r f : option Z) : Prop :=
  match r, f with
  | None, None => True
  | Some v, Some e => withinWindow alpha0 beta0 v e
  | _, _ => False
  end.

(** ** The game component *)

(** The part of the component's state that the rules speak of. *)
Definition gameOf (s : App.State) : GameState.t :=
  GameState.mk (App.board s) (App.turn s) (App.goatsPlaced s)
    (App.goatsCaptured s).

(** The selection shown is a piece of the side to move together with
    its destinations, or nothing. *)
Definition selectionConsistent (s : App.State) : Prop :=
  match App.selectedNode s with
  | Some n =>
      App.board s !! n = Some (App.turn s)
      ∧ App.validMoves s
        = getValidMoves n (App.turn s) (App.board s) (App.goatsPlaced s)
  | None => App.validMoves s = []
  end.

(** The states the component goes through: clicks on the nodes of the
    board, moves of the AI, surrender while the game runs, and resets,
    under any configuration. A move of the AI is the answer of [aiTurn]
    on a state reached, be it the current one or an earlier one that
    armed the timer. *)
Inductive appReachable : App.State → Prop :=
  | appReachable_reset : appReachable App.resetGame
  | appReachable_click config s id :
      appReachable s → (id < 24)%nat →
      appReachable (App.handleNodeClick config s id)
  | appReachable_ai config s rnd s' :
      appReachable s → (∀ k, (0 <= rnd k)%Q ∧ (rnd k < 1)%Q) →
      App.aiTurn config s rnd = Some s' → appReachable s'
  | appReachable_surrender s :
      appReachable s → App.gameOver s = false →
      appReachable (App.surrender s).

(** What the component keeps true of its state. *)
Definition appInvariant (s : App.State) : Prop :=
  reachable (gameOf s)
  ∧ selectionConsistent s
  ∧ (App.gameOver s = true ↔ is_Some (App.winner s))
  ∧ (App.gameOver s = false →
     gameOver (checkWinCondition (App.board s) (App.goatsCaptured s)
                 (App.turn s)) = false).

(** * Properties *)

(** ** Boards and their pieces *)

Lemma isEmpty_true (board : Board) n : isEmpty board n = true ↔ board !! n = None.
Proof. unfold isEmpty. apply bool_decide_eq_true. Qed.

Lemma holds_true (board : Board) n p : holds board n p = true ↔ board !! n = Some p.
Proof. unfold holds. apply bool_decide_eq_true. Qed.

Lemma elem_of_Object_keys (board : Board) n :
  n ∈ Object_keys board ↔ is_Some (board !! n).
Proof.
  unfold Object_keys. rewrite merge_sort_Permutation, list_elem_of_fmap. split.
  - intros [[k p] [-> Hin]]. apply elem_of_map_to_list in Hin. by exists p.
  - intros [p Hp]. exists (n, p). split; [done|]. by apply elem_of_map_to_list.
Qed.

Lemma NoDup_Object_keys (board : Board) : NoDup (Object_keys board).
Proof.
  unfold Object_keys. rewrite merge_sort_Permutation.
  apply NoDup_fst_map_to_list.
Qed.

Lemma elem_of_piecesOf (board : Board) role n :
  n ∈ piecesOf board role ↔ board !! n = Some role.
Proof.
  unfold piecesOf. rewrite list_elem_of_filter, holds_true, elem_of_Object_keys.
  split; [tauto|]. intros H. split; [done|]. by exists role.
Qed.

Lemma NoDup_piecesOf (board : Board) role : NoDup (piecesOf board role).
Proof. apply NoDup_filter, NoDup_Object_keys. Qed.

(** ** The move generator *)

Lemma fold_left_pushJumps n board paths moves :
  fold_left (pushJumps n board) paths moves
  = moves ++ flat_map (jumpsOf n board) paths.
Proof.
  revert moves. induction paths as [|[[s m] e] paths IH]; intros moves; simpl.
  - by rewrite app_nil_r.
  - rewrite IH. unfold jumpsOf.
    repeat case_match; rewrite <- ?app_assoc; simpl; by rewrite ?app_nil_r.
Qed.

Lemma getValidMoves_tiger n board goatsPlaced :
  getValidMoves n tiger board goatsPlaced
  = filter (λ m, isEmpty board m = true) (adjacent n)
    ++ flat_map (jumpsOf n board) JUMP_PATHS.
Proof.
  unfold getValidMoves.
  rewrite (bool_decide_eq_false_2 (tiger = goat)) by discriminate.
  rewrite (bool_decide_eq_true_2 (tiger = tiger)) by reflexivity.
  apply fold_left_pushJumps.
Qed.

Lemma Legacy_getValidMoves_same n turn board goatsPlaced :
  Legacy.getValidMoves n turn board goatsPlaced
  = getValidMoves n turn board goatsPlaced.
Proof. reflexivity. Qed.

(** C9: while goats are still being placed, no goat has a board move,
    in either definition of [getValidMoves]. *)
Theorem getValidMoves_goat_placing (n : nat) (board : Board) (goatsPlaced : Z) :
  goatsPlaced < GOATS_TOTAL →
  getValidMoves n goat board goatsPlaced = []
  ∧ Legacy.getValidMoves n goat board goatsPlaced = [].
Proof.
  intros Hlt. unfold Legacy.getValidMoves, getValidMoves.
  apply Z.ltb_lt in Hlt. rewrite Hlt.
  rewrite (bool_decide_eq_true_2 (goat = goat)) by reflexivity.
  split; reflexivity.
Qed.

Lemma getValidMoves_goat_placing_witness :
  17 < GOATS_TOTAL
  ∧ getValidMoves 2 goat twoGoats 17 = []
  ∧ Legacy.getValidMoves 2 goat twoGoats 17 = [].
Proof.
  split; [reflexivity|].
  apply (getValidMoves_goat_placing 2 twoGoats 17). reflexivity.
Defined.

(** C4: along every jump path, in both directions, a tiger at one end
    with a goat in the middle and the other end empty may move to that
    other end; so a tiger at 8 with a goat at 13 and 18 empty may move
    to 18. *)
Theorem getValidMoves_includes_jump (board : Board) (goatsPlaced : Z) :
  (∀ start middle end_,
     (start, middle, end_) ∈ JUMP_PATHS →
     board !! middle = Some goat →
     (board !! start = Some tiger → board !! end_ = None →
      end_ ∈ getValidMoves start tiger board goatsPlaced)
     ∧ (board !! end_ = Some tiger → board !! start = None →
        start ∈ getValidMoves end_ tiger board goatsPlaced))
  ∧ (board !! 8%nat = Some tiger → board !! 13%nat = Some goat →
     board !! 18%nat = None →
     18%nat ∈ getValidMoves 8 tiger board 18).
Proof.
  assert (Hgen : ∀ placed start middle end_,
     (start, middle, end_) ∈ JUMP_PATHS →
     board !! middle = Some goat →
     (board !! start = Some tiger → board !! end_ = None →
      end_ ∈ getValidMoves start tiger board placed)
     ∧ (board !! end_ = Some tiger → board !! start = None →
        start ∈ getValidMoves end_ tiger board placed)).
  { intros placed s m e Hin Hm.
    apply holds_true in Hm.
    split; intros _ He; apply isEmpty_true in He;
      rewrite getValidMoves_tiger; apply elem_of_app; right;
      apply list_elem_of_In, in_flat_map; exists (s, m, e);
      (split; [by apply list_elem_of_In|]);
      unfold jumpsOf; rewrite Hm, He, Nat.eqb_refl; cbn [andb].
    - apply in_or_app. left. left. reflexivity.
    - apply in_or_app. right. left. reflexivity. }
  split; [apply Hgen|].
  intros H8 H13 H18.
  apply (Hgen 18 8%nat 13%nat 18%nat); try done.
  apply list_elem_of_In. unfold JUMP_PATHS. cbn [In]. tauto.
Qed.

Lemma getValidMoves_includes_jump_witness :
  scenarioA !! 8%nat = Some tiger ∧ scenarioA !! 13%nat = Some goat
  ∧ scenarioA !! 18%nat = None
  ∧ 18%nat ∈ getValidMoves 8 tiger scenarioA 18.
Proof.
  split; [vm_compute; reflexivity|].
  split; [vm_compute; reflexivity|].
  split; [vm_compute; reflexivity|].
  apply (proj2 (getValidMoves_includes_jump scenarioA 18));
    vm_compute; reflexivity.
Defined.

(** ** The win evaluator *)

(** C2: eight captures or more are a tiger win on any board, for any
    side to move, in either definition of [checkWinCondition]. *)
Theorem checkWinCondition_capture_threshold (board : Board)
    (goatsCaptured : Z) (turn : Player) :
  goatsCaptured >= 8 →
  checkWinCondition board goatsCaptured turn = tigersWin
  ∧ Legacy.checkWinCondition board goatsCaptured turn = tigersWin
  ∧ gameOver (checkWinCondition board goatsCaptured turn) = true
  ∧ winner (checkWinCondition board goatsCaptured turn) = Some tiger.
Proof.
  intros Hge. unfold Legacy.checkWinCondition, checkWinCondition.
  assert (Hle : (GOATS_TO_WIN <=? goatsCaptured) = true)
    by (apply Z.leb_le; unfold GOATS_TO_WIN; lia).
  rewrite Hle.
  repeat split; reflexivity.
Qed.

Lemma checkWinCondition_capture_threshold_witness :
  9 >= 8
  ∧ checkWinCondition twoGoats 9 goat = tigersWin
  ∧ Legacy.checkWinCondition twoGoats 9 goat = tigersWin.
Proof.
  split; [lia|].
  destruct (checkWinCondition_capture_threshold twoGoats 9 goat) as (H1 & H2 & _).
  - lia.
  - split; [exact H1 | exact H2].
Defined.

(** The guard of the later definition: without a tiger on the board and
    below the capture threshold, the game is not over. *)
Lemma checkWinCondition_no_tigers (board : Board) (goatsCaptured : Z)
    (turn : Player) :
  piecesOf board tiger = [] → goatsCaptured < 8 →
  checkWinCondition board goatsCaptured turn = notOver.
Proof.
  intros Hnone Hlt. unfold checkWinCondition.
  assert (Hle : (GOATS_TO_WIN <=? goatsCaptured) = false)
    by (apply Z.leb_gt; unfold GOATS_TO_WIN; lia).
  rewrite Hle.
  rewrite Hnone. reflexivity.
Qed.

(** The earlier definition has no such guard: without a tiger, [some]
    finds no tiger that can move and the goats are declared winners. *)
Lemma Legacy_checkWinCondition_no_tigers (board : Board) (goatsCaptured : Z)
    (turn : Player) :
  piecesOf board tiger = [] → goatsCaptured < 8 →
  Legacy.checkWinCondition board goatsCaptured turn = goatsWin.
Proof.
  intros Hnone Hlt. unfold Legacy.checkWinCondition.
  assert (Hle : (GOATS_TO_WIN <=? goatsCaptured) = false)
    by (apply Z.leb_gt; unfold GOATS_TO_WIN; lia).
  rewrite Hle.
  rewrite Hnone. reflexivity.
Qed.

(** C5: on the empty board with no capture, the earlier definition of
    [checkWinCondition] reports a goat win, where the later definition
    reports that the game is not over. *)
Theorem Legacy_checkWinCondition_empty_board :
  piecesOf (∅ : Board) tiger = []
  ∧ Legacy.checkWinCondition ∅ 0 tiger = goatsWin
  ∧ checkWinCondition ∅ 0 tiger = notOver.
Proof. vm_compute. repeat split; reflexivity. Qed.

(** ** The move simulator *)

(** The pair [(f, t)] is the two ends of the path, in one of the two
    orientations. *)
Lemma matchesJump_true f t start middle end_ :
  matchesJump f t (start, middle, end_) = true
  ↔ (start = f ∧ end_ = t) ∨ (end_ = f ∧ start = t).
Proof.
  unfold matchesJump.
  rewrite orb_true_iff, !andb_true_iff, !Nat.eqb_eq. tauto.
Qed.

(** Two jump paths with the same ends are the same path, and the middle
    of a path is neither of its ends. *)
Lemma JUMP_PATHS_ends_unique :
  forallb (λ p, forallb (λ q, implb (sameEnds p q) (bool_decide (p = q)))
                  JUMP_PATHS) JUMP_PATHS = true.
Proof. vm_compute. reflexivity. Qed.

Lemma JUMP_PATHS_middle_apart :
  forallb (λ '(s, m, e), negb (m =? s)%nat && negb (m =? e)%nat) JUMP_PATHS
  = true.
Proof. vm_compute. reflexivity. Qed.

Lemma matchesJump_unique f t p q :
  p ∈ JUMP_PATHS → q ∈ JUMP_PATHS →
  matchesJump f t p = true → matchesJump f t q = true → p = q.
Proof.
  intros Hp Hq Hmp Hmq.
  pose proof JUMP_PATHS_ends_unique as Hall.
  rewrite forallb_forall in Hall.
  specialize (Hall p (proj1 (list_elem_of_In _ _) Hp)).
  rewrite forallb_forall in Hall.
  specialize (Hall q (proj1 (list_elem_of_In _ _) Hq)).
  destruct p as [[s m] e], q as [[s' m'] e'].
  apply matchesJump_true in Hmp, Hmq.
  assert (Hsame : sameEnds (s, m, e) (s', m', e') = true).
  { unfold sameEnds. rewrite orb_true_iff, !andb_true_iff, !Nat.eqb_eq. lia. }
  rewrite Hsame in Hall. simpl in Hall. by apply bool_decide_eq_true in Hall.
Qed.

Lemma matchesJump_middle f t start middle end_ :
  (start, middle, end_) ∈ JUMP_PATHS →
  matchesJump f t (start, middle, end_) = true →
  middle ≠ f ∧ middle ≠ t.
Proof.
  intros Hin Hm.
  pose proof JUMP_PATHS_middle_apart as Hall.
  rewrite forallb_forall in Hall.
  specialize (Hall _ (proj1 (list_elem_of_In _ _) Hin)). simpl in Hall.
  apply andb_true_iff in Hall as [H1 H2].
  apply negb_true_iff, Nat.eqb_neq in H1, H2.
  apply matchesJump_true in Hm. lia.
Qed.

Lemma movedBoard_lookup_apart board f t role n :
  n ≠ f → n ≠ t →
  movedBoard board (mkMove (Some f) t) role !! n = board !! n.
Proof.
  intros Hf Ht. unfold movedBoard. simpl.
  rewrite lookup_insert_ne by done. by rewrite lookup_delete_ne.
Qed.

Lemma simulateMove_captured_cases board move role currentCaptured :
  (capturingJump board move role
   ∧ (simulateMove board move role currentCaptured).2 = currentCaptured + 1)
  ∨ (¬ capturingJump board move role
     ∧ (simulateMove board move role currentCaptured).2 = currentCaptured).
Proof.
  unfold simulateMove. fold (movedBoard board move role).
  destruct role; [|right; split; [intros [? _]; done | by destruct (from move)]].
  destruct move as [[f|] t]; cbn [from to];
    [|right; split; [intros (_ & ? & ? & ? & ? & ? & _); done | done]].
  destruct (List.find (matchesJump f t) JUMP_PATHS) as [[[s m] e]|] eqn:Hfind.
  - apply find_some in Hfind as [Hin Hm]. apply list_elem_of_In in Hin.
    destruct (matchesJump_middle _ _ _ _ _ Hin Hm) as [Hmf Hmt].
    destruct (holds (movedBoard board (mkMove (Some f) t) tiger) m goat) eqn:Hg.
    + left. split; [|done]. split; [done|].
      exists f, s, m, e. cbn [from to].
      split; [done|]. split; [done|]. split.
      * by apply matchesJump_true in Hm.
      * apply holds_true in Hg. by rewrite movedBoard_lookup_apart in Hg.
    + right. split; [|done].
      intros (_ & f' & s' & m' & e' & Hf & Hin' & Hends & Hgoat).
      cbn [from to] in *. injection Hf as <-.
      apply (matchesJump_true f t s' m' e') in Hends.
      pose proof (matchesJump_unique _ _ _ _ Hin Hin' Hm Hends) as Heq.
      injection Heq as <- <- <-.
      rewrite <- (movedBoard_lookup_apart board f t tiger m) in Hgoat by done.
      apply holds_true in Hgoat. congruence.
  - right. split; [|done].
    intros (_ & f' & s' & m' & e' & Hf & Hin' & Hends & Hgoat).
    cbn [from to] in *. injection Hf as <-.
    apply (matchesJump_true f t s' m' e') in Hends.
    apply list_elem_of_In in Hin'.
    pose proof (find_none _ _ Hfind _ Hin'). congruence.
Qed.

(** C1: [simulateMove] never lowers the captured count; it returns the
    count plus one exactly when a tiger jumps, along a jump path in
    either orientation, over a node that holds a goat, and the count
    itself in every other case. *)
Theorem simulateMove_captured (board : Board) (move : AIMove) (role : Player)
    (currentCaptured : Z) :
  currentCaptured <= (simulateMove board move role currentCaptured).2
  ∧ ((simulateMove board move role currentCaptured).2 = currentCaptured + 1
     ↔ capturingJump board move role)
  ∧ ((simulateMove board move role currentCaptured).2 = currentCaptured
     ↔ ¬ capturingJump board move role).
Proof.
  destruct (simulateMove_captured_cases board move role currentCaptured)
    as [[Hc ->]|[Hc ->]].
  - split; [lia|]. split; split; try done; try lia. 
  - split; [lia|]. split; split; try done; try lia.
Qed.

Example simulateMove_scenarioA :
  (simulateMove scenarioA (mkMove (Some 8%nat) 18%nat) tiger 3).2 = 4
  ∧ (simulateMove scenarioA (mkMove (Some 8%nat) 7%nat) tiger 3).2 = 3
  ∧ (simulateMove scenarioA (mkMove (Some 13%nat) 18%nat) goat 3).2 = 3.
Proof. vm_compute. repeat split; reflexivity. Qed.

(** ** Counting the pieces of a side *)

Lemma piecesOf_filter (board : Board) role :
  piecesOf board role ≡ₚ (map_to_list (filter (isRole role) board)).*1.
Proof.
  apply NoDup_Permutation.
  - apply NoDup_piecesOf.
  - apply NoDup_fst_map_to_list.
  - intros n. rewrite elem_of_piecesOf, list_elem_of_fmap. split.
    + intros Hn. exists (n, role). split; [done|].
      apply elem_of_map_to_list, map_lookup_filter_Some. by split.
    + intros [[k p] [-> Hin]].
      apply elem_of_map_to_list, map_lookup_filter_Some in Hin as [Hk Hp].
      unfold isRole in Hp. simpl in *. by subst p.
Qed.

Lemma length_piecesOf (board : Board) role :
  length (piecesOf board role) = size (filter (isRole role) board).
Proof.
  rewrite (Permutation_length (piecesOf_filter board role)).
  by rewrite length_fmap, length_map_to_list.
Qed.

(** A piece put on an empty node adds one to its side and nothing to the
    other side. *)
Lemma length_piecesOf_insert_other (board : Board) n role other :
  board !! n = None → other ≠ role →
  length (piecesOf (<[n:=other]> board) role) = length (piecesOf board role).
Proof.
  intros Hn Hne. rewrite !length_piecesOf.
  rewrite map_filter_insert_not'; [done| |].
  - unfold isRole. simpl. done.
  - intros p Hp. congruence.
Qed.

(** A piece of the other side taken off the board. *)
Lemma length_piecesOf_delete_other (board : Board) n role other :
  board !! n = Some other → other ≠ role →
  length (piecesOf (delete n board) role) = length (piecesOf board role).
Proof.
  intros Hn Hne. rewrite !length_piecesOf.
  rewrite map_filter_delete_not; [done|].
  intros p Hp. unfold isRole. simpl. congruence.
Qed.

(** A piece moved from its node to an empty node. *)
Lemma length_piecesOf_move (board : Board) f t role :
  board !! f = Some role → board !! t = None →
  length (piecesOf (<[t:=role]> (delete f board)) role)
  = length (piecesOf board role).
Proof.
  intros Hf Ht. rewrite !length_piecesOf.
  rewrite map_filter_insert_True by done.
  rewrite map_filter_delete.
  assert (Hff : filter (isRole role) board !! f = Some role)
    by (by apply map_lookup_filter_Some).
  rewrite map_size_insert_None.
  - rewrite map_size_delete_Some by eauto.
    assert (size (filter (isRole role) board) ≠ 0%nat)
      by (eapply map_size_ne_0_lookup_2; eauto).
    lia.
  - destruct (decide (t = f)) as [->|Hne]; [by rewrite lookup_delete_eq|].
    rewrite lookup_delete_ne by done.
    apply map_lookup_filter_None. left. done.
Qed.

(** ** Legal moves *)

(** Every destination offered by [getValidMoves] is an empty node. *)
Lemma getValidMoves_empty n turn board goatsPlaced t :
  t ∈ getValidMoves n turn board goatsPlaced → board !! t = None.
Proof.
  unfold getValidMoves.
  destruct (bool_decide (turn = goat) && (goatsPlaced <? GOATS_TOTAL));
    [by intros ?%elem_of_nil|].
  assert (Hadj : t ∈ filter (λ m, isEmpty board m = true) (adjacent n) →
                 board !! t = None).
  { intros [Hm _]%list_elem_of_filter. by apply isEmpty_true. }
  destruct (bool_decide (turn = tiger)); [|done].
  rewrite fold_left_pushJumps, elem_of_app. intros [?|Hj]; [auto|].
  apply list_elem_of_In, in_flat_map in Hj as [[[s m] e] [_ Hj]].
  unfold jumpsOf in Hj. apply in_app_or in Hj.
  destruct Hj as [Hj|Hj]; case_match eqn:Hc; try (by destruct Hj);
    destruct Hj as [<-|[]];
    apply andb_true_iff in Hc as [_ Hc]; by apply isEmpty_true.
Qed.

(** A legal move is a placement of a goat on an empty node or the move
    of a piece of the side to an empty node that [getValidMoves] offers. *)
Lemma elem_of_getAllPossibleMoves board role goatsPlaced move :
  move ∈ getAllPossibleMoves board role goatsPlaced →
  (role = goat ∧ from move = None ∧ board !! to move = None)
  ∨ (∃ f, from move = Some f ∧ board !! f = Some role
          ∧ to move ∈ getValidMoves f role board goatsPlaced
          ∧ board !! to move = None).
Proof.
  unfold getAllPossibleMoves.
  destruct (bool_decide (role = goat) && (goatsPlaced <? GOATS_TOTAL)) eqn:Hc.
  - intros Hin. left.
    apply andb_true_iff in Hc as [Hr%bool_decide_eq_true _].
    apply list_elem_of_In, in_flat_map in Hin as [node [_ Hin]].
    destruct (isEmpty board (Point_id node)) eqn:He; [|by destruct Hin].
    destruct Hin as [<-|[]]. simpl. split; [done|]. split; [done|].
    by apply isEmpty_true.
  - intros Hin. right.
    apply list_elem_of_In, in_flat_map in Hin as [f [Hf Hin]].
    apply in_map_iff in Hin as [t [<- Ht]].
    apply list_elem_of_In, elem_of_piecesOf in Hf.
    apply list_elem_of_In in Ht.
    exists f. simpl. repeat split; try done.
    by eapply getValidMoves_empty.
Qed.

(** ** Reachable game states *)

Lemma INITIAL_BOARD_tigers : piecesOf INITIAL_BOARD tiger = [0; 3; 8; 13]%nat.
Proof. vm_compute. reflexivity. Qed.

(** A legal move keeps the number of tigers. *)
Lemma simulateMove_tigers board role goatsPlaced move currentCaptured :
  move ∈ getAllPossibleMoves board role goatsPlaced →
  length (piecesOf (simulateMove board move role currentCaptured).1 tiger)
  = length (piecesOf board tiger).
Proof.
  intros Hlegal.
  apply elem_of_getAllPossibleMoves in Hlegal
    as [(-> & Hfrom & Hto)|(f & Hfrom & Hf & _ & Hto)].
  - unfold simulateMove. rewrite Hfrom. simpl.
    by apply length_piecesOf_insert_other.
  - unfold simulateMove. rewrite Hfrom.
    assert (Hft : to move ≠ f) by (intros Heq; rewrite Heq in Hto; congruence).
    destruct role.
    + set (moved := <[to move:=tiger]> (delete f board)).
      assert (Hmoved : length (piecesOf moved tiger)
                       = length (piecesOf board tiger))
        by (by apply length_piecesOf_move).
      destruct (List.find _ _) as [[[s m] e]|]; [|done].
      destruct (holds moved m goat) eqn:Hg; [|done]. simpl.
      apply holds_true in Hg.
      by rewrite (length_piecesOf_delete_other moved m tiger goat).
    + simpl. rewrite length_piecesOf_insert_other; [| |done].
      * by apply (length_piecesOf_delete_other board f tiger goat).
      * rewrite lookup_delete_ne by done. done.
Qed.

(** On a legal move the handler and [simulateMove] build the same
    state. *)
Lemma executeMove_playMove s move :
  legalMove s move → executeMove s (from move) (to move) = playMove s move.
Proof.
  destruct s as [board turn placed captured].
  destruct move as [[f|] t]; unfold legalMove, executeMove, playMove,
    simulateMove, placedAfter, opponentOf; cbn [GameState.board GameState.turn
      GameState.goatsPlaced GameState.goatsCaptured from to]; intros Hlegal.
  - destruct turn.
    + rewrite (bool_decide_eq_true_2 (tiger = tiger)) by done.
      rewrite (bool_decide_eq_false_2 (tiger = goat)) by done.
      cbn [andb]. rewrite Z.add_0_r.
      destruct (List.find _ _) as [[[s m] e]|] eqn:Hfind; [|done].
      apply find_some in Hfind as [Hin Hm]. apply list_elem_of_In in Hin.
      destruct (matchesJump_middle _ _ _ _ _ Hin Hm) as [_ Hmt].
      unfold holds. rewrite (lookup_insert_ne _ t m) by done.
      case_bool_decide; [|done].
      by rewrite delete_insert_ne by done.
    + rewrite (bool_decide_eq_false_2 (goat = tiger)) by done.
      rewrite (bool_decide_eq_false_2 (Some f = None)) by done.
      rewrite andb_false_r, Z.add_0_r. done.
  - apply elem_of_getAllPossibleMoves in Hlegal
      as [(-> & _ & _)|(f & Hfrom & _)]; [|done].
    rewrite (bool_decide_eq_false_2 (goat = tiger)) by done.
    rewrite (bool_decide_eq_true_2 (goat = goat)) by done.
    rewrite (bool_decide_eq_true_2 (None = None)) by done. done.
Qed.

(** C3: in every state reached from the initial position by legal
    moves, a node has at most one occupant (it is listed once among the
    occupied nodes and holds one piece) and four tigers are on the
    board. *)
Theorem reachable_board_invariant (s : GameState.t) :
  reachable s →
  length (piecesOf (GameState.board s) tiger) = 4%nat
  ∧ NoDup (Object_keys (GameState.board s))
  ∧ (∀ n p q, GameState.board s !! n = Some p →
              GameState.board s !! n = Some q → p = q).
Proof.
  intros Hreach. split; [|split].
  - induction Hreach as [|s move Hreach IH Hlegal].
    + simpl. by rewrite INITIAL_BOARD_tigers.
    + unfold playMove, legalMove in *.
      pose proof (simulateMove_tigers _ _ _ _ (GameState.goatsCaptured s) Hlegal)
        as Hkeep.
      destruct (simulateMove _ _ _ _) as [nextBoard nextCaptured].
      simpl in *. congruence.
  - apply NoDup_Object_keys.
  - intros n p q Hp Hq. congruence.
Qed.

(** The state after the first goat is placed on node 1. *)
Lemma reachable_board_invariant_witness :
  reachable (playMove initialState (mkMove None 1%nat))
  ∧ length (piecesOf (GameState.board (playMove initialState (mkMove None 1%nat))) tiger)
    = 4%nat.
Proof.
  assert (Hreach : reachable (playMove initialState (mkMove None 1%nat))).
  { apply reachable_step; [apply reachable_initial|].
    unfold legalMove. apply list_elem_of_In. vm_compute. tauto. }
  split; [exact Hreach|].
  exact (proj1 (reachable_board_invariant _ Hreach)).
Defined.

(** ** The topology *)

Lemma adjacent_entry n :
  adjacent n = [] ∨ (n, adjacent n) ∈ ADJACENCY_entries.
Proof.
  unfold adjacent. destruct (ADJACENCY !! n) as [l|] eqn:Hl; [right|by left].
  simpl. by apply elem_of_list_to_map_2.
Qed.

(** A property checked on every line of the adjacency table holds of
    every node. *)
Lemma adjacent_forall (check : nat → list nat → bool) n :
  forallb (λ '(k, l), check k l) ADJACENCY_entries = true →
  check n [] = true → check n (adjacent n) = true.
Proof.
  intros Hall Hnil. destruct (adjacent_entry n) as [->|Hin]; [done|].
  rewrite forallb_forall in Hall.
  apply (Hall (n, adjacent n)). by apply list_elem_of_In.
Qed.

Lemma NoDup_adjacent n : NoDup (adjacent n).
Proof.
  pose proof (adjacent_forall (λ _ l, bool_decide (NoDup l)) n) as H.
  cbv beta in H. eapply bool_decide_eq_true, H.
  - vm_compute. reflexivity.
  - apply bool_decide_eq_true, NoDup_nil_2.
Qed.

Lemma adjacent_symmetric n m : m ∈ adjacent n → n ∈ adjacent m.
Proof.
  intros Hm.
  assert (H : forallb (λ m, includes (adjacent m) n) (adjacent n) = true).
  { apply (adjacent_forall (λ n l, forallb (λ m, includes (adjacent m) n) l));
      [vm_compute|]; reflexivity. }
  rewrite forallb_forall in H.
  apply list_elem_of_In, H in Hm. by apply bool_decide_eq_true in Hm.
Qed.

Lemma adjacent_irreflexive n : n ∉ adjacent n.
Proof.
  assert (H : negb (includes (adjacent n) n) = true).
  { apply (adjacent_forall (λ n l, negb (includes l n)));
      [vm_compute|]; reflexivity. }
  apply negb_true_iff in H. by apply bool_decide_eq_false in H.
Qed.

(** No step along an edge has the two ends of a jump path. *)
Lemma adjacent_not_jump n m :
  m ∈ adjacent n → existsb (matchesJump n m) JUMP_PATHS = false.
Proof.
  intros Hm.
  assert (H : forallb (λ m, negb (existsb (matchesJump n m) JUMP_PATHS))
                (adjacent n) = true).
  { apply (adjacent_forall
             (λ n l, forallb (λ m, negb (existsb (matchesJump n m) JUMP_PATHS)) l));
      [vm_compute|]; reflexivity. }
  rewrite forallb_forall in H.
  apply list_elem_of_In, H in Hm. by apply negb_true_iff in Hm.
Qed.

(** Every destination added by a jump path has the ends of that path. *)
Lemma jumpsOf_is_jump n board t :
  t ∈ flat_map (jumpsOf n board) JUMP_PATHS →
  existsb (matchesJump n t) JUMP_PATHS = true.
Proof.
  intros Hj.
  apply list_elem_of_In, in_flat_map in Hj as [[[s m] e] [Hin Hj]].
  apply existsb_exists. exists (s, m, e). split; [done|].
  apply matchesJump_true.
  unfold jumpsOf in Hj. apply in_app_or in Hj.
  destruct Hj as [Hj|Hj]; case_match eqn:Hc; try (by destruct Hj);
    destruct Hj as [<-|[]];
    apply andb_true_iff in Hc as [Hc _];
    apply andb_true_iff in Hc as [Hc%Nat.eqb_eq _]; auto.
Qed.

(** ** The evaluation function from the goats' side *)

(** A loop that adds [w] for every element passing a test. *)
Lemma fold_left_count {A} (test : A → bool) (w : Z) (l : list A) (acc : Z) :
  fold_left (λ c a, if test a then c + w else c) l acc
  = acc + w * Z.of_nat (length (filter (λ a, test a = true) l)).
Proof.
  revert acc. induction l as [|a l IH]; intros acc; simpl; [lia|].
  rewrite IH, filter_cons. destruct (test a) eqn:Ht.
  - rewrite decide_True by done. simpl length. lia.
  - rewrite decide_False by done. lia.
Qed.

Lemma filter_all {A} (P : A → Prop) `{∀ a, Decision (P a)} (l : list A) :
  (∀ a, a ∈ l → P a) → filter P l = l.
Proof.
  induction l as [|a l IH]; intros Hall; [done|].
  rewrite filter_cons_True by (apply Hall; left).
  f_equal. apply IH. intros b Hb. apply Hall. by right.
Qed.

Lemma filter_none {A} (P : A → Prop) `{∀ a, Decision (P a)} (l : list A) :
  (∀ a, a ∈ l → ¬ P a) → filter P l = [].
Proof.
  induction l as [|a l IH]; intros Hall; [done|].
  rewrite filter_cons_False by (apply Hall; left).
  apply IH. intros b Hb. apply Hall. by right.
Qed.

Lemma sumOver_cons f a l : sumOver f (a :: l) = f a + sumOver f l.
Proof. reflexivity. Qed.

Lemma jumpCount_getValidMoves board goatsPlaced t :
  length (filter (λ d, existsb (matchesJump t d) JUMP_PATHS = true)
            (getValidMoves t tiger board goatsPlaced))
  = length (jumpDestinations board t).
Proof.
  rewrite getValidMoves_tiger, filter_app, length_app.
  fold (jumpDestinations board t).
  rewrite filter_none, filter_all; [done| |].
  - intros d Hd. by apply jumpsOf_is_jump in Hd.
  - intros d [_ Hd]%list_elem_of_filter.
    apply adjacent_not_jump in Hd. congruence.
Qed.

Lemma fold_left_tigerStep board goatsPlaced tigers st :
  fold_left (tigerStep board goatsPlaced) tigers st
  = mkStats
      (tigerMobility st + sumOver (mobilityOf board goatsPlaced) tigers)
      (trappedTigers st + sumOver (trappedOf board goatsPlaced) tigers)
      (captureOpportunities st
       + sumOver (λ t, Z.of_nat (length (jumpDestinations board t))) tigers).
Proof.
  revert st. induction tigers as [|t tigers IH]; intros st.
  - destruct st. simpl. f_equal; lia.
  - cbn [fold_left]. rewrite IH. unfold tigerStep.
    cbn [tigerMobility trappedTigers captureOpportunities].
    rewrite !sumOver_cons.
    rewrite fold_left_count, jumpCount_getValidMoves.
    unfold mobilityOf, trappedOf.
    destruct (getValidMoves t tiger board goatsPlaced) as [|d ds] eqn:Hmoves.
    + rewrite bool_decide_eq_true_2 by done. simpl. f_equal; lia.
    + rewrite bool_decide_eq_false_2 by done. cbn [length Nat.eqb].
      f_equal; lia.
Qed.

(** The nodes of one list that occur in another, counted from either
    side. *)
Lemma length_filter_elem_of_comm (l1 l2 : list nat) :
  NoDup l1 → NoDup l2 →
  length (filter (λ a, a ∈ l2) l1) = length (filter (λ a, a ∈ l1) l2).
Proof.
  intros H1 H2. apply Permutation_length, NoDup_Permutation.
  - by apply NoDup_filter.
  - by apply NoDup_filter.
  - intros a. rewrite !list_elem_of_filter. tauto.
Qed.

(** The neighbours of a goat that hold a goat are the goats that are
    its neighbours. *)
Lemma goat_neighbours board g :
  length (filter (λ n, holds board n goat = true) (adjacent g))
  = length (filter (λ h, h ∈ adjacent g) (piecesOf board goat)).
Proof.
  rewrite <- (length_filter_elem_of_comm (adjacent g) (piecesOf board goat))
    by (apply NoDup_adjacent || apply NoDup_piecesOf).
  f_equal. apply list_filter_iff. intros n.
  by rewrite elem_of_piecesOf, holds_true.
Qed.

Lemma connectionsOf_sum board goats :
  connectionsOf board goats
  = sumOver
      (λ g, Z.of_nat (length (filter (λ n, holds board n goat = true) (adjacent g))))
      goats.
Proof.
  unfold connectionsOf.
  assert (Hgen : ∀ acc,
    fold_left
      (λ connections g,
         fold_left (λ c n, if holds board n goat then c + 1 else c)
           (adjacent g) connections) goats acc
    = acc + sumOver
        (λ g, Z.of_nat (length (filter (λ n, holds board n goat = true) (adjacent g))))
        goats).
  { induction goats as [|g goats IH]; intros acc.
    - simpl. lia.
    - cbn [fold_left]. rewrite IH, fold_left_count, sumOver_cons. lia. }
  rewrite Hgen. lia.
Qed.

(** Counting, for every piece, the pieces of the list next to it counts
    every adjacent pair twice. *)
Lemma sumOver_neighbours_twice (l : list nat) :
  sumOver (λ g, Z.of_nat (length (filter (λ h, h ∈ adjacent g) l))) l
  = 2 * adjacentPairs l.
Proof.
  assert (Hgen : ∀ l' : list nat,
    sumOver (λ g, Z.of_nat (length (filter (λ h, h ∈ adjacent g) (l' ++ l)))) l
    = sumOver (λ g, Z.of_nat (length (filter (λ h, h ∈ adjacent g) l'))) l
      + 2 * adjacentPairs l).
  { induction l as [|a l IH]; intros l'; [simpl; lia|].
    rewrite !sumOver_cons. cbn [adjacentPairs].
    replace (l' ++ a :: l) with ((l' ++ [a]) ++ l) by (by rewrite <- app_assoc).
    rewrite IH. rewrite !filter_app, !length_app.
    rewrite (filter_none (λ h, h ∈ adjacent a) [a]).
    2:{ intros b ->%list_elem_of_singleton. apply adjacent_irreflexive. }
    assert (Hsym :
      sumOver (λ g, Z.of_nat (length (filter (λ h, h ∈ adjacent g) (l' ++ [a])))) l
      = sumOver (λ g, Z.of_nat (length (filter (λ h, h ∈ adjacent g) l'))) l
        + Z.of_nat (length (filter (λ b, b ∈ adjacent a) l))).
    { clear IH. induction l as [|b l IHl]; [simpl; lia|].
      rewrite !sumOver_cons, IHl, filter_app, length_app.
      rewrite (filter_cons (λ b, b ∈ adjacent a) b l).
      destruct (decide (b ∈ adjacent a)) as [Hb|Hb].
      - rewrite (filter_all (λ h, h ∈ adjacent b) [a]).
        2:{ intros c ->%list_elem_of_singleton. by apply adjacent_symmetric. }
        simpl length. lia.
      - rewrite (filter_none (λ h, h ∈ adjacent b) [a]).
        2:{ intros c ->%list_elem_of_singleton Hc.
            by apply Hb, adjacent_symmetric. }
        simpl length. lia. }
    rewrite Hsym. simpl length. lia. }
  specialize (Hgen []). simpl app in Hgen. rewrite Hgen.
  assert (Hzero : sumOver (λ g, Z.of_nat (length (filter (λ h, h ∈ adjacent g) []))) l = 0).
  { clear Hgen. induction l as [|a l IH]; [done|].
    rewrite sumOver_cons, IH. simpl. lia. }
  lia.
Qed.

Lemma sumOver_ext f g l : (∀ a, f a = g a) → sumOver f l = sumOver g l.
Proof.
  intros Hfg. induction l as [|a l IH]; [done|].
  by rewrite !sumOver_cons, IH, Hfg.
Qed.

Lemma connectionsOf_twice board :
  connectionsOf board (piecesOf board goat)
  = 2 * adjacentPairs (piecesOf board goat).
Proof.
  rewrite connectionsOf_sum, <- sumOver_neighbours_twice.
  apply sumOver_ext. intros g. by rewrite goat_neighbours.
Qed.

(** C6, as the code has it: from the goats' side the evaluator returns
    the stated sum in which every adjacent pair of goats counts twice,
    once from each of its two goats. *)
Theorem evaluatePosition_goat (board : Board) (goatsCaptured goatsPlaced : Z) :
  evaluatePosition board goat goatsCaptured goatsPlaced
  = goatScoreTwice board goatsCaptured goatsPlaced.
Proof.
  unfold evaluatePosition, goatScoreTwice.
  rewrite (bool_decide_eq_false_2 (goat = tiger)) by discriminate.
  cbv zeta. rewrite fold_left_tigerStep.
  cbn [tigerMobility trappedTigers captureOpportunities].
  rewrite (fold_left_count (includes [12; 13; 14; 8; 18]%nat) 70).
  rewrite connectionsOf_twice.
  unfold trappedCount, totalMobility, captureOpportunitiesCount, centralGoats.
  assert (Hcentral :
    length (filter (λ a, includes [12; 13; 14; 8; 18]%nat a = true) (piecesOf board goat))
    = length (filter (λ g, g ∈ [12; 13; 14; 8; 18]%nat) (piecesOf board goat))).
  { f_equal. apply list_filter_iff. intros n. unfold includes.
    apply bool_decide_eq_true. }
  rewrite Hcentral. lia.
Qed.

(** C6, as stated, fails on two adjacent goats: the evaluator returns 80
    where one count per pair gives 40. *)
Lemma evaluatePosition_goat_counts_pairs_twice :
  evaluatePosition twoGoats goat 0 2 = 80
  ∧ goatScoreOnce twoGoats 0 2 = 40
  ∧ ¬ (∀ board goatsCaptured goatsPlaced,
         evaluatePosition board goat goatsCaptured goatsPlaced
         = goatScoreOnce board goatsCaptured goatsPlaced).
Proof.
  assert (H1 : evaluatePosition twoGoats goat 0 2 = 80) by (vm_compute; reflexivity).
  assert (H2 : goatScoreOnce twoGoats 0 2 = 40) by (vm_compute; reflexivity).
  split; [done|]. split; [done|].
  intros Hall. specialize (Hall twoGoats 0 2). rewrite H1, H2 in Hall. lia.
Qed.

(** ** The placement heuristic *)

Lemma immediateDanger_false board node :
  immediateDanger board node = false → ¬ handsCapture board node.
Proof.
  unfold immediateDanger.
  assert (Hgen : ∀ paths acc,
    fold_left
      (λ danger '(start, middle, end_),
         if (middle =? node)%nat
            && (holds board start tiger && isEmpty board end_
                || holds board end_ tiger && isEmpty board start)
         then true else danger) paths acc = false →
    acc = false
    ∧ ∀ s m e, (s, m, e) ∈ paths → m = node →
        ¬ ((board !! s = Some tiger ∧ board !! e = None)
           ∨ (board !! e = Some tiger ∧ board !! s = None))).
  { induction paths as [|[[s m] e] paths IH]; intros acc Hfold.
    - split; [done|]. intros s m e Hin. by apply elem_of_nil in Hin.
    - cbn [fold_left] in Hfold. apply IH in Hfold as [Hacc Hrest].
      destruct ((m =? node)%nat
                && (holds board s tiger && isEmpty board e
                    || holds board e tiger && isEmpty board s)) eqn:Hc;
        [done|].
      split; [done|]. intros s' m' e' Hin Hm.
      apply elem_of_cons in Hin as [Heq|Hin]; [|by eapply Hrest].
      injection Heq as -> -> ->. subst m.
      rewrite Nat.eqb_refl in Hc. cbn [andb] in Hc.
      rewrite <- !holds_true, <- !isEmpty_true.
      apply orb_false_iff in Hc as [H1 H2].
      apply andb_false_iff in H1, H2.
      intros [[? ?]|[? ?]]; destruct H1, H2; congruence. }
  intros Hd (s & m & e & Hin & Hm & Hcase).
  apply Hgen in Hd as [_ Hd]. by eapply Hd.
Qed.

Lemma placementScore_danger board node :
  immediateDanger board node = true → placementScore board node = -10000.
Proof. intros Hd. unfold placementScore. by rewrite Hd. Qed.

Lemma placementScore_safe board node :
  immediateDanger board node = false → 0 <= placementScore board node.
Proof.
  intros Hd. unfold placementScore. rewrite Hd.
  rewrite !(fold_left_count _ 1).
  repeat case_match; lia.
Qed.

Section Placement.

Variable board : Board.
Variable rnd : nat → Q.
Hypothesis rnd_bounded : ∀ k, (0 <= rnd k)%Q ∧ (rnd k < 10)%Q.

Lemma perturbed_safe node calls :
  immediateDanger board node = false →
  (0 <= inject_Z (placementScore board node) + rnd calls)%Q.
Proof.
  intros Hd. apply placementScore_safe in Hd.
  destruct (rnd_bounded calls) as [Hr _].
  assert (0 <= inject_Z (placementScore board node))%Q
    by (change 0%Q with (inject_Z 0); by rewrite <- Zle_Qle).
  lra.
Qed.

Lemma perturbed_danger node calls :
  immediateDanger board node = true →
  (inject_Z (placementScore board node) + rnd calls < 0)%Q.
Proof.
  intros Hd. rewrite (placementScore_danger _ _ Hd).
  destruct (rnd_bounded calls) as [_ Hr].
  change (inject_Z (-10000)) with (-10000 # 1)%Q. lra.
Qed.

Lemma exceeds_true score m :
  exceeds score (Some m) = true ↔ (m < score)%Q.
Proof.
  unfold exceeds. rewrite negb_true_iff. split.
  - intros Hle. apply Qnot_le_lt. intros Hc.
    apply Qle_bool_iff in Hc. congruence.
  - intros Hlt. destruct (Qle_bool score m) eqn:Hle; [|done].
    apply Qle_bool_iff in Hle. lra.
Qed.

(** A safe leader stays safe whatever candidate comes next. *)
Lemma placementStep_keeps_safe st node :
  board !! node = None → leadsSafe board st →
  leadsSafe board (placementStep board rnd st node).
Proof.
  intros Hempty (best & score & Hbest & Hmax & Hpos & Hbe & Hbd).
  destruct st as [[bestNode maxScore] calls]. simpl in Hbest, Hmax. subst.
  unfold placementStep.
  destruct (exceeds _ _) eqn:Hex;
    [|exists best, score; by repeat split].
  apply exceeds_true in Hex.
  destruct (immediateDanger board node) eqn:Hd.
  - pose proof (perturbed_danger node calls Hd). lra.
  - eexists node, _. repeat split; try done. by apply perturbed_safe.
Qed.

(** A safe candidate takes the lead from a low leader. *)
Lemma placementStep_takes_lead st node :
  board !! node = None → immediateDanger board node = false →
  leadsLow st → leadsSafe board (placementStep board rnd st node).
Proof.
  intros Hempty Hd Hlow.
  destruct st as [[bestNode maxScore] calls]. unfold leadsLow in Hlow.
  simpl in Hlow. unfold placementStep.
  pose proof (perturbed_safe node calls Hd) as Hpos.
  assert (Hex : exceeds (inject_Z (placementScore board node) + rnd calls)
                  maxScore = true).
  { destruct maxScore as [m|]; [|done]. apply exceeds_true. lra. }
  rewrite Hex. eexists node, _. by repeat split.
Qed.

(** A low leader is replaced by a safe one or stays low. *)
Lemma placementStep_low st node :
  board !! node = None → leadsLow st →
  leadsSafe board (placementStep board rnd st node)
  ∨ leadsLow (placementStep board rnd st node).
Proof.
  intros Hempty Hlow.
  destruct (immediateDanger board node) eqn:Hd;
    [|left; by apply placementStep_takes_lead].
  right. destruct st as [[bestNode maxScore] calls].
  unfold leadsLow in *. simpl in Hlow. unfold placementStep.
  destruct (exceeds _ _); simpl; [|done].
  by apply perturbed_danger.
Qed.

Lemma placement_loop_safe (nodes : list nat) st :
  (∀ n, n ∈ nodes → board !! n = None) →
  (leadsSafe board st
   ∨ (leadsLow st ∧ ∃ n, n ∈ nodes ∧ immediateDanger board n = false)) →
  leadsSafe board (fold_left (placementStep board rnd) nodes st).
Proof.
  revert st. induction nodes as [|n nodes IH]; intros st Hempty Hst.
  - destruct Hst as [?|[_ (n & Hn & _)]]; [done|]. by apply elem_of_nil in Hn.
  - cbn [fold_left].
    assert (Hn : board !! n = None) by (apply Hempty; left).
    apply IH; [intros m Hm; apply Hempty; by right|].
    destruct Hst as [Hsafe|[Hlow (m & Hm & Hd)]].
    + left. by apply placementStep_keeps_safe.
    + apply elem_of_cons in Hm as [->|Hm].
      * left. by apply placementStep_takes_lead.
      * destruct (placementStep_low st n Hn Hlow) as [?|?]; [by left|].
        right. split; [done|]. by exists m.
Qed.

(** With a safe empty node on the board, the heuristic returns a safe
    empty node. *)
Lemma getBestPlacementGoat_safe :
  (∃ n, n ∈ map Point_id NODES ∧ board !! n = None
        ∧ immediateDanger board n = false) →
  ∃ node,
    getBestPlacementGoat board rnd = Z.of_nat node
    ∧ board !! node = None ∧ ¬ handsCapture board node.
Proof.
  intros (n & Hn & Hempty & Hd).
  unfold getBestPlacementGoat.
  set (emptyNodes := map Point_id (filter _ NODES)).
  assert (Hin : ∀ m, m ∈ emptyNodes ↔ m ∈ map Point_id NODES ∧ board !! m = None).
  { intros m. unfold emptyNodes. rewrite !list_elem_of_fmap. split.
    - intros (pt & -> & [He Hpt]%list_elem_of_filter).
      split; [by exists pt|]. by apply isEmpty_true.
    - intros [(pt & -> & Hpt) He]. exists pt. split; [done|].
      apply list_elem_of_filter. split; [|done]. by apply isEmpty_true. }
  destruct (placement_loop_safe emptyNodes (-1, None, 0%nat))
    as (node & score & Hbest & _ & _ & Hne & Hnd).
  - intros m Hm. by apply Hin.
  - right. split; [done|]. exists n. split; [|done]. by apply Hin.
  - exists node. split; [done|]. split; [done|].
    by apply immediateDanger_false.
Qed.

End Placement.

(** C7: on the fresh board, whatever the random perturbations below 10,
    the hard-tier goat placement returns an empty node that is not the
    middle of a jump path with a tiger at one end and the other end
    empty. *)
Theorem getBestPlacementGoat_fresh_board (rnd : nat → Q) :
  (∀ k, (0 <= rnd k)%Q ∧ (rnd k < 10)%Q) →
  ∃ node,
    getBestPlacementGoat INITIAL_BOARD rnd = Z.of_nat node
    ∧ INITIAL_BOARD !! node = None
    ∧ ¬ handsCapture INITIAL_BOARD node.
Proof.
  intros Hrnd. apply getBestPlacementGoat_safe; [done|].
  exists 1%nat. split; [|split]; vm_compute; try reflexivity.
  apply list_elem_of_In. vm_compute. tauto.
Qed.

Lemma getBestPlacementGoat_fresh_board_witness :
  (∀ k, (0 <= cycleRnd k)%Q ∧ (cycleRnd k < 10)%Q)
  ∧ ∃ node,
      getBestPlacementGoat INITIAL_BOARD cycleRnd = Z.of_nat node
      ∧ INITIAL_BOARD !! node = None
      ∧ ¬ handsCapture INITIAL_BOARD node.
Proof.
  assert (Hb : ∀ k, (0 <= cycleRnd k)%Q ∧ (cycleRnd k < 10)%Q).
  { intros k. unfold cycleRnd.
    pose proof (Nat.mod_upper_bound k 10 ltac:(lia)) as Hlt.
    split.
    - change 0%Q with (inject_Z 0). rewrite <- Zle_Qle. lia.
    - change 10%Q with (inject_Z 10). rewrite <- Zlt_Qlt. lia. }
  split; [exact Hb|].
  exact (getBestPlacementGoat_fresh_board cycleRnd Hb).
Defined.

Example getBestPlacementGoat_cycle :
  getBestPlacementGoat INITIAL_BOARD cycleRnd = 23.
Proof. vm_compute. reflexivity. Qed.

(** ** The search: one ply *)

Lemma minimax_ply (depth' : nat) (board : Board) (alpha beta : ext)
    (isMaximizing : bool) (aiRole : Player) (goatsPlaced goatsCaptured : Z)
    (previousMove : option AIMove) :
  let currentTurn := if isMaximizing then aiRole else opponentOf aiRole in
  let moves := plyMoves board currentTurn goatsPlaced in
  gameOver (checkWinCondition board goatsCaptured currentTurn) = false →
  moves ≠ [] →
  minimax (S depth') board alpha beta isMaximizing aiRole goatsPlaced
    goatsCaptured previousMove
  = searchPly
      (descend depth' board isMaximizing aiRole goatsPlaced goatsCaptured)
      previousMove isMaximizing moves alpha beta.
Proof.
  intros currentTurn moves Hover Hmoves.
  change (minimax (S depth') board alpha beta isMaximizing aiRole goatsPlaced
            goatsCaptured previousMove)
    with (if gameOver (checkWinCondition board goatsCaptured currentTurn) then
            if bool_decide
                 (winner (checkWinCondition board goatsCaptured currentTurn)
                  = Some aiRole)
            then 20000 + Z.of_nat (S depth')
            else -20000 - Z.of_nat (S depth')
          else
            if (length moves =? 0)%nat then
              if bool_decide (currentTurn = aiRole) then -20000 else 20000
            else
              searchPly
                (descend depth' board isMaximizing aiRole goatsPlaced
                   goatsCaptured)
                previousMove isMaximizing moves alpha beta).
  rewrite Hover.
  destruct moves; [done|]. reflexivity.
Qed.

(** A move is passed over when it reverses the previous move and is not
    the only candidate. *)
Lemma skipsMove_true previousMove movesLength move :
  skipsMove previousMove movesLength move = true
  ↔ ∃ prev, previousMove = Some prev ∧ isReverseMove move prev = true
            ∧ (1 < movesLength)%nat.
Proof.
  unfold skipsMove. destruct previousMove as [prev|].
  - rewrite andb_true_iff, Nat.ltb_lt. split.
    + intros [? ?]. by exists prev.
    + intros (? & [= <-] & ? & ?). done.
  - split; [done|]. intros (? & ? & _). done.
Qed.

(** The reverse of a move: its source and destination swapped. *)
Lemma isReverseMove_true curr prev :
  isReverseMove curr prev = true
  ↔ ∃ source, from prev = Some source
              ∧ curr = mkMove (Some (to prev)) source.
Proof.
  unfold isReverseMove. destruct curr as [[cf|] ct], prev as [[pf|] pt];
    cbn [from to].
  - rewrite andb_true_iff, !Nat.eqb_eq. split.
    + intros [-> ->]. by exists pf.
    + intros (? & [= <-] & [= -> ->]). done.
  - split; [done|]. intros (? & ? & _). done.
  - split; [done|]. intros (? & _ & ?). done.
  - split; [done|]. intros (? & ? & _). done.
Qed.

Section SkippedMoves.

Variable child : AIMove → ext → ext → Z.
Variable prev : AIMove.
Variable movesLength : nat.
Hypothesis several : (1 < movesLength)%nat.

(** With more than one candidate, the loops run as loops without a
    previous move over the candidates that do not reverse it. *)
Lemma maxLoop_filter moves maxEval alpha beta :
  maxLoop child (Some prev) movesLength moves maxEval alpha beta
  = maxLoop child None 0
      (filter (λ m, isReverseMove m prev = false) moves) maxEval alpha beta.
Proof.
  revert maxEval alpha. induction moves as [|m moves IH]; intros maxEval alpha;
    [done|].
  rewrite filter_cons. cbn [maxLoop]. unfold skipsMove at 1.
  apply Nat.ltb_lt in several as Hlen. rewrite Hlen, andb_true_r.
  destruct (isReverseMove m prev) eqn:Hrev.
  - rewrite decide_False by done. apply IH.
  - rewrite decide_True by done. cbn [maxLoop skipsMove].
    destruct (ext_leb _ _); [done|]. apply IH.
Qed.

Lemma minLoop_filter moves minEval alpha beta :
  minLoop child (Some prev) movesLength moves minEval alpha beta
  = minLoop child None 0
      (filter (λ m, isReverseMove m prev = false) moves) minEval alpha beta.
Proof.
  revert minEval beta. induction moves as [|m moves IH]; intros minEval beta;
    [done|].
  rewrite filter_cons. cbn [minLoop]. unfold skipsMove at 1.
  apply Nat.ltb_lt in several as Hlen. rewrite Hlen, andb_true_r.
  destruct (isReverseMove m prev) eqn:Hrev.
  - rewrite decide_False by done. apply IH.
  - rewrite decide_True by done. cbn [minLoop skipsMove].
    destruct (ext_leb _ _); [done|]. apply IH.
Qed.

End SkippedMoves.

(** Without a previous move the number of candidates plays no part. *)
Lemma maxLoop_no_previous child n n' moves maxEval alpha beta :
  maxLoop child None n moves maxEval alpha beta
  = maxLoop child None n' moves maxEval alpha beta.
Proof.
  revert maxEval alpha. induction moves as [|m moves IH]; intros maxEval alpha;
    [done|].
  cbn [maxLoop skipsMove]. destruct (ext_leb _ _); [done|]. apply IH.
Qed.

Lemma minLoop_no_previous child n n' moves minEval alpha beta :
  minLoop child None n moves minEval alpha beta
  = minLoop child None n' moves minEval alpha beta.
Proof.
  revert minEval beta. induction moves as [|m moves IH]; intros minEval beta;
    [done|].
  cbn [minLoop skipsMove]. destruct (ext_leb _ _); [done|]. apply IH.
Qed.

Lemma searchPly_filter child prev isMaximizing moves alpha beta :
  (1 < length moves)%nat →
  searchPly child (Some prev) isMaximizing moves alpha beta
  = searchPly child None isMaximizing
      (filter (λ m, isReverseMove m prev = false) moves) alpha beta.
Proof.
  intros Hlen. unfold searchPly.
  rewrite (maxLoop_filter child prev (length moves) Hlen).
  rewrite (minLoop_filter child prev (length moves) Hlen).
  rewrite (maxLoop_no_previous child 0
             (length (filter (λ m, isReverseMove m prev = false) moves))).
  rewrite (minLoop_no_previous child 0
             (length (filter (λ m, isReverseMove m prev = false) moves))).
  reflexivity.
Qed.

Lemma searchPly_single child previousMove isMaximizing move alpha beta :
  searchPly child previousMove isMaximizing [move] alpha beta
  = child move alpha beta.
Proof.
  unfold searchPly. cbn [length maxLoop minLoop].
  assert (Hskip : skipsMove previousMove 1 move = false).
  { unfold skipsMove. destruct previousMove; [|done].
    by rewrite andb_false_r. }
  rewrite Hskip. destruct isMaximizing; by destruct (ext_leb _ _).
Qed.

(** ** The candidates of a ply are pairwise distinct *)

Lemma elem_of_flat_map {A B} (f : A → list B) (l : list A) (b : B) :
  b ∈ flat_map f l ↔ ∃ a, a ∈ l ∧ b ∈ f a.
Proof.
  rewrite list_elem_of_In, in_flat_map.
  split; intros (a & Ha & Hb); exists a; split;
    by apply list_elem_of_In.
Qed.

Lemma NoDup_flat_map {A B} (f : A → list B) (l : list A) :
  (∀ a1 a2 b, a1 ∈ l → a2 ∈ l → b ∈ f a1 → b ∈ f a2 → a1 = a2) →
  (∀ a, a ∈ l → NoDup (f a)) → NoDup l → NoDup (flat_map f l).
Proof.
  intros Hinj Hf. induction 1 as [|a l Ha Hl IH]; cbn [flat_map];
    [constructor|].
  apply NoDup_app. split; [|split].
  - apply Hf. left.
  - intros b Hb (a' & Ha' & Hb')%elem_of_flat_map.
    assert (a = a') as <-; [|done].
    apply (Hinj a a' b); [left|by right|done|done].
  - apply IH.
    + intros a1 a2 b H1 H2. apply Hinj; by right.
    + intros a' Ha'. apply Hf. by right.
Qed.

(** What a jump path adds to the moves of [n] has the ends of the path. *)
Lemma elem_of_jumpsOf n board path t :
  t ∈ jumpsOf n board path → matchesJump n t path = true.
Proof.
  destruct path as [[s m] e]. unfold jumpsOf. intros Hj.
  apply matchesJump_true.
  apply elem_of_app in Hj.
  destruct Hj as [Hj|Hj]; case_match eqn:Hc;
    try (by apply elem_of_nil in Hj);
    apply list_elem_of_singleton in Hj as ->;
    apply andb_true_iff in Hc as [Hc _];
    apply andb_true_iff in Hc as [Hc%Nat.eqb_eq _]; auto.
Qed.

Lemma NoDup_JUMP_PATHS : NoDup JUMP_PATHS.
Proof. apply (proj1 (bool_decide_eq_true _)). vm_compute. reflexivity. Qed.

Lemma JUMP_PATHS_ends_apart :
  forallb (λ '(s, _, e), negb (s =? e)%nat) JUMP_PATHS = true.
Proof. vm_compute. reflexivity. Qed.

Lemma NoDup_jumpsOf n board path :
  path ∈ JUMP_PATHS → NoDup (jumpsOf n board path).
Proof.
  intros Hin. destruct path as [[s m] e]. unfold jumpsOf.
  assert (Hse : e ≠ s).
  { pose proof JUMP_PATHS_ends_apart as Hall.
    rewrite forallb_forall in Hall.
    specialize (Hall _ (proj1 (list_elem_of_In _ _) Hin)). simpl in Hall.
    apply negb_true_iff, Nat.eqb_neq in Hall. done. }
  repeat case_match; cbn [app];
    try apply NoDup_singleton; try apply NoDup_nil_2.
  apply NoDup_cons. split; [|apply NoDup_singleton].
  by rewrite list_elem_of_singleton.
Qed.

Lemma NoDup_jumpDestinations n board :
  NoDup (flat_map (jumpsOf n board) JUMP_PATHS).
Proof.
  apply NoDup_flat_map.
  - intros p q t Hp Hq Htp Htq.
    apply (matchesJump_unique n t); try done; by eapply elem_of_jumpsOf.
  - intros p Hp. by apply NoDup_jumpsOf.
  - apply NoDup_JUMP_PATHS.
Qed.

(** [getValidMoves] offers no destination twice. *)
Lemma NoDup_getValidMoves n turn board goatsPlaced :
  NoDup (getValidMoves n turn board goatsPlaced).
Proof.
  destruct turn.
  - rewrite getValidMoves_tiger. apply NoDup_app. split; [|split].
    + apply NoDup_filter, NoDup_adjacent.
    + intros t [_ Hadj]%list_elem_of_filter Hjump.
      apply adjacent_not_jump in Hadj. apply jumpsOf_is_jump in Hjump.
      congruence.
    + apply NoDup_jumpDestinations.
  - unfold getValidMoves.
    destruct (bool_decide (goat = goat) && (goatsPlaced <? GOATS_TOTAL));
      [apply NoDup_nil_2|].
    rewrite (bool_decide_eq_false_2 (goat = tiger)) by discriminate.
    apply NoDup_filter, NoDup_adjacent.
Qed.

Lemma NoDup_NODES : NoDup (map Point_id NODES).
Proof. apply (proj1 (bool_decide_eq_true _)). vm_compute. reflexivity. Qed.

Lemma Point_id_inj (l : list Point) p q :
  NoDup (map Point_id l) → p ∈ l → q ∈ l → Point_id p = Point_id q → p = q.
Proof.
  induction l as [|a l IH]; intros Hnd Hp Hq Hid;
    [by apply elem_of_nil in Hp|].
  cbn [map] in Hnd. apply NoDup_cons in Hnd as [Ha Hnd].
  apply elem_of_cons in Hp as [->|Hp], Hq as [->|Hq]; try done.
  - exfalso. apply Ha. rewrite Hid. apply list_elem_of_fmap. by exists q.
  - exfalso. apply Ha. rewrite <- Hid. apply list_elem_of_fmap. by exists p.
  - by apply IH.
Qed.

(** [getAllPossibleMoves] lists no move twice. *)
Lemma NoDup_getAllPossibleMoves board role goatsPlaced :
  NoDup (getAllPossibleMoves board role goatsPlaced).
Proof.
  unfold getAllPossibleMoves. case_match.
  - apply NoDup_flat_map.
    + intros p q move Hp Hq Hmp Hmq.
      destruct (isEmpty board (Point_id p)); [|by apply elem_of_nil in Hmp].
      destruct (isEmpty board (Point_id q)); [|by apply elem_of_nil in Hmq].
      apply list_elem_of_singleton in Hmp, Hmq. subst move.
      injection Hmq as Hid.
      by apply (Point_id_inj NODES), eq_sym; [apply NoDup_NODES| | |].
    + intros p _. case_match; [apply NoDup_singleton|apply NoDup_nil_2].
    + eapply NoDup_fmap_1, NoDup_NODES.
  - apply NoDup_flat_map.
    + intros f1 f2 move _ _ (t1 & -> & _)%list_elem_of_fmap
        (t2 & Heq & _)%list_elem_of_fmap. by injection Heq.
    + intros f _.
      assert (Hinj : Inj (=) (=) (mkMove (Some f)))
        by (intros t1 t2 Heq; by injection Heq).
      apply (NoDup_fmap_2 (mkMove (Some f))), NoDup_getValidMoves.
    + apply NoDup_piecesOf.
Qed.

(** ** Sorting keeps the candidates *)

Lemma insertBy_Permutation cmp m l : insertBy cmp m l ≡ₚ m :: l.
Proof.
  induction l as [|m' l IH]; [done|]. cbn [insertBy].
  case_match; [done|]. rewrite IH. apply Permutation_swap.
Qed.

Lemma sortMovesForPruning_Permutation moves board role :
  sortMovesForPruning moves board role ≡ₚ moves.
Proof.
  unfold sortMovesForPruning. induction moves as [|m moves IH]; [done|].
  cbn [foldr]. by rewrite insertBy_Permutation, IH.
Qed.

Lemma NoDup_plyMoves board currentTurn goatsPlaced :
  NoDup (plyMoves board currentTurn goatsPlaced).
Proof.
  unfold plyMoves. rewrite sortMovesForPruning_Permutation.
  apply NoDup_getAllPossibleMoves.
Qed.

(** ** Some candidate is always searched *)

(** Two moves that reverse the same move are the same move. *)
Lemma isReverseMove_unique m1 m2 prev :
  isReverseMove m1 prev = true → isReverseMove m2 prev = true → m1 = m2.
Proof.
  intros (s1 & Hs1 & ->)%isReverseMove_true (s2 & Hs2 & ->)%isReverseMove_true.
  congruence.
Qed.

(** Among distinct candidates, one at least is not passed over. *)
Lemma some_move_not_skipped previousMove (moves : list AIMove) :
  NoDup moves → moves ≠ [] →
  ∃ move, move ∈ moves ∧ skipsMove previousMove (length moves) move = false.
Proof.
  intros Hnd Hne. destruct moves as [|m1 [|m2 moves]]; [done| |].
  - exists m1. split; [left|]. unfold skipsMove.
    destruct previousMove; [|done]. by rewrite andb_false_r.
  - destruct (skipsMove previousMove (length (m1 :: m2 :: moves)) m1) eqn:H1;
      [|exists m1; split; [left|done]].
    exists m2. split; [right; left|].
    destruct (skipsMove previousMove (length (m1 :: m2 :: moves)) m2) eqn:H2;
      [|done].
    apply skipsMove_true in H1 as (p1 & Hp1 & Hr1 & _).
    apply skipsMove_true in H2 as (p2 & Hp2 & Hr2 & _).
    assert (p1 = p2) as <- by congruence.
    pose proof (isReverseMove_unique _ _ _ Hr1 Hr2) as ->.
    apply NoDup_cons in Hnd as [Hin _]. exfalso. apply Hin. left.
Qed.

Section Fallback.

Variable child : AIMove → ext → ext → Z.
Variable previousMove : option AIMove.
Variable movesLength : nat.

(** Once a candidate has been searched the loops return a score. *)
Lemma maxLoop_started moves score alpha beta :
  is_Some (maxLoop child previousMove movesLength moves (Some score) alpha beta).
Proof.
  revert score alpha. induction moves as [|m moves IH]; intros score alpha;
    cbn [maxLoop]; [done|].
  destruct (skipsMove _ _ _); [apply IH|].
  destruct (ext_leb _ _); [done|apply IH].
Qed.

Lemma minLoop_started moves score alpha beta :
  is_Some (minLoop child previousMove movesLength moves (Some score) alpha beta).
Proof.
  revert score beta. induction moves as [|m moves IH]; intros score beta;
    cbn [minLoop]; [done|].
  destruct (skipsMove _ _ _); [apply IH|].
  destruct (ext_leb _ _); [done|apply IH].
Qed.

(** A candidate that is not passed over makes the loops return a score. *)
Lemma maxLoop_searches moves maxEval alpha beta :
  (∃ move, move ∈ moves ∧ skipsMove previousMove movesLength move = false) →
  is_Some (maxLoop child previousMove movesLength moves maxEval alpha beta).
Proof.
  revert maxEval alpha. induction moves as [|m moves IH];
    intros maxEval alpha (move & Hin & Hskip); [by apply elem_of_nil in Hin|].
  cbn [maxLoop]. destruct (skipsMove previousMove movesLength m) eqn:Hm.
  - apply IH. exists move. split; [|done].
    apply elem_of_cons in Hin as [->|?]; [congruence|done].
  - destruct (ext_leb _ _); [by destruct maxEval|].
    destruct maxEval; apply maxLoop_started.
Qed.

Lemma minLoop_searches moves minEval alpha beta :
  (∃ move, move ∈ moves ∧ skipsMove previousMove movesLength move = false) →
  is_Some (minLoop child previousMove movesLength moves minEval alpha beta).
Proof.
  revert minEval beta. induction moves as [|m moves IH];
    intros minEval beta (move & Hin & Hskip); [by apply elem_of_nil in Hin|].
  cbn [minLoop]. destruct (skipsMove previousMove movesLength m) eqn:Hm.
  - apply IH. exists move. split; [|done].
    apply elem_of_cons in Hin as [->|?]; [congruence|done].
  - destruct (ext_leb _ _); [by destruct minEval|].
    destruct minEval; apply minLoop_started.
Qed.

End Fallback.

(** C10: the candidates of a ply are pairwise distinct, so at most one
    of them reverses the previous move; when there is a candidate, one
    is not passed over, the loop of the ply returns the score of a
    searched candidate, which is the value of [minimax], and the
    fallbacks -10000 and 10000 are not taken. *)
Theorem minimax_fallback_unreachable (depth' : nat) (board : Board)
    (alpha beta : ext) (isMaximizing : bool) (aiRole : Player)
    (goatsPlaced goatsCaptured : Z) (previousMove : option AIMove) :
  let currentTurn := if isMaximizing then aiRole else opponentOf aiRole in
  let moves := plyMoves board currentTurn goatsPlaced in
  let child :=
    descend depth' board isMaximizing aiRole goatsPlaced goatsCaptured in
  gameOver (checkWinCondition board goatsCaptured currentTurn) = false →
  moves ≠ [] →
  NoDup (getAllPossibleMoves board currentTurn goatsPlaced)
  ∧ (∀ prev m1 m2, m1 ∈ moves → m2 ∈ moves →
       isReverseMove m1 prev = true → isReverseMove m2 prev = true → m1 = m2)
  ∧ (∃ move, move ∈ moves
             ∧ skipsMove previousMove (length moves) move = false)
  ∧ is_Some (maxLoop child previousMove (length moves) moves None alpha beta)
  ∧ is_Some (minLoop child previousMove (length moves) moves None alpha beta)
  ∧ ∃ score,
      (if isMaximizing
       then maxLoop child previousMove (length moves) moves None alpha beta
       else minLoop child previousMove (length moves) moves None alpha beta)
      = Some score
      ∧ minimax (S depth') board alpha beta isMaximizing aiRole goatsPlaced
          goatsCaptured previousMove = score.
Proof.
  intros currentTurn moves child Hover Hne.
  assert (Hsome : ∃ move, move ∈ moves
             ∧ skipsMove previousMove (length moves) move = false).
  { apply some_move_not_skipped; [apply NoDup_plyMoves|done]. }
  pose proof (maxLoop_searches child previousMove (length moves) moves None
                alpha beta Hsome) as [vmax Hmax].
  pose proof (minLoop_searches child previousMove (length moves) moves None
                alpha beta Hsome) as [vmin Hmin].
  split; [apply NoDup_getAllPossibleMoves|].
  split; [intros prev m1 m2 _ _; apply isReverseMove_unique|].
  split; [done|]. split; [by exists vmax|]. split; [by exists vmin|].
  rewrite minimax_ply by done.
  fold currentTurn. fold moves. fold child. unfold searchPly.
  destruct isMaximizing.
  - exists vmax. by rewrite Hmax.
  - exists vmin. by rewrite Hmin.
Qed.

Lemma minimax_fallback_unreachable_witness :
  gameOver (checkWinCondition scenarioA 0 tiger) = false
  ∧ plyMoves scenarioA tiger 18 ≠ []
  ∧ ∃ score,
      maxLoop (descend 0 scenarioA true tiger 18 0)
        (Some (mkMove (Some 3%nat) 8%nat))
        (length (plyMoves scenarioA tiger 18)) (plyMoves scenarioA tiger 18)
        None NegInf PosInf = Some score
      ∧ minimax 1 scenarioA NegInf PosInf true tiger 18 0
          (Some (mkMove (Some 3%nat) 8%nat)) = score.
Proof.
  assert (Hover : gameOver (checkWinCondition scenarioA 0 tiger) = false)
    by (vm_compute; reflexivity).
  assert (Hne : plyMoves scenarioA tiger 18 ≠ [])
    by (vm_compute; discriminate).
  split; [exact Hover|]. split; [exact Hne|].
  exact (proj2 (proj2 (proj2 (proj2 (proj2
    (minimax_fallback_unreachable 0 scenarioA NegInf PosInf true tiger 18 0
       (Some (mkMove (Some 3%nat) 8%nat)) Hover Hne)))))).
Defined.

(** ** The previous move inside the recursion

    In the recursion the previous move is the move of the other side,
    which now stands on its destination: no candidate of the side to
    move starts from there, so no candidate reverses it. *)

Lemma simulateMove_destination board move role currentCaptured :
  (simulateMove board move role currentCaptured).1 !! to move = Some role.
Proof.
  unfold simulateMove. fold (movedBoard board move role).
  assert (Hmoved : movedBoard board move role !! to move = Some role)
    by (unfold movedBoard; apply lookup_insert_eq).
  destruct role; [|by destruct (from move)].
  destruct (from move) as [f|] eqn:Hf; [|done].
  destruct (List.find _ _) as [[[s m] e]|] eqn:Hfind; [|done].
  destruct (holds _ _ _); [|done]. cbn [fst].
  apply find_some in Hfind as [Hin Hm]. apply list_elem_of_In in Hin.
  destruct (matchesJump_middle _ _ _ _ _ Hin Hm) as [_ Hmt].
  by rewrite lookup_delete_ne.
Qed.

Lemma candidates_never_reverse board move role currentCaptured goatsPlaced m :
  m ∈ getAllPossibleMoves (simulateMove board move role currentCaptured).1
        (opponentOf role) goatsPlaced →
  isReverseMove m move = false.
Proof.
  intros Hin.
  destruct (isReverseMove m move) eqn:Hrev; [exfalso|done].
  apply isReverseMove_true in Hrev as (source & _ & ->).
  apply elem_of_getAllPossibleMoves in Hin
    as [(_ & Hfrom & _)|(f & Hfrom & Hf & _)]; [done|].
  cbn [from] in Hfrom. injection Hfrom as <-.
  rewrite simulateMove_destination in Hf. by destruct role.
Qed.

(** * Further properties of the rule engine *)

(** The two halves of the count of [simulateMove], for use below. *)
Lemma simulateMove_captures_iff board move role currentCaptured :
  (simulateMove board move role currentCaptured).2 = currentCaptured + 1
  ↔ capturingJump board move role.
Proof.
  destruct (simulateMove_captured_cases board move role currentCaptured)
    as [[Hc ->]|[Hc ->]]; split; try done; lia.
Qed.

Lemma simulateMove_captured_le board move role currentCaptured :
  currentCaptured <= (simulateMove board move role currentCaptured).2.
Proof.
  destruct (simulateMove_captured_cases board move role currentCaptured)
    as [[Hc ->]|[Hc ->]]; lia.
Qed.

Lemma reachable_tigers s :
  reachable s → length (piecesOf (GameState.board s) tiger) = 4%nat.
Proof.
  induction 1 as [|s move Hreach IH Hlegal].
  - simpl. by rewrite INITIAL_BOARD_tigers.
  - unfold playMove, legalMove in *.
    pose proof (simulateMove_tigers _ _ _ _ (GameState.goatsCaptured s) Hlegal)
      as Hkeep.
    destruct (simulateMove _ _ _ _) as [nextBoard nextCaptured].
    simpl in *. congruence.
Qed.

Lemma cycleRnd_bounded k : (0 <= cycleRnd k)%Q ∧ (cycleRnd k < 10)%Q.
Proof.
  unfold cycleRnd.
  pose proof (Nat.mod_upper_bound k 10 ltac:(lia)) as Hlt.
  split.
  - change 0%Q with (inject_Z 0). rewrite <- Zle_Qle. lia.
  - change 10%Q with (inject_Z 10). rewrite <- Zlt_Qlt. lia.
Qed.

(** ** What [getValidMoves] returns *)

Lemma elem_of_jumpDestinations n board t :
  t ∈ flat_map (jumpsOf n board) JUMP_PATHS
  ↔ board !! t = None
    ∧ ∃ m, board !! m = Some goat
           ∧ ((n, m, t) ∈ JUMP_PATHS ∨ (t, m, n) ∈ JUMP_PATHS).
Proof.
  rewrite elem_of_flat_map. split.
  - intros ([[s m] e] & Hin & Hj). unfold jumpsOf in Hj.
    apply elem_of_app in Hj as [Hj|Hj]; case_match eqn:Hc;
      try (by apply elem_of_nil in Hj);
      apply list_elem_of_singleton in Hj as ->;
      apply andb_true_iff in Hc as [Hc He%isEmpty_true];
      apply andb_true_iff in Hc as [->%Nat.eqb_eq Hg%holds_true];
      (split; [done|]); exists m; (split; [done|]); auto.
  - intros (He & m & Hg & [Hin|Hin]).
    + exists (n, m, t). split; [done|]. unfold jumpsOf.
      apply holds_true in Hg. apply isEmpty_true in He.
      rewrite Nat.eqb_refl, Hg, He. cbn [andb]. apply elem_of_app. left.
      by apply list_elem_of_singleton.
    + exists (t, m, n). split; [done|]. unfold jumpsOf.
      apply holds_true in Hg. apply isEmpty_true in He.
      rewrite Nat.eqb_refl, Hg, He. cbn [andb]. apply elem_of_app. right.
      by apply list_elem_of_singleton.
Qed.

Lemma elem_of_getValidMoves (n : nat) (board : Board) (goatsPlaced : Z)
    (t : nat) :
  (t ∈ getValidMoves n tiger board goatsPlaced
   ↔ board !! t = None
     ∧ (t ∈ adjacent n
        ∨ ∃ m, board !! m = Some goat
               ∧ ((n, m, t) ∈ JUMP_PATHS ∨ (t, m, n) ∈ JUMP_PATHS)))
  ∧ (t ∈ getValidMoves n goat board goatsPlaced
     ↔ GOATS_TOTAL <= goatsPlaced ∧ board !! t = None ∧ t ∈ adjacent n).
Proof.
  split.
  - rewrite getValidMoves_tiger, elem_of_app, list_elem_of_filter,
      isEmpty_true, elem_of_jumpDestinations. tauto.
  - unfold getValidMoves.
    rewrite (bool_decide_eq_true_2 (goat = goat)) by done.
    rewrite (bool_decide_eq_false_2 (goat = tiger)) by done.
    cbn [andb]. destruct (goatsPlaced <? GOATS_TOTAL) eqn:Hlt.
    + apply Z.ltb_lt in Hlt. split; [by intros ?%elem_of_nil|]. lia.
    + apply Z.ltb_ge in Hlt. rewrite list_elem_of_filter, isEmpty_true. tauto.
Qed.

(** X1: the destinations of a tiger are the empty neighbours and the
    empty far ends of the jump paths, in either direction, whose middle
    holds a goat; those of a goat, once all goats are placed, are the
    empty neighbours. *)
Theorem getValidMoves_exact (n : nat) (board : Board) (goatsPlaced : Z)
    (t : nat) :
  (t ∈ getValidMoves n tiger board goatsPlaced
   ↔ board !! t = None
     ∧ (t ∈ adjacent n
        ∨ ∃ m, board !! m = Some goat
               ∧ ((n, m, t) ∈ JUMP_PATHS ∨ (t, m, n) ∈ JUMP_PATHS)))
  ∧ (t ∈ getValidMoves n goat board goatsPlaced
     ↔ GOATS_TOTAL <= goatsPlaced ∧ board !! t = None ∧ t ∈ adjacent n).
Proof. exact (elem_of_getValidMoves n board goatsPlaced t). Qed.

(** The nodes of the adjacency table and of the jump paths are nodes of
    the board. *)
Lemma adjacent_in_topology n t : t ∈ adjacent n → (t < 24)%nat.
Proof.
  intros Ht.
  assert (H : forallb (λ t, t <? 24)%nat (adjacent n) = true).
  { apply (adjacent_forall (λ _ l, forallb (λ t, t <? 24)%nat l));
      [vm_compute|]; reflexivity. }
  rewrite forallb_forall in H.
  apply list_elem_of_In, H in Ht. by apply Nat.ltb_lt in Ht.
Qed.

Lemma JUMP_PATHS_in_topology s m e :
  (s, m, e) ∈ JUMP_PATHS → (s < 24 ∧ m < 24 ∧ e < 24)%nat.
Proof.
  intros Hin.
  assert (H : forallb (λ '(s, m, e), (s <? 24) && (m <? 24) && (e <? 24))%nat
                JUMP_PATHS = true) by (vm_compute; reflexivity).
  rewrite forallb_forall in H. apply list_elem_of_In, H in Hin.
  apply andb_true_iff in Hin as [Hin He]. apply andb_true_iff in Hin as [Hs Hm].
  apply Nat.ltb_lt in Hs, Hm, He. done.
Qed.

Lemma JUMP_PATHS_apart s m e : (s, m, e) ∈ JUMP_PATHS → s ≠ e.
Proof.
  intros Hin. pose proof JUMP_PATHS_ends_apart as Hall.
  rewrite forallb_forall in Hall.
  specialize (Hall _ (proj1 (list_elem_of_In _ _) Hin)). simpl in Hall.
  by apply negb_true_iff, Nat.eqb_neq in Hall.
Qed.

Lemma getValidMoves_sound (n : nat) (turn : Player) (board : Board)
    (goatsPlaced : Z) :
  NoDup (getValidMoves n turn board goatsPlaced)
  ∧ ∀ t, t ∈ getValidMoves n turn board goatsPlaced →
         board !! t = None ∧ t ≠ n ∧ (t < 24)%nat.
Proof.
  split; [apply NoDup_getValidMoves|]. intros t Ht.
  split; [by eapply getValidMoves_empty|].
  destruct turn.
  - apply elem_of_getValidMoves in Ht as [_ [Hadj|(m & _ & [Hin|Hin])]].
    + split; [|by eapply adjacent_in_topology].
      intros ->. by apply adjacent_irreflexive in Hadj.
    + split; [|by apply JUMP_PATHS_in_topology in Hin as (_ & _ & ?)].
      apply JUMP_PATHS_apart in Hin. done.
    + split; [|by apply JUMP_PATHS_in_topology in Hin as (? & _ & _)].
      by apply JUMP_PATHS_apart in Hin.
  - apply elem_of_getValidMoves in Ht as (_ & _ & Hadj).
    split; [|by eapply adjacent_in_topology].
    intros ->. by apply adjacent_irreflexive in Hadj.
Qed.

(** X2: [getValidMoves] lists no destination twice, and every
    destination is an empty node of the board other than the node the
    piece stands on. *)
Theorem getValidMoves_destinations (n : nat) (turn : Player) (board : Board)
    (goatsPlaced : Z) :
  NoDup (getValidMoves n turn board goatsPlaced)
  ∧ ∀ t, t ∈ getValidMoves n turn board goatsPlaced →
         board !! t = None ∧ t ≠ n ∧ (t < 24)%nat.
Proof. exact (getValidMoves_sound n turn board goatsPlaced). Qed.

(** ** What [getAllPossibleMoves] returns *)

Lemma elem_of_NODES n : n ∈ map Point_id NODES ↔ (n < 24)%nat.
Proof.
  split.
  - intros Hn.
    assert (H : forallb (λ k, k <? 24)%nat (map Point_id NODES) = true)
      by (vm_compute; reflexivity).
    rewrite forallb_forall in H. apply list_elem_of_In, H in Hn.
    by apply Nat.ltb_lt.
  - intros Hlt. apply list_elem_of_In.
    do 24 (destruct n as [|n]; [vm_compute; tauto|]). lia.
Qed.

Lemma elem_of_getAllPossibleMoves_iff (board : Board) (role : Player)
    (goatsPlaced : Z) (move : AIMove) :
  NoDup (getAllPossibleMoves board role goatsPlaced)
  ∧ (move ∈ getAllPossibleMoves board role goatsPlaced
     ↔ (role = goat ∧ goatsPlaced < GOATS_TOTAL
        ∧ from move = None ∧ (to move < 24)%nat ∧ board !! to move = None)
       ∨ (¬ (role = goat ∧ goatsPlaced < GOATS_TOTAL)
          ∧ ∃ f, from move = Some f ∧ board !! f = Some role
                 ∧ to move ∈ getValidMoves f role board goatsPlaced)).
Proof.
  split; [apply NoDup_getAllPossibleMoves|].
  unfold getAllPossibleMoves.
  destruct (bool_decide (role = goat) && (goatsPlaced <? GOATS_TOTAL)) eqn:Hc.
  - apply andb_true_iff in Hc as [Hr%bool_decide_eq_true Hlt%Z.ltb_lt].
    rewrite elem_of_flat_map. split.
    + intros (pt & Hpt & Hm). left.
      destruct (isEmpty board (Point_id pt)) eqn:He;
        [|by apply elem_of_nil in Hm].
      apply list_elem_of_singleton in Hm as ->. cbn [from to].
      repeat split; try done.
      * apply elem_of_NODES, list_elem_of_fmap. by exists pt.
      * by apply isEmpty_true.
    + intros [(_ & _ & Hf & Ht & He)|[Hn _]]; [|tauto].
      apply elem_of_NODES, list_elem_of_fmap in Ht as (pt & Hid & Hpt).
      exists pt. split; [done|].
      apply isEmpty_true in He. rewrite <- Hid, He.
      apply list_elem_of_singleton. destruct move as [f t].
      cbn [from to] in *. by subst.
  - assert (Hn : ¬ (role = goat ∧ goatsPlaced < GOATS_TOTAL)).
    { intros [Hr Hlt]. apply andb_false_iff in Hc as [Hc|Hc].
      - by apply bool_decide_eq_false in Hc.
      - apply Z.ltb_ge in Hc. lia. }
    rewrite elem_of_flat_map. split.
    + intros (f & Hf & Hm). right. split; [done|].
      apply list_elem_of_fmap in Hm as (t & -> & Ht).
      exists f. cbn [from to]. by apply elem_of_piecesOf in Hf.
    + intros [[Hr [Hlt _]]|[_ (f & Hf & Hrole & Ht)]]; [tauto|].
      exists f. split; [by apply elem_of_piecesOf|].
      apply list_elem_of_fmap. exists (to move). split; [|done].
      destruct move as [f' t]. cbn [from to] in *. by subst.
Qed.

(** X3: while goats are being placed, the moves of the goats are the
    placements on the empty nodes of the board; in every other case the
    moves of a side are the moves that [getValidMoves] gives its pieces;
    no move is listed twice. *)
Theorem getAllPossibleMoves_exact (board : Board) (role : Player)
    (goatsPlaced : Z) (move : AIMove) :
  NoDup (getAllPossibleMoves board role goatsPlaced)
  ∧ (move ∈ getAllPossibleMoves board role goatsPlaced
     ↔ (role = goat ∧ goatsPlaced < GOATS_TOTAL
        ∧ from move = None ∧ (to move < 24)%nat ∧ board !! to move = None)
       ∨ (¬ (role = goat ∧ goatsPlaced < GOATS_TOTAL)
          ∧ ∃ f, from move = Some f ∧ board !! f = Some role
                 ∧ to move ∈ getValidMoves f role board goatsPlaced)).
Proof. exact (elem_of_getAllPossibleMoves_iff board role goatsPlaced move). Qed.

(** ** What [checkWinCondition] decides *)

Lemma canTigerMove_false board (tigers : list nat) :
  existsb (λ n, (0 <? length (getValidMoves n tiger board GOATS_TOTAL))%nat)
    tigers = false
  ↔ ∀ n, n ∈ tigers → getValidMoves n tiger board GOATS_TOTAL = [].
Proof.
  split.
  - intros Hex n Hn.
    destruct (getValidMoves n tiger board GOATS_TOTAL) as [|t l] eqn:Hm;
      [done|].
    assert (existsb
              (λ n, (0 <? length (getValidMoves n tiger board GOATS_TOTAL))%nat)
              tigers = true); [|congruence].
    apply existsb_exists. exists n. split; [by apply list_elem_of_In|].
    by rewrite Hm.
  - intros Hall. apply not_true_is_false. intros Hex.
    apply existsb_exists in Hex as (n & Hn & Hlen).
    apply list_elem_of_In, Hall in Hn. by rewrite Hn in Hlen.
Qed.

(** X4: below eight captures the game is over exactly when the board
    has a tiger and no tiger has a move, and then the goats win; with a
    tiger that can move, or with no tiger, the game goes on; the side to
    move plays no part. *)
Theorem checkWinCondition_exact (board : Board) (goatsCaptured : Z)
    (turn : Player) :
  goatsCaptured < 8 →
  let blocked :=
    (∃ n, board !! n = Some tiger)
    ∧ ∀ n, board !! n = Some tiger →
           getValidMoves n tiger board GOATS_TOTAL = [] in
  (blocked → checkWinCondition board goatsCaptured turn = goatsWin)
  ∧ (¬ blocked → checkWinCondition board goatsCaptured turn = notOver)
  ∧ (∀ turn', checkWinCondition board goatsCaptured turn
               = checkWinCondition board goatsCaptured turn').
Proof.
  intros Hlt blocked. unfold checkWinCondition.
  assert (Hle : (GOATS_TO_WIN <=? goatsCaptured) = false)
    by (apply Z.leb_gt; unfold GOATS_TO_WIN; lia).
  rewrite Hle. split; [|split; [|done]].
  - intros [[n Hn] Hall].
    apply elem_of_piecesOf in Hn.
    destruct (piecesOf board tiger) as [|k tigers] eqn:Htigers;
      [by apply elem_of_nil in Hn|].
    cbn [length Nat.eqb].
    assert (Hex : existsb
              (λ n, (0 <? length (getValidMoves n tiger board GOATS_TOTAL))%nat)
              (k :: tigers) = false).
    { apply canTigerMove_false. intros j Hj. apply Hall.
      apply elem_of_piecesOf. by rewrite Htigers. }
    by rewrite Hex.
  - intros Hnot.
    destruct (piecesOf board tiger) as [|k tigers] eqn:Htigers; [done|].
    cbn [length Nat.eqb].
    destruct (existsb _ (k :: tigers)) eqn:Hex; [done|].
    exfalso. apply Hnot. split.
    + exists k. apply elem_of_piecesOf. rewrite Htigers. left.
    + intros n Hn. rewrite canTigerMove_false in Hex. apply Hex.
      rewrite <- Htigers. by apply elem_of_piecesOf.
Qed.

Lemma checkWinCondition_exact_witness :
  7 < 8
  ∧ checkWinCondition scenarioA 7 goat = notOver
  ∧ checkWinCondition scenarioA 7 goat = checkWinCondition scenarioA 7 tiger.
Proof.
  split; [lia|].
  destruct (checkWinCondition_exact scenarioA 7 goat ltac:(lia))
    as (_ & Hnot & Hturn).
  split; [|exact (Hturn tiger)].
  apply Hnot. intros [_ Hall].
  specialize (Hall 8%nat ltac:(vm_compute; reflexivity)).
  vm_compute in Hall. discriminate.
Defined.

Lemma Legacy_getValidMoves_eq : Legacy.getValidMoves = getValidMoves.
Proof. reflexivity. Qed.

(** X5: on a board with a tiger the earlier and the later definition of
    [checkWinCondition] give the same answer. *)
Theorem Legacy_checkWinCondition_same (board : Board) (goatsCaptured : Z)
    (turn : Player) (n : nat) :
  board !! n = Some tiger →
  Legacy.checkWinCondition board goatsCaptured turn
  = checkWinCondition board goatsCaptured turn.
Proof.
  intros Hn. apply elem_of_piecesOf in Hn.
  unfold Legacy.checkWinCondition, checkWinCondition.
  rewrite Legacy_getValidMoves_eq.
  destruct (GOATS_TO_WIN <=? goatsCaptured); [reflexivity|].
  destruct (piecesOf board tiger) as [|k tigers];
    [by apply elem_of_nil in Hn|].
  cbn [length Nat.eqb]. reflexivity.
Qed.

Lemma Legacy_checkWinCondition_same_witness :
  scenarioA !! 8%nat = Some tiger
  ∧ Legacy.checkWinCondition scenarioA 3 goat
    = checkWinCondition scenarioA 3 goat.
Proof.
  assert (H : scenarioA !! 8%nat = Some tiger) by (vm_compute; reflexivity).
  split; [exact H|].
  exact (Legacy_checkWinCondition_same scenarioA 3 goat 8%nat H).
Defined.

(** ** What [simulateMove] does to the board *)

Lemma jumpedNode_Some f t m :
  jumpedNode f t = Some m
  ↔ (f, m, t) ∈ JUMP_PATHS ∨ (t, m, f) ∈ JUMP_PATHS.
Proof.
  unfold jumpedNode. split.
  - destruct (List.find _ _) as [[[s m'] e]|] eqn:Hfind; [|done].
    intros [= <-]. apply find_some in Hfind as [Hin Hm].
    apply list_elem_of_In in Hin.
    apply matchesJump_true in Hm as [[-> ->]|[-> ->]]; auto.
  - intros Hin.
    assert (Hex : ∃ p, p ∈ JUMP_PATHS ∧ matchesJump f t p = true
                       ∧ p.1.2 = m).
    { destruct Hin as [Hin|Hin]; eexists; (split; [exact Hin|]);
        (split; [apply matchesJump_true; auto|done]). }
    destruct Hex as (p & Hp & Hmp & Hmid).
    destruct (List.find _ _) as [[[s m'] e]|] eqn:Hfind.
    + apply find_some in Hfind as [Hin' Hm'].
      apply list_elem_of_In in Hin'.
      pose proof (matchesJump_unique _ _ _ _ Hp Hin' Hmp Hm') as ->.
      simpl in Hmid. by subst.
    + apply list_elem_of_In in Hp.
      pose proof (find_none _ _ Hfind _ Hp). congruence.
Qed.

Lemma jumpedNode_apart f t m : jumpedNode f t = Some m → m ≠ f ∧ m ≠ t.
Proof.
  unfold jumpedNode.
  destruct (List.find _ _) as [[[s m'] e]|] eqn:Hfind; [|done].
  intros [= <-]. apply find_some in Hfind as [Hin Hm].
  apply list_elem_of_In in Hin. by eapply matchesJump_middle.
Qed.

Lemma lookup_simulateMove (board : Board) (move : AIMove) (role : Player)
    (currentCaptured : Z) (n : nat) :
  (simulateMove board move role currentCaptured).1 !! n
  = if decide (n = to move) then Some role
    else if decide (from move = Some n) then None
    else if decide (role = tiger ∧ jumpedBy move = Some n
                    ∧ board !! n = Some goat) then None
    else board !! n.
Proof.
  destruct (decide (n = to move)) as [->|Hnt];
    [apply simulateMove_destination|].
  assert (Hmoved :
            movedBoard board move role !! n
            = if decide (from move = Some n) then None else board !! n).
  { unfold movedBoard. rewrite lookup_insert_ne by done.
    destruct (from move) as [f|]; [|by rewrite decide_False].
    destruct (decide (f = n)) as [->|Hne].
    - rewrite decide_True by done. apply lookup_delete_eq.
    - rewrite decide_False by congruence. by apply lookup_delete_ne. }
  assert (Hnext :
    (simulateMove board move role currentCaptured).1
    = match role, from move with
      | tiger, Some f =>
          match jumpedNode f (to move) with
          | Some m =>
              if holds (movedBoard board move role) m goat
              then delete m (movedBoard board move role)
              else movedBoard board move role
          | None => movedBoard board move role
          end
      | _, _ => movedBoard board move role
      end).
  { unfold simulateMove, jumpedNode.
    fold (movedBoard board move role).
    destruct role; [|by destruct (from move)].
    destruct (from move) as [f|]; [|done].
    destruct (List.find _ _) as [[[s m] e]|]; [|done].
    by destruct (holds _ _ _). }
  rewrite Hnext. clear Hnext. unfold jumpedBy.
  destruct role.
  2:{ rewrite (decide_False (P:=goat = tiger ∧ _)) by (by intros [? _]).
      by destruct (from move). }
  destruct (from move) as [f|] eqn:Hf.
  2:{ rewrite (decide_False (P:=tiger = tiger ∧ _))
        by (by intros (_ & ? & _)).
      done. }
  destruct (jumpedNode f (to move)) as [m|] eqn:Hj.
  2:{ rewrite (decide_False (P:=tiger = tiger ∧ _))
        by (by intros (_ & ? & _)).
      done. }
  destruct (jumpedNode_apart _ _ _ Hj) as [Hmf Hmt].
  assert (Hm : movedBoard board move tiger !! m = board !! m).
  { unfold movedBoard. rewrite Hf, lookup_insert_ne by done.
    by rewrite lookup_delete_ne. }
  destruct (holds _ m goat) eqn:Hg.
  - apply holds_true in Hg. rewrite Hm in Hg.
    destruct (decide (n = m)) as [->|Hnm].
    + rewrite lookup_delete_eq, decide_False by congruence.
      by rewrite decide_True.
    + rewrite lookup_delete_ne, Hmoved by done.
      destruct (decide (Some f = Some n)); [done|].
      rewrite decide_False; [done|]. intros (_ & Heq & _). congruence.
  - rewrite Hmoved. destruct (decide (Some f = Some n)); [done|].
    rewrite decide_False; [done|].
    intros (_ & Heq & Hgoat). assert (m = n) as -> by congruence.
    rewrite <- Hm in Hgoat. apply holds_true in Hgoat. congruence.
Qed.

(** X6: after [simulateMove] the mover stands on the destination, the
    source is empty, a goat in the middle of the jump of a tiger is
    taken off, and every other node is as it was. *)
Theorem simulateMove_board (board : Board) (move : AIMove) (role : Player)
    (currentCaptured : Z) (n : nat) :
  (simulateMove board move role currentCaptured).1 !! n
  = if decide (n = to move) then Some role
    else if decide (from move = Some n) then None
    else if decide (role = tiger ∧ jumpedBy move = Some n
                    ∧ board !! n = Some goat) then None
    else board !! n.
Proof. exact (lookup_simulateMove board move role currentCaptured n). Qed.

(** ** Legal jumps are the capturing moves *)

Lemma isJump_iff_capture (board : Board) (goatsPlaced currentCaptured : Z)
    (move : AIMove) :
  move ∈ getAllPossibleMoves board tiger goatsPlaced →
  (isJump board move = true
   ↔ (simulateMove board move tiger currentCaptured).2 = currentCaptured + 1).
Proof.
  intros Hlegal.
  apply elem_of_getAllPossibleMoves_iff in Hlegal as [[? _]|[_ (f & Hf & _ & Ht)]];
    [done|].
  rewrite (simulateMove_captures_iff board move tiger currentCaptured).
  unfold isJump, capturingJump. rewrite Hf. rewrite bool_decide_eq_true.
  apply elem_of_getValidMoves in Ht as [Hempty Hcases]. split.
  - intros [[[s m] e] Hfind]. apply find_some in Hfind as [Hin Hm].
    apply list_elem_of_In in Hin.
    assert (Hex : existsb (matchesJump f (to move)) JUMP_PATHS = true).
    { apply existsb_exists. exists (s, m, e).
      split; [by apply list_elem_of_In|done]. }
    destruct Hcases as [Hadj|(m' & Hg & Hpath)].
    + apply adjacent_not_jump in Hadj. congruence.
    + split; [done|]. destruct Hpath as [Hp|Hp].
      * exists f, f, m', (to move). split_and!; auto.
      * exists f, (to move), m', f. split_and!; auto.
  - intros (_ & f' & s & m & e & [= <-] & Hin & Hends & _).
    destruct (List.find _ _) eqn:Hfind; [done|].
    apply list_elem_of_In in Hin.
    pose proof (find_none _ _ Hfind _ Hin) as Hno.
    apply (matchesJump_true f (to move) s m e) in Hends. congruence.
Qed.

(** X7: for a legal move of a tiger, [isJump] holds exactly when
    [simulateMove] counts one more capture: the jumps the greedy tier
    prefers and the search orders first are the captures. *)
Theorem isJump_captures (board : Board) (goatsPlaced currentCaptured : Z)
    (move : AIMove) :
  move ∈ getAllPossibleMoves board tiger goatsPlaced →
  (isJump board move = true
   ↔ (simulateMove board move tiger currentCaptured).2 = currentCaptured + 1).
Proof. exact (isJump_iff_capture board goatsPlaced currentCaptured move). Qed.

Lemma isJump_captures_witness :
  mkMove (Some 8%nat) 18%nat ∈ getAllPossibleMoves scenarioA tiger 18
  ∧ (isJump scenarioA (mkMove (Some 8%nat) 18%nat) = true
     ↔ (simulateMove scenarioA (mkMove (Some 8%nat) 18%nat) tiger 0).2 = 0 + 1).
Proof.
  assert (H : mkMove (Some 8%nat) 18%nat ∈ getAllPossibleMoves scenarioA tiger 18).
  { apply list_elem_of_In. vm_compute. tauto. }
  split; [exact H|].
  exact (isJump_captures scenarioA 18 0 (mkMove (Some 8%nat) 18%nat) H).
Defined.

(** ** Counting through a legal move *)

Lemma length_piecesOf_insert_same (board : Board) n role :
  board !! n = None →
  length (piecesOf (<[n:=role]> board) role) = S (length (piecesOf board role)).
Proof.
  intros Hn. rewrite !length_piecesOf.
  rewrite map_filter_insert_True by done.
  apply map_size_insert_None, map_lookup_filter_None. by left.
Qed.

Lemma length_piecesOf_delete_same (board : Board) n role :
  board !! n = Some role →
  S (length (piecesOf (delete n board) role)) = length (piecesOf board role).
Proof.
  intros Hn. rewrite !length_piecesOf, map_filter_delete.
  assert (Hf : filter (isRole role) board !! n = Some role)
    by (by apply map_lookup_filter_Some).
  rewrite map_size_delete_Some by eauto.
  assert (size (filter (isRole role) board) ≠ 0%nat)
    by (eapply map_size_ne_0_lookup_2; eauto).
  lia.
Qed.

(** A legal move keeps the balance of the goats: those on the board
    plus those captured minus those placed. *)
Lemma simulateMove_goats board role goatsPlaced currentCaptured move :
  move ∈ getAllPossibleMoves board role goatsPlaced →
  Z.of_nat (length (piecesOf (simulateMove board move role currentCaptured).1 goat))
  + (simulateMove board move role currentCaptured).2
  - placedAfter goatsPlaced role move
  = Z.of_nat (length (piecesOf board goat)) + currentCaptured - goatsPlaced.
Proof.
  intros Hlegal.
  apply elem_of_getAllPossibleMoves in Hlegal
    as [(-> & Hfrom & Hto)|(f & Hfrom & Hf & _ & Hto)].
  - unfold simulateMove, placedAfter. rewrite Hfrom.
    rewrite (bool_decide_eq_true_2 (goat = goat)) by done.
    rewrite (bool_decide_eq_true_2 (None = None)) by done.
    cbn [andb fst snd]. rewrite length_piecesOf_insert_same by done. lia.
  - assert (Hft : to move ≠ f) by (intros Heq; rewrite Heq in Hto; congruence).
    unfold simulateMove, placedAfter. rewrite Hfrom.
    rewrite (bool_decide_eq_false_2 (Some f = None)) by done.
    rewrite andb_false_r.
    destruct role.
    + set (moved := <[to move:=tiger]> (delete f board)).
      assert (Hmoved : length (piecesOf moved goat)
                       = length (piecesOf board goat)).
      { unfold moved. rewrite length_piecesOf_insert_other; [| |done].
        - by apply (length_piecesOf_delete_other board f goat tiger).
        - by rewrite lookup_delete_ne. }
      destruct (List.find _ _) as [[[s m] e]|]; [|cbn [fst snd]; lia].
      destruct (holds moved m goat) eqn:Hg; [|cbn [fst snd]; lia].
      cbn [fst snd]. apply holds_true in Hg.
      pose proof (length_piecesOf_delete_same moved m goat Hg). lia.
    + cbn [fst snd]. rewrite length_piecesOf_move by done. lia.
Qed.

(** The occupied nodes are the tigers and the goats. *)
Lemma length_Object_keys (board : Board) :
  length (Object_keys board)
  = (length (piecesOf board tiger) + length (piecesOf board goat))%nat.
Proof.
  unfold piecesOf.
  assert (Hgen : ∀ l : list nat, (∀ n, n ∈ l → is_Some (board !! n)) →
    length l = (length (filter (λ n, holds board n tiger = true) l)
                + length (filter (λ n, holds board n goat = true) l))%nat).
  { induction l as [|n l IH]; intros Hl; [done|].
    rewrite !filter_cons. cbn [length].
    rewrite IH by (intros k Hk; apply Hl; by right).
    destruct (Hl n ltac:(left)) as [p Hp]. unfold holds. destruct p.
    - rewrite decide_True, decide_False;
        rewrite ?bool_decide_eq_true; [simpl; lia|congruence|congruence].
    - rewrite decide_False, decide_True;
        rewrite ?bool_decide_eq_true; [simpl; lia|congruence|congruence]. }
  apply Hgen. intros n. apply elem_of_Object_keys.
Qed.

(** A board with fewer than 24 pieces, all of them on nodes of the
    board, has an empty node. *)
Lemma empty_node_exists (board : Board) :
  (∀ n, is_Some (board !! n) → (n < 24)%nat) →
  (length (Object_keys board) < 24)%nat →
  ∃ n, (n < 24)%nat ∧ board !! n = None.
Proof.
  intros Hin Hlen.
  destruct (decide (Forall (λ n, is_Some (board !! n)) (seq 0 24)))
    as [Hall|Hnot].
  - exfalso.
    assert (Hsub : seq 0 24 ⊆+ Object_keys board).
    { apply NoDup_submseteq; [apply NoDup_seq|].
      intros n Hn. apply elem_of_Object_keys.
      rewrite Forall_forall in Hall. by apply Hall. }
    apply submseteq_length in Hsub. rewrite length_seq in Hsub. lia.
  - apply not_Forall_Exists in Hnot; [|apply _].
    apply Exists_exists in Hnot as (n & Hn & Hnone).
    exists n. split; [apply elem_of_seq in Hn; lia|].
    destruct (board !! n) eqn:Hb; [|done]. exfalso. apply Hnone. eauto.
Qed.

Lemma reachable_balance (s : GameState.t) :
  reachable s →
  Z.of_nat (length (piecesOf (GameState.board s) goat))
  = GameState.goatsPlaced s - GameState.goatsCaptured s
  ∧ 0 <= GameState.goatsCaptured s
  ∧ GameState.goatsPlaced s <= GOATS_TOTAL
  ∧ (∀ n, is_Some (GameState.board s !! n) → (n < 24)%nat)
  ∧ ∃ n, (n < 24)%nat ∧ GameState.board s !! n = None.
Proof.
  intros Hreach.
  assert (Hinv :
    Z.of_nat (length (piecesOf (GameState.board s) goat))
    = GameState.goatsPlaced s - GameState.goatsCaptured s
    ∧ 0 <= GameState.goatsCaptured s
    ∧ GameState.goatsPlaced s <= GOATS_TOTAL
    ∧ (∀ n, is_Some (GameState.board s !! n) → (n < 24)%nat)).
  { induction Hreach as [|s move Hreach IH Hlegal].
    - split; [vm_compute; reflexivity|]. split; [done|]. split; [done|].
      intros n [p Hn]. unfold initialState in Hn.
      cbn [GameState.board] in Hn. unfold INITIAL_BOARD in Hn.
      apply elem_of_list_to_map_2 in Hn.
      apply list_elem_of_In in Hn. cbn [In] in Hn.
      repeat (destruct Hn as [Hn|Hn]; [injection Hn as <- _; lia|]). done.
    - destruct IH as (Hgoats & Hcap & Hplaced & Htopo).
      unfold legalMove in Hlegal.
      pose proof (simulateMove_goats _ _ _ (GameState.goatsCaptured s) _ Hlegal)
        as Hbal.
      pose proof (simulateMove_captured_le (GameState.board s) move
                    (GameState.turn s) (GameState.goatsCaptured s))
        as Hmono.
      pose proof (λ n, lookup_simulateMove (GameState.board s) move
                    (GameState.turn s) (GameState.goatsCaptured s) n)
        as Hboard.
      apply (proj2 (elem_of_getAllPossibleMoves_iff (GameState.board s)
               (GameState.turn s) (GameState.goatsPlaced s) move)) in Hlegal.
      unfold playMove.
      destruct (simulateMove _ _ _ _) as [nextBoard nextCaptured].
      cbn [fst snd GameState.board GameState.goatsPlaced
             GameState.goatsCaptured] in *.
      split; [lia|]. split; [lia|]. split.
      + unfold placedAfter.
        destruct Hlegal as [(-> & Hlt & Hf & _)|[Hn (f & Hf & _)]].
        * rewrite Hf.
          rewrite (bool_decide_eq_true_2 (goat = goat)) by done.
          rewrite (bool_decide_eq_true_2 (None = None)) by done.
          cbn [andb]. unfold GOATS_TOTAL in *. lia.
        * rewrite Hf. rewrite (bool_decide_eq_false_2 (Some f = None)) by done.
          rewrite andb_false_r. lia.
      + intros n [p Hn]. rewrite Hboard in Hn.
        destruct (decide (n = to move)) as [->|_].
        * destruct Hlegal as [(_ & _ & _ & Hlt & _)|[_ (f & _ & _ & Ht)]];
            [done|].
          by apply getValidMoves_sound in Ht as (_ & _ & ?).
        * repeat case_decide; try done; apply Htopo; eauto. }
  destruct Hinv as (Hgoats & Hcap & Hplaced & Htopo).
  split; [done|]. split; [done|]. split; [done|]. split; [done|].
  apply empty_node_exists; [done|].
  rewrite length_Object_keys.
  rewrite (reachable_tigers s Hreach).
  unfold GOATS_TOTAL in *. lia.
Qed.

(** X8: in every state reached from the initial position by legal
    moves, the goats on the board are the goats placed less the goats
    captured, no more than 18 goats have been placed, the captures are
    none or more, every piece stands on one of the 24 nodes, and some
    node is empty. *)
Theorem reachable_counts (s : GameState.t) :
  reachable s →
  Z.of_nat (length (piecesOf (GameState.board s) goat))
  = GameState.goatsPlaced s - GameState.goatsCaptured s
  ∧ 0 <= GameState.goatsCaptured s
  ∧ GameState.goatsPlaced s <= GOATS_TOTAL
  ∧ (∀ n, is_Some (GameState.board s !! n) → (n < 24)%nat)
  ∧ ∃ n, (n < 24)%nat ∧ GameState.board s !! n = None.
Proof. exact (reachable_balance s). Qed.

Lemma reachable_counts_witness :
  reachable (playMove initialState (mkMove None 1%nat))
  ∧ Z.of_nat (length (piecesOf
       (GameState.board (playMove initialState (mkMove None 1%nat))) goat))
    = GameState.goatsPlaced (playMove initialState (mkMove None 1%nat))
      - GameState.goatsCaptured (playMove initialState (mkMove None 1%nat)).
Proof.
  assert (Hreach : reachable (playMove initialState (mkMove None 1%nat))).
  { apply reachable_step; [apply reachable_initial|].
    unfold legalMove. apply list_elem_of_In. vm_compute. tauto. }
  split; [exact Hreach|].
  exact (proj1 (reachable_counts _ Hreach)).
Defined.

(** ** The order of the candidates *)

Lemma centerScore_range n : 0 <= centerScore n <= 2.
Proof. unfold centerScore. repeat case_match; lia. Qed.

Lemma compareMoves_rank board role a b :
  compareMoves board role a b <= 0
  ↔ moveRank board role a <= moveRank board role b.
Proof.
  unfold compareMoves, moveRank.
  pose proof (centerScore_range (to a)). pose proof (centerScore_range (to b)).
  destruct (bool_decide (role = tiger)); cbn [andb];
    [|lia].
  destruct (isJump board a), (isJump board b); cbn [andb negb]; lia.
Qed.

Lemma insertBy_sorted board role m l :
  Sorted (λ a b, moveRank board role a <= moveRank board role b) l →
  Sorted (λ a b, moveRank board role a <= moveRank board role b)
    (insertBy (compareMoves board role) m l).
Proof.
  induction l as [|m' l IH]; intros Hs; cbn [insertBy].
  - by repeat constructor.
  - destruct (compareMoves board role m m' <=? 0) eqn:Hc.
    + apply Z.leb_le in Hc. apply compareMoves_rank in Hc.
      constructor; [done|]. by constructor.
    + apply Z.leb_gt in Hc.
      assert (Hlt : moveRank board role m' <= moveRank board role m).
      { destruct (Z.le_gt_cases (moveRank board role m) (moveRank board role m'))
          as [Hle|Hgt]; [|lia].
        apply compareMoves_rank in Hle. lia. }
      apply Sorted_inv in Hs as [Hs Hhd]. constructor; [by apply IH|].
      destruct l as [|m'' l]; cbn [insertBy].
      * by constructor.
      * destruct (compareMoves board role m m'' <=? 0);
          constructor; [done|]. by apply HdRel_inv in Hhd.
Qed.

Lemma StronglySorted_weaken {A} (R R' : A → A → Prop) (l : list A) :
  (∀ a b, R a b → R' a b) → StronglySorted R l → StronglySorted R' l.
Proof.
  intros Himp. induction 1 as [|a l Hl IH Hall]; constructor; [done|].
  eapply Forall_impl; [exact Hall|]. intros b. apply Himp.
Qed.

Lemma StronglySorted_lookup_lt {A} (R : A → A → Prop) (l : list A) i j a b :
  StronglySorted R l → (i < j)%nat → l !! i = Some a → l !! j = Some b →
  R a b.
Proof.
  intros Hs. revert i j. induction Hs as [|c l Hl IH Hall]; intros i j Hij Ha Hb;
    [done|].
  destruct j as [|j]; [lia|]. cbn in Hb.
  destruct i as [|i].
  - injection Ha as ->. rewrite Forall_forall in Hall. apply Hall.
    by eapply list_elem_of_lookup_2.
  - cbn in Ha. apply (IH i j); [lia|done|done].
Qed.

(** X9: [sortMovesForPruning] keeps the moves, each as often as it was,
    and puts them in the order of the comparator: no move comes before
    a move the comparator places strictly first, so for a tiger every
    jump precedes every move that is not a jump. *)
Theorem sortMovesForPruning_sorted (moves : list AIMove) (board : Board)
    (role : Player) :
  sortMovesForPruning moves board role ≡ₚ moves
  ∧ StronglySorted (λ a b, compareMoves board role a b <= 0)
      (sortMovesForPruning moves board role)
  ∧ ∀ i j a b,
      sortMovesForPruning moves board tiger !! i = Some a →
      sortMovesForPruning moves board tiger !! j = Some b →
      isJump board a = false → isJump board b = true → (j < i)%nat.
Proof.
  split; [apply sortMovesForPruning_Permutation|].
  assert (Hsorted : ∀ role,
    StronglySorted (λ a b, moveRank board role a <= moveRank board role b)
      (sortMovesForPruning moves board role)).
  { intros r. apply Sorted_StronglySorted; [intros a b c; lia|].
    unfold sortMovesForPruning. induction moves as [|m moves IH];
      cbn [foldr]; [constructor|]. by apply insertBy_sorted. }
  split.
  - eapply StronglySorted_weaken; [|apply Hsorted].
    intros a b Hab. by apply compareMoves_rank.
  - intros i j a b Ha Hb Hja Hjb.
    destruct (Nat.lt_ge_cases j i) as [?|Hij]; [done|]. exfalso.
    destruct (decide (i = j)) as [->|Hne]; [congruence|].
    assert (Hlt : (i < j)%nat) by lia.
    pose proof (StronglySorted_lookup_lt _ _ i j a b (Hsorted tiger) Hlt Ha Hb)
      as Hrank.
    unfold moveRank in Hrank. rewrite Hja, Hjb in Hrank.
    rewrite (bool_decide_eq_true_2 (tiger = tiger)) in Hrank by done.
    cbn [andb negb] in Hrank.
    pose proof (centerScore_range (to a)).
    pose proof (centerScore_range (to b)). lia.
Qed.

(** ** The evaluation function from the tigers' side *)

Lemma coordinationFrom_pairs tigers coordination :
  coordinationFrom tigers coordination = coordination + adjacentPairs tigers.
Proof.
  revert coordination. induction tigers as [|t rest IH]; intros coordination;
    cbn [coordinationFrom adjacentPairs]; [lia|].
  rewrite IH, (fold_left_count (includes (adjacent t)) 1).
  assert (Hlen :
    length (filter (λ a, includes (adjacent t) a = true) rest)
    = length (filter (λ b, b ∈ adjacent t) rest)).
  { f_equal. apply list_filter_iff. intros n. unfold includes.
    apply bool_decide_eq_true. }
  rewrite Hlen. lia.
Qed.

(** X10: from the tigers' side the evaluator returns 2000 per capture,
    5000 more from the seventh capture on, 500 per jump open to a
    tiger, -1500 per tiger without a move, 30 per move of a tiger and 60
    per pair of tigers on adjacent nodes, each pair counted once. *)
Theorem evaluatePosition_tiger (board : Board) (goatsCaptured goatsPlaced : Z) :
  evaluatePosition board tiger goatsCaptured goatsPlaced
  = goatsCaptured * 2000
    + (if 7 <=? goatsCaptured then 5000 else 0)
    + captureOpportunitiesCount board * 500
    - trappedCount board goatsPlaced * 1500
    + totalMobility board goatsPlaced * 30
    + adjacentPairs (piecesOf board tiger) * 60.
Proof.
  unfold evaluatePosition.
  rewrite (bool_decide_eq_true_2 (tiger = tiger)) by done.
  cbv zeta. rewrite fold_left_tigerStep, coordinationFrom_pairs.
  cbn [tigerMobility trappedTigers captureOpportunities].
  unfold trappedCount, totalMobility, captureOpportunitiesCount.
  destruct (7 <=? goatsCaptured); lia.
Qed.

(** ** The placement heuristic on any board *)

(** The first candidate takes the lead and a leader is always one of
    the candidates seen. *)
Lemma placement_loop_member board rnd (nodes : list nat) st :
  (st.1.1 = -1 ∧ st.1.2 = None ∧ nodes = [] 
   → (fold_left (placementStep board rnd) nodes st).1.1 = -1)
  ∧ ((st.1.2 = None ∧ nodes ≠ []) ∨ (∃ n, st.1.1 = Z.of_nat n ∧ is_Some (st.1.2))
     → ∃ n, (fold_left (placementStep board rnd) nodes st).1.1 = Z.of_nat n
            ∧ is_Some (fold_left (placementStep board rnd) nodes st).1.2
            ∧ (n ∈ nodes ∨ st.1.1 = Z.of_nat n)).
Proof.
  split; [by intros (? & _ & ->)|].
  revert st. induction nodes as [|k nodes IH]; intros st Hst.
  - destruct Hst as [[_ ?]|(n & Hn & Hs)]; [done|]. exists n. auto.
  - cbn [fold_left].
    destruct (IH (placementStep board rnd st k)) as (n & Hn & Hs & Hin).
    + right. destruct st as [[bestNode maxScore] calls]. unfold placementStep.
      destruct (exceeds _ _) eqn:Hex; cbn [fst snd].
      * exists k. eauto.
      * destruct Hst as [[Hnone _]|(n & Hn & Hs)].
        -- cbn [fst snd] in Hnone. subst. done.
        -- exists n. eauto.
    + exists n. split; [done|]. split; [done|].
      destruct Hin as [Hin|Hin]; [left; by right|].
      destruct st as [[bestNode maxScore] calls]. unfold placementStep in Hin.
      destruct (exceeds _ _); cbn [fst snd] in *.
      * left. apply Nat2Z.inj in Hin as ->. left.
      * by right.
Qed.

Lemma placement_answer (board : Board) (rnd : nat → Q) :
  ((∀ n, (n < 24)%nat → is_Some (board !! n))
   → getBestPlacementGoat board rnd = -1)
  ∧ ((∃ n, (n < 24)%nat ∧ board !! n = None)
     → ∃ node, getBestPlacementGoat board rnd = Z.of_nat node
               ∧ (node < 24)%nat ∧ board !! node = None).
Proof.
  unfold getBestPlacementGoat.
  set (emptyNodes := map Point_id (filter _ NODES)).
  assert (Hin : ∀ m, m ∈ emptyNodes ↔ (m < 24)%nat ∧ board !! m = None).
  { intros m. rewrite <- elem_of_NODES.
    unfold emptyNodes. rewrite !list_elem_of_fmap. split.
    - intros (pt & -> & [He Hpt]%list_elem_of_filter).
      split; [by exists pt|]. by apply isEmpty_true.
    - intros [(pt & -> & Hpt) He]. exists pt. split; [done|].
      apply list_elem_of_filter. split; [|done]. by apply isEmpty_true. }
  split.
  - intros Hfull.
    destruct emptyNodes as [|k l] eqn:He; [done|].
    assert (Hk : k ∈ k :: l) by left.
    apply Hin in Hk as [Hlt Hnone]. apply Hfull in Hlt as [? ?]. congruence.
  - intros (n & Hlt & Hnone).
    destruct (proj2 (placement_loop_member board rnd emptyNodes (-1, None, 0%nat)))
      as (node & Hnode & _ & [Hmem|Hinit]).
    + left. split; [done|]. intros Hnil.
      assert (Hn : n ∈ emptyNodes) by (by apply Hin).
      rewrite Hnil in Hn. by apply elem_of_nil in Hn.
    + exists node. split; [done|]. by apply Hin.
    + cbn [fst] in Hinit. lia.
Qed.

(** X11: whatever the random values, the placement heuristic answers
    -1 exactly when none of the 24 nodes is empty, and an empty node of
    the board in every other case. *)
Theorem getBestPlacementGoat_empty_node (board : Board) (rnd : nat → Q) :
  ((∀ n, (n < 24)%nat → is_Some (board !! n))
   → getBestPlacementGoat board rnd = -1)
  ∧ ((∃ n, (n < 24)%nat ∧ board !! n = None)
     → ∃ node, getBestPlacementGoat board rnd = Z.of_nat node
               ∧ (node < 24)%nat ∧ board !! node = None).
Proof. exact (placement_answer board rnd). Qed.

(** X12: when the random values are below 10 and some empty node is
    not the middle of a jump path with a tiger at one end and the other
    end empty, the placement heuristic answers such a node: it never
    hands the tigers a capture that could be avoided. *)
Theorem getBestPlacementGoat_avoids_capture (board : Board) (rnd : nat → Q)
    (n : nat) :
  (∀ k, (0 <= rnd k)%Q ∧ (rnd k < 10)%Q) →
  (n < 24)%nat → board !! n = None → immediateDanger board n = false →
  ∃ node,
    getBestPlacementGoat board rnd = Z.of_nat node
    ∧ board !! node = None ∧ ¬ handsCapture board node.
Proof.
  intros Hrnd Hlt Hempty Hsafe.
  apply getBestPlacementGoat_safe; [done|].
  exists n. split; [by apply elem_of_NODES|done].
Qed.

Lemma getBestPlacementGoat_avoids_capture_witness :
  (∀ k, (0 <= cycleRnd k)%Q ∧ (cycleRnd k < 10)%Q)
  ∧ (5 < 24)%nat ∧ scenarioA !! 5%nat = None
  ∧ immediateDanger scenarioA 5 = false
  ∧ ∃ node,
      getBestPlacementGoat scenarioA cycleRnd = Z.of_nat node
      ∧ scenarioA !! node = None ∧ ¬ handsCapture scenarioA node.
Proof.
  assert (Hb : ∀ k, (0 <= cycleRnd k)%Q ∧ (cycleRnd k < 10)%Q)
    by exact cycleRnd_bounded.
  assert (H1 : (5 < 24)%nat) by lia.
  assert (H2 : scenarioA !! 5%nat = None) by (vm_compute; reflexivity).
  assert (H3 : immediateDanger scenarioA 5 = false) by (vm_compute; reflexivity).
  split; [exact Hb|]. split; [exact H1|]. split; [exact H2|].
  split; [exact H3|].
  exact (getBestPlacementGoat_avoids_capture scenarioA cycleRnd 5 Hb H1 H2 H3).
Defined.

(** ** The three tiers *)

Lemma randomIndex_lt (r : Q) (n : nat) :
  (0 <= r)%Q → (r < 1)%Q → (0 < n)%nat → (randomIndex r n < n)%nat.
Proof.
  intros H0 H1 Hn. unfold randomIndex.
  set (x := (r * inject_Z (Z.of_nat n))%Q).
  assert (Hpos : (0 < inject_Z (Z.of_nat n))%Q).
  { change 0%Q with (inject_Z 0). rewrite <- Zlt_Qlt. lia. }
  assert (Hx0 : (0 <= x)%Q) by (unfold x; nra).
  assert (Hx1 : (x < inject_Z (Z.of_nat n))%Q) by (unfold x; nra).
  assert (Hf0 : 0 <= Qfloor x).
  { change 0 with (Qfloor 0). by apply Qfloor_resp_le. }
  assert (Hf1 : Qfloor x < Z.of_nat n).
  { rewrite Zlt_Qlt. eapply Qle_lt_trans; [apply Qfloor_le|done]. }
  lia.
Qed.

Lemma lookup_randomIndex {A} (l : list A) (r : Q) :
  (0 <= r)%Q → (r < 1)%Q → l ≠ [] →
  ∃ a, l !! randomIndex r (length l) = Some a ∧ a ∈ l.
Proof.
  intros H0 H1 Hne.
  assert (Hlen : (0 < length l)%nat) by (destruct l; [done|simpl; lia]).
  pose proof (randomIndex_lt r (length l) H0 H1 Hlen) as Hlt.
  apply lookup_lt_is_Some in Hlt as [a Ha].
  exists a. split; [done|]. by eapply list_elem_of_lookup_2.
Qed.

Lemma randomMove_member (board : Board) (role : Player) (goatsPlaced : Z)
    (r : Q) :
  (0 <= r)%Q → (r < 1)%Q →
  (getRandomMove board role goatsPlaced r = None
   ↔ getAllPossibleMoves board role goatsPlaced = [])
  ∧ ∀ move, getRandomMove board role goatsPlaced r = Some move →
            move ∈ getAllPossibleMoves board role goatsPlaced.
Proof.
  intros H0 H1. unfold getRandomMove.
  destruct (getAllPossibleMoves board role goatsPlaced) as [|m l] eqn:Hmoves.
  - split; [done|]. intros move. cbn. done.
  - cbn [length Nat.eqb].
    destruct (lookup_randomIndex (m :: l) r H0 H1 ltac:(done)) as (a & Ha & Hin).
    cbn [length] in Ha. rewrite Ha. split; [done|]. intros move [= <-]. done.
Qed.

(** X13: the easy tier answers no move exactly when the side has no
    legal move, and a legal move of the side in every other case. *)
Theorem getRandomMove_legal (board : Board) (role : Player) (goatsPlaced : Z)
    (r : Q) :
  (0 <= r)%Q → (r < 1)%Q →
  (getRandomMove board role goatsPlaced r = None
   ↔ getAllPossibleMoves board role goatsPlaced = [])
  ∧ ∀ move, getRandomMove board role goatsPlaced r = Some move →
            move ∈ getAllPossibleMoves board role goatsPlaced.
Proof. exact (randomMove_member board role goatsPlaced r). Qed.

Lemma getRandomMove_legal_witness :
  (0 <= 1 # 2)%Q ∧ (1 # 2 < 1)%Q
  ∧ ∀ move, getRandomMove scenarioA tiger 18 (1 # 2) = Some move →
            move ∈ getAllPossibleMoves scenarioA tiger 18.
Proof.
  assert (H0 : (0 <= 1 # 2)%Q) by (vm_compute; discriminate).
  assert (H1 : (1 # 2 < 1)%Q) by (vm_compute; reflexivity).
  split; [exact H0|]. split; [exact H1|].
  exact (proj2 (getRandomMove_legal scenarioA tiger 18 (1 # 2) H0 H1)).
Defined.

Lemma greedyMove_member (board : Board) (role : Player) (goatsPlaced : Z)
    (r : Q) :
  (0 <= r)%Q → (r < 1)%Q →
  (getGreedyMove board role goatsPlaced r = None
   ↔ getAllPossibleMoves board role goatsPlaced = [])
  ∧ (∀ move, getGreedyMove board role goatsPlaced r = Some move →
             move ∈ getAllPossibleMoves board role goatsPlaced)
  ∧ (role = tiger →
     (∃ jump, jump ∈ getAllPossibleMoves board tiger goatsPlaced
              ∧ isJump board jump = true) →
     ∃ move, getGreedyMove board role goatsPlaced r = Some move
             ∧ isJump board move = true
             ∧ ∀ currentCaptured,
                 (simulateMove board move tiger currentCaptured).2
                 = currentCaptured + 1).
Proof.
  intros H0 H1. unfold getGreedyMove.
  destruct (getAllPossibleMoves board role goatsPlaced) as [|m l] eqn:Hmoves.
  - split; [done|]. split; [by intros move; cbn|].
    intros -> (jump & Hj & _). rewrite Hmoves in Hj. by apply elem_of_nil in Hj.
  - cbn [length Nat.eqb].
    set (jumps := filter (λ m, isJump board m = true) (m :: l)).
    assert (Hjumps : ∀ a, a ∈ jumps ↔ isJump board a = true ∧ a ∈ m :: l)
      by (intros a; unfold jumps; by rewrite list_elem_of_filter).
    destruct (bool_decide (role = tiger) && (0 <? length jumps)%nat) eqn:Hc.
    + apply andb_true_iff in Hc as [Hr%bool_decide_eq_true Hlen%Nat.ltb_lt].
      destruct (lookup_randomIndex jumps r H0 H1) as (a & Ha & Hin).
      { intros Hnil. rewrite Hnil in Hlen. simpl in Hlen. lia. }
      rewrite Ha. apply Hjumps in Hin as [Hjump Hin].
      split; [done|]. split; [by intros move [= <-]|].
      intros _ _. exists a. split; [done|]. split; [done|].
      intros c. subst role. rewrite <- Hmoves in Hin.
      by apply (isJump_iff_capture board goatsPlaced c a Hin).
    + destruct (lookup_randomIndex (m :: l) r H0 H1 ltac:(done))
        as (a & Ha & Hin).
      cbn [length] in Ha. rewrite Ha.
      split; [done|]. split; [by intros move [= <-]|].
      intros Hr (jump & Hj & Hjump). exfalso.
      apply andb_false_iff in Hc as [Hc|Hc].
      * by apply bool_decide_eq_false in Hc.
      * apply Nat.ltb_ge in Hc.
        assert (Hin' : jump ∈ jumps).
        { apply Hjumps. split; [done|]. subst role. by rewrite <- Hmoves. }
        destruct jumps; [by apply elem_of_nil in Hin'|simpl in Hc; lia].
Qed.

(** X14: the medium tier answers no move exactly when the side has no
    legal move and a legal move otherwise; for the tigers, when some
    legal move is a jump, the answer is a jump, and it captures a goat. *)
Theorem getGreedyMove_legal (board : Board) (role : Player) (goatsPlaced : Z)
    (r : Q) :
  (0 <= r)%Q → (r < 1)%Q →
  (getGreedyMove board role goatsPlaced r = None
   ↔ getAllPossibleMoves board role goatsPlaced = [])
  ∧ (∀ move, getGreedyMove board role goatsPlaced r = Some move →
             move ∈ getAllPossibleMoves board role goatsPlaced)
  ∧ (role = tiger →
     (∃ jump, jump ∈ getAllPossibleMoves board tiger goatsPlaced
              ∧ isJump board jump = true) →
     ∃ move, getGreedyMove board role goatsPlaced r = Some move
             ∧ isJump board move = true
             ∧ ∀ currentCaptured,
                 (simulateMove board move tiger currentCaptured).2
                 = currentCaptured + 1).
Proof. exact (greedyMove_member board role goatsPlaced r). Qed.

Lemma getGreedyMove_legal_witness :
  (0 <= 1 # 2)%Q ∧ (1 # 2 < 1)%Q
  ∧ ∃ move, getGreedyMove scenarioA tiger 18 (1 # 2) = Some move
            ∧ isJump scenarioA move = true.
Proof.
  assert (H0 : (0 <= 1 # 2)%Q) by (vm_compute; discriminate).
  assert (H1 : (1 # 2 < 1)%Q) by (vm_compute; reflexivity).
  split; [exact H0|]. split; [exact H1|].
  destruct (proj2 (proj2 (getGreedyMove_legal scenarioA tiger 18 (1 # 2) H0 H1))
              eq_refl) as (move & Hm & Hj & _).
  - exists (mkMove (Some 8%nat) 18%nat). split; [|vm_compute; reflexivity].
    apply list_elem_of_In. vm_compute. tauto.
  - exists move. split; [exact Hm|exact Hj].
Defined.

(** ** The root of the search *)

Section Root.

Variable board : Board.
Variable role : Player.
Variable goatsPlaced goatsCaptured : Z.
Variable depth : nat.

Let score := rootScore board role goatsPlaced goatsCaptured depth.
Let wins := winsAtOnce board role goatsCaptured.
Let loop := rootLoop board role goatsPlaced goatsCaptured depth.

Lemma rootLoop_cons move rest bestScore bestMoves :
  loop (move :: rest) bestScore bestMoves
  = if wins move then inl move
    else match bestScore with
         | None => loop rest (Some (score move)) [move]
         | Some best =>
             if best <? score move then loop rest (Some (score move)) [move]
             else if score move =? best
                  then loop rest bestScore (bestMoves ++ [move])
                  else loop rest bestScore bestMoves
         end.
Proof.
  unfold loop, wins, score, winsAtOnce, rootScore. cbn [rootLoop].
  by destruct (simulateMove board move role goatsCaptured).
Qed.

Lemma rootLoop_spec moves seen bestScore bestMoves :
  bestSoFar score seen bestScore bestMoves →
  match loop moves bestScore bestMoves with
  | inl move =>
      ∃ before after, moves = before ++ move :: after
                      ∧ wins move = true
                      ∧ ∀ m, m ∈ before → wins m = false
  | inr best =>
      (∀ m, m ∈ moves → wins m = false)
      ∧ ∃ final, bestSoFar score (seen ++ moves) final best
  end.
Proof.
  revert seen bestScore bestMoves.
  induction moves as [|move rest IH]; intros seen bestScore bestMoves Hinv.
  - cbn. split; [by intros m ?%elem_of_nil|].
    exists bestScore. by rewrite app_nil_r.
  - rewrite rootLoop_cons. destruct (wins move) eqn:Hw.
    { exists [], rest. split; [done|]. split; [done|].
      by intros m ?%elem_of_nil. }
    assert (Hstep : ∀ bs bm, bestSoFar score (seen ++ [move]) bs bm →
      match loop rest bs bm with
      | inl mv =>
          ∃ before after, move :: rest = before ++ mv :: after
                          ∧ wins mv = true
                          ∧ ∀ m, m ∈ before → wins m = false
      | inr best =>
          (∀ m, m ∈ move :: rest → wins m = false)
          ∧ ∃ final, bestSoFar score (seen ++ move :: rest) final best
      end).
    { intros bs bm Hbs. specialize (IH _ _ _ Hbs).
      destruct (loop rest bs bm) as [mv|best].
      - destruct IH as (before & after & -> & Hwin & Hbefore).
        exists (move :: before), after. split; [done|]. split; [done|].
        intros m [Hm|Hm]%elem_of_cons; [by subst m|auto].
      - destruct IH as [Hno (final & Hfinal)]. split.
        + intros m [Hm|Hm]%elem_of_cons; [by subst m|auto].
        + exists final. by rewrite <- app_assoc in Hfinal. }
    destruct bestScore as [best|]; cbn in Hinv.
    + destruct Hinv as (Hne & Hbest & Hmax).
      destruct (best <? score move) eqn:Hlt;
        [|destruct (score move =? best) eqn:Heq].
      * apply Z.ltb_lt in Hlt. apply Hstep. cbn. split; [done|]. split.
        -- intros m ->%list_elem_of_singleton. split; [|done].
           apply elem_of_app. right. left.
        -- intros m [Hm|Hm%list_elem_of_singleton]%elem_of_app;
             [|subst m; lia].
           apply Hmax in Hm. lia.
      * apply Z.eqb_eq in Heq. apply Hstep. cbn. split.
        { intros Hnil. by apply app_eq_nil in Hnil as [_ ?]. }
        split.
        -- intros m [Hm|Hm%list_elem_of_singleton]%elem_of_app.
           ++ apply Hbest in Hm as [? ?]. split; [|done].
              apply elem_of_app. by left.
           ++ subst m. split; [|done]. apply elem_of_app. right. left.
        -- intros m [Hm|Hm%list_elem_of_singleton]%elem_of_app;
             [auto|subst m; lia].
      * apply Z.ltb_ge in Hlt. apply Z.eqb_neq in Heq.
        apply Hstep. cbn. split; [done|]. split.
        -- intros m Hm. apply Hbest in Hm as [? ?]. split; [|done].
           apply elem_of_app. by left.
        -- intros m [Hm|Hm%list_elem_of_singleton]%elem_of_app;
             [auto|subst m; lia].
    + destruct Hinv as [-> ->]. apply Hstep. cbn. split; [done|]. split.
      * intros m ->%list_elem_of_singleton. split; [left|done].
      * intros m ->%list_elem_of_singleton. lia.
Qed.

End Root.

Lemma minimaxMove_member (board : Board) (role : Player)
    (goatsPlaced goatsCaptured : Z) (depth : nat) (r : Q) :
  (0 <= r)%Q → (r < 1)%Q →
  let moves := getAllPossibleMoves board role goatsPlaced in
  let answer :=
    getMinimaxMove board role goatsPlaced goatsCaptured depth r in
  (answer = None ↔ moves = [])
  ∧ (∀ move, answer = Some move → move ∈ moves)
  ∧ ((∃ m, m ∈ moves ∧ winsAtOnce board role goatsCaptured m = true) →
     ∃ move before after,
       answer = Some move
       ∧ plyMoves board role goatsPlaced = before ++ move :: after
       ∧ winsAtOnce board role goatsCaptured move = true
       ∧ ∀ m, m ∈ before → winsAtOnce board role goatsCaptured m = false)
  ∧ ((∀ m, m ∈ moves → winsAtOnce board role goatsCaptured m = false) →
     ∀ move, answer = Some move →
       ∀ m, m ∈ moves →
         rootScore board role goatsPlaced goatsCaptured depth m
         <= rootScore board role goatsPlaced goatsCaptured depth move).
Proof.
  intros H0 H1 moves answer.
  assert (Hperm : plyMoves board role goatsPlaced ≡ₚ moves)
    by apply sortMovesForPruning_Permutation.
  assert (Hmem : ∀ m, m ∈ plyMoves board role goatsPlaced ↔ m ∈ moves)
    by (intros m; by rewrite Hperm).
  pose proof (rootLoop_spec board role goatsPlaced goatsCaptured depth
                (plyMoves board role goatsPlaced) [] None []
                (conj eq_refl eq_refl)) as Hspec.
  unfold answer, getMinimaxMove.
  destruct (rootLoop _ _ _ _ _ _ _ _) as [move|best].
  - destruct Hspec as (before & after & Hsplit & Hwin & Hbefore).
    assert (Hin : move ∈ moves).
    { apply Hmem. rewrite Hsplit. apply elem_of_app. right. left. }
    split; [|split; [|split]].
    + split; [done|]. intros Hnil. rewrite Hnil in Hin.
      by apply elem_of_nil in Hin.
    + by intros ? [= <-].
    + intros _. by exists move, before, after.
    + intros Hno. apply Hno in Hin. congruence.
  - destruct Hspec as [Hno (final & Hfinal)]. cbn [app] in Hfinal.
    destruct final as [b|]; cbn in Hfinal.
    + destruct Hfinal as (Hne & Hbest & Hmax).
      assert (Hlen : (0 <? length best)%nat = true).
      { apply Nat.ltb_lt. destruct best; [done|simpl; lia]. }
      rewrite Hlen.
      destruct (lookup_randomIndex best r H0 H1 Hne) as (a & Ha & Hin).
      rewrite Ha. apply Hbest in Hin as [Hin Hscore].
      split; [|split; [|split]].
      * split; [done|]. intros Hnil. apply Hmem in Hin. rewrite Hnil in Hin.
        by apply elem_of_nil in Hin.
      * intros ? [= <-]. by apply Hmem.
      * intros (m & Hm & Hw). apply Hmem, Hno in Hm. congruence.
      * intros _ move [= <-] m Hm. apply Hmem, Hmax in Hm. lia.
    + destruct Hfinal as [-> Hnil]. cbn.
      assert (Hmoves : moves = []).
      { apply Permutation_nil_r. by rewrite <- Hperm, Hnil. }
      split; [done|]. split; [done|]. split.
      * intros (m & Hm & _). rewrite Hmoves in Hm. by apply elem_of_nil in Hm.
      * done.
Qed.

(** X15: the hard tier, when it searches, answers no move exactly when
    the side has no legal move and a legal move otherwise. A tiger that
    has a move reaching the capture threshold answers such a move, the
    first in the order of the candidates; without one, the answer is a
    move whose score no other move of the side exceeds. *)
Theorem getMinimaxMove_best (board : Board) (role : Player)
    (goatsPlaced goatsCaptured : Z) (depth : nat) (r : Q) :
  (0 <= r)%Q → (r < 1)%Q →
  let moves := getAllPossibleMoves board role goatsPlaced in
  let answer :=
    getMinimaxMove board role goatsPlaced goatsCaptured depth r in
  (answer = None ↔ moves = [])
  ∧ (∀ move, answer = Some move → move ∈ moves)
  ∧ ((∃ m, m ∈ moves ∧ winsAtOnce board role goatsCaptured m = true) →
     ∃ move before after,
       answer = Some move
       ∧ plyMoves board role goatsPlaced = before ++ move :: after
       ∧ winsAtOnce board role goatsCaptured move = true
       ∧ ∀ m, m ∈ before → winsAtOnce board role goatsCaptured m = false)
  ∧ ((∀ m, m ∈ moves → winsAtOnce board role goatsCaptured m = false) →
     ∀ move, answer = Some move →
       ∀ m, m ∈ moves →
         rootScore board role goatsPlaced goatsCaptured depth m
         <= rootScore board role goatsPlaced goatsCaptured depth move).
Proof. exact (minimaxMove_member board role goatsPlaced goatsCaptured depth r). Qed.

Lemma getMinimaxMove_best_witness :
  (0 <= 1 # 2)%Q ∧ (1 # 2 < 1)%Q
  ∧ ∃ move before after,
      getMinimaxMove scenarioA tiger 18 7 5 (1 # 2) = Some move
      ∧ plyMoves scenarioA tiger 18 = before ++ move :: after
      ∧ winsAtOnce scenarioA tiger 7 move = true
      ∧ ∀ m, m ∈ before → winsAtOnce scenarioA tiger 7 m = false.
Proof.
  assert (H0 : (0 <= 1 # 2)%Q) by (vm_compute; discriminate).
  assert (H1 : (1 # 2 < 1)%Q) by (vm_compute; reflexivity).
  split; [exact H0|]. split; [exact H1|].
  apply (proj1 (proj2 (proj2
    (getMinimaxMove_best scenarioA tiger 18 7 5 (1 # 2) H0 H1)))).
  exists (mkMove (Some 8%nat) 18%nat).
  split; [|vm_compute; reflexivity].
  apply list_elem_of_In. vm_compute. tauto.
Defined.

(** ** The orchestrator *)

Lemma aiMove_member (board : Board) (goatsPlaced goatsCaptured : Z)
    (difficulty : Difficulty) (aiRole : Player) (rnd : nat → Q) :
  (∀ k, (0 <= rnd k)%Q ∧ (rnd k < 1)%Q) →
  (∃ n, (n < 24)%nat ∧ board !! n = None) →
  let moves := getAllPossibleMoves board aiRole goatsPlaced in
  let answer :=
    calculateAIMove board goatsPlaced goatsCaptured difficulty aiRole rnd in
  (answer = None ↔ moves = [])
  ∧ ∀ f t, answer = Some (f, t) →
           ∃ move, move ∈ moves ∧ from move = f ∧ Z.of_nat (to move) = t.
Proof.
  intros Hrnd Hempty moves answer.
  destruct (Hrnd 0%nat) as [H0 H1].
  assert (Htier : ∀ choice : option AIMove,
            (choice = None ↔ moves = []) →
            (∀ move, choice = Some move → move ∈ moves) →
            (moveFields <$> choice = None ↔ moves = [])
            ∧ ∀ f t, moveFields <$> choice = Some (f, t) →
                ∃ move, move ∈ moves ∧ from move = f ∧ Z.of_nat (to move) = t).
  { intros [m|] Hnone Hsome; cbn.
    - split; [split; [done|]; intros Hnil; by apply Hnone in Hnil|].
      intros f t [= <- <-]. exists m. split; [by apply Hsome|done].
    - split; [split; [by intros _; apply Hnone|done]|done]. }
  unfold answer, calculateAIMove. destruct difficulty.
  - apply Htier; apply (randomMove_member board aiRole goatsPlaced _ H0 H1).
  - apply Htier; apply (greedyMove_member board aiRole goatsPlaced _ H0 H1).
  - destruct (bool_decide (aiRole = goat) && (goatsPlaced <? GOATS_TOTAL))
      eqn:Hc.
    + apply andb_true_iff in Hc as [Hr%bool_decide_eq_true Hlt%Z.ltb_lt].
      destruct (proj2 (placement_answer board
                         (λ k, rnd k * 10)%Q) Hempty)
        as (node & Hnode & Hlt24 & Hnone).
      assert (Hin : mkMove None node ∈ moves).
      { apply elem_of_getAllPossibleMoves_iff. left. by repeat split. }
      split.
      * split; [done|]. intros Hnil. rewrite Hnil in Hin.
        by apply elem_of_nil in Hin.
      * intros f t [= <- <-]. exists (mkMove None node). by repeat split.
    + apply Htier;
        apply (minimaxMove_member board aiRole goatsPlaced goatsCaptured
                 _ _ H0 H1).
Qed.

(** X16: on a board with an empty node, at every difficulty and for
    either role, [calculateAIMove] answers no move exactly when the role
    has no legal move, and otherwise the source and destination of a
    legal move of the role. *)
Theorem calculateAIMove_legal (board : Board) (goatsPlaced goatsCaptured : Z)
    (difficulty : Difficulty) (aiRole : Player) (rnd : nat → Q) :
  (∀ k, (0 <= rnd k)%Q ∧ (rnd k < 1)%Q) →
  (∃ n, (n < 24)%nat ∧ board !! n = None) →
  let moves := getAllPossibleMoves board aiRole goatsPlaced in
  let answer :=
    calculateAIMove board goatsPlaced goatsCaptured difficulty aiRole rnd in
  (answer = None ↔ moves = [])
  ∧ ∀ f t, answer = Some (f, t) →
           ∃ move, move ∈ moves ∧ from move = f ∧ Z.of_nat (to move) = t.
Proof. exact (aiMove_member board goatsPlaced goatsCaptured difficulty aiRole rnd). Qed.

Lemma calculateAIMove_legal_witness :
  (∀ k : nat, (0 <= 1 # 2)%Q ∧ (1 # 2 < 1)%Q)
  ∧ (∃ n, (n < 24)%nat ∧ INITIAL_BOARD !! n = None)
  ∧ ∀ f t, calculateAIMove INITIAL_BOARD 0 0 hard goat (λ _, 1 # 2) = Some (f, t) →
           ∃ move, move ∈ getAllPossibleMoves INITIAL_BOARD goat 0
                   ∧ from move = f ∧ Z.of_nat (to move) = t.
Proof.
  assert (Hr : ∀ k : nat, (0 <= 1 # 2)%Q ∧ (1 # 2 < 1)%Q).
  { intros _. split; [vm_compute; discriminate|vm_compute; reflexivity]. }
  assert (He : ∃ n, (n < 24)%nat ∧ INITIAL_BOARD !! n = None).
  { exists 1%nat. split; [lia|vm_compute; reflexivity]. }
  split; [exact Hr|]. split; [exact He|].
  exact (proj2 (calculateAIMove_legal INITIAL_BOARD 0 0 hard goat
                  (λ _, 1 # 2) Hr He)).
Defined.

(** ** Pruning and the repetition check leave the value unchanged *)

Lemma minimax_S (depth' : nat) (board : Board) (alpha beta : ext)
    (isMaximizing : bool) (aiRole : Player) (goatsPlaced goatsCaptured : Z)
    (previousMove : option AIMove) :
  let currentTurn := if isMaximizing then aiRole else opponentOf aiRole in
  let moves := plyMoves board currentTurn goatsPlaced in
  minimax (S depth') board alpha beta isMaximizing aiRole goatsPlaced
    goatsCaptured previousMove
  = if gameOver (checkWinCondition board goatsCaptured currentTurn) then
      if bool_decide
           (winner (checkWinCondition board goatsCaptured currentTurn)
            = Some aiRole)
      then 20000 + Z.of_nat (S depth')
      else -20000 - Z.of_nat (S depth')
    else
      if (length moves =? 0)%nat then
        if bool_decide (currentTurn = aiRole) then -20000 else 20000
      else
        searchPly
          (descend depth' board isMaximizing aiRole goatsPlaced goatsCaptured)
          previousMove isMaximizing moves alpha beta.
Proof. reflexivity. Qed.

Lemma plainMinimax_S (depth' : nat) (board : Board)
    (isMaximizing : bool) (aiRole : Player) (goatsPlaced goatsCaptured : Z) :
  let currentTurn := if isMaximizing then aiRole else opponentOf aiRole in
  plainMinimax (S depth') board isMaximizing aiRole goatsPlaced goatsCaptured
  = if gameOver (checkWinCondition board goatsCaptured currentTurn) then
      if bool_decide
           (winner (checkWinCondition board goatsCaptured currentTurn)
            = Some aiRole)
      then 20000 + Z.of_nat (S depth')
      else -20000 - Z.of_nat (S depth')
    else
      match bestOf isMaximizing
              (map (plainValue depth' board isMaximizing aiRole goatsPlaced
                      goatsCaptured)
                 (getAllPossibleMoves board currentTurn goatsPlaced))
      with
      | Some best => best
      | None => if bool_decide (currentTurn = aiRole) then -20000 else 20000
      end.
Proof. reflexivity. Qed.

Lemma minimax_terminal (depth : nat) (board : Board) (alpha beta : ext)
    (isMaximizing : bool) (aiRole : Player) (goatsPlaced goatsCaptured : Z)
    (previousMove : option AIMove) :
  let currentTurn := if isMaximizing then aiRole else opponentOf aiRole in
  gameOver (checkWinCondition board goatsCaptured currentTurn) = true →
  minimax depth board alpha beta isMaximizing aiRole goatsPlaced
    goatsCaptured previousMove
  = plainMinimax depth board isMaximizing aiRole goatsPlaced goatsCaptured.
Proof.
  intros currentTurn Hover. destruct depth.
  - cbn [minimax plainMinimax]. fold currentTurn. by rewrite Hover.
  - rewrite minimax_S, plainMinimax_S. fold currentTurn. by rewrite Hover.
Qed.

Lemma withinWindow_refl alpha beta v : withinWindow alpha beta v v.
Proof. unfold withinWindow. split_and!; intros; lia. Qed.

Lemma withinWindow_full v e : withinWindow NegInf PosInf v e → v = e.
Proof. intros (_ & _ & H). by apply H. Qed.

Ltac ext_cases :=
  repeat match goal with
         | x : ext |- _ => destruct x
         end;
  unfold withinWindow, ext_max, ext_min in *;
  repeat (cbn [ext_leb] in *; case_match);
  cbn [ext_leb] in *;
  repeat match goal with
         | H : (_ <=? _) = true |- _ => apply Z.leb_le in H
         | H : (_ <=? _) = false |- _ => apply Z.leb_gt in H
         end;
  rewrite ?Z.leb_le, ?Z.leb_gt in *;
  simplify_eq;
  try done;
  try (intuition (try congruence; try lia)).

Lemma joinBest_cons isMaximizing eacc e rest :
  joinBest isMaximizing eacc
    (Some (match rest with
           | None => e
           | Some b => if isMaximizing then Z.max e b else Z.min e b
           end))
  = joinBest isMaximizing
      (Some (match eacc with
             | None => e
             | Some x => if isMaximizing then Z.max x e else Z.min x e
             end))
      rest.
Proof.
  destruct isMaximizing, eacc, rest; cbn; f_equal; lia.
Qed.

Lemma joinBest_max_ge x rest :
  ∃ y, joinBest true (Some x) rest = Some y ∧ x <= y.
Proof.
  destruct rest as [b|]; cbn.
  - exists (Z.max x b). split; [done|lia].
  - exists x. split; [done|lia].
Qed.

Lemma joinBest_min_le x rest :
  ∃ y, joinBest false (Some x) rest = Some y ∧ y <= x.
Proof.
  destruct rest as [b|]; cbn.
  - exists (Z.min x b). split; [done|lia].
  - exists x. split; [done|lia].
Qed.

Lemma maxLoop_window child exact previousMove movesLength alpha0 beta0
    moves acc alpha eacc :
  (∀ m, m ∈ moves → skipsMove previousMove movesLength m = false) →
  (∀ m a b, m ∈ moves → ext_leb b a = false →
            withinWindow a b (child m a b) (exact m)) →
  alpha = match acc with
          | None => alpha0
          | Some w => ext_max alpha0 (Fin w)
          end →
  ext_leb beta0 alpha = false →
  maxSoFar alpha0 acc eacc →
  windowResult alpha0 beta0
    (maxLoop child previousMove movesLength moves acc alpha beta0)
    (joinBest true eacc (bestOf true (map exact moves))).
Proof.
  revert acc alpha eacc.
  induction moves as [|m rest IH]; intros acc alpha eacc Hskip Hchild Ha Hlt Hacc.
  - cbn. unfold maxSoFar, windowResult in *.
    destruct acc as [w|], eacc as [e|]; cbn; try done.
    subst alpha. clear Hskip Hchild. ext_cases.
  - cbn [maxLoop map bestOf foldr].
    rewrite Hskip by left.
    pose proof (Hchild m alpha beta0 ltac:(left) Hlt) as Hv.
    set (v := child m alpha beta0) in *.
    fold (bestOf true (map exact rest)).
    rewrite (joinBest_cons true).
    destruct (ext_leb beta0 (ext_max alpha (Fin v))) eqn:Hbreak.
    + (* pruned: the score is a lower bound *)
      unfold maxSoFar, windowResult in *.
      destruct acc as [w|], eacc as [e|]; try done.
      * destruct (joinBest_max_ge (Z.max e (exact m))
                    (bestOf true (map exact rest))) as (y & -> & Hy).
        subst alpha. clear Hskip Hchild IH. ext_cases.
      * destruct (joinBest_max_ge (exact m)
                    (bestOf true (map exact rest))) as (y & -> & Hy).
        subst alpha. clear Hskip Hchild IH. ext_cases.
    + apply IH.
      * intros k Hk. apply Hskip. by right.
      * intros k a b Hk. apply Hchild. by right.
      * subst alpha. clear Hskip Hchild IH.
        destruct acc as [w|]; ext_cases; f_equal; lia.
      * done.
      * unfold maxSoFar in *.
        destruct acc as [w|], eacc as [e|]; try done;
          subst alpha; clear Hskip Hchild IH; ext_cases.
Qed.

Lemma minLoop_window child exact previousMove movesLength alpha0 beta0
    moves acc beta eacc :
  (∀ m, m ∈ moves → skipsMove previousMove movesLength m = false) →
  (∀ m a b, m ∈ moves → ext_leb b a = false →
            withinWindow a b (child m a b) (exact m)) →
  beta = match acc with
         | None => beta0
         | Some w => ext_min beta0 (Fin w)
         end →
  ext_leb beta alpha0 = false →
  minSoFar beta0 acc eacc →
  windowResult alpha0 beta0
    (minLoop child previousMove movesLength moves acc alpha0 beta)
    (joinBest false eacc (bestOf false (map exact moves))).
Proof.
  revert acc beta eacc.
  induction moves as [|m rest IH]; intros acc beta eacc Hskip Hchild Hb Hlt Hacc.
  - cbn. unfold minSoFar, windowResult in *.
    destruct acc as [w|], eacc as [e|]; cbn; try done.
    subst beta. clear Hskip Hchild. ext_cases.
  - cbn [minLoop map bestOf foldr].
    rewrite Hskip by left.
    pose proof (Hchild m alpha0 beta ltac:(left) Hlt) as Hv.
    set (v := child m alpha0 beta) in *.
    fold (bestOf false (map exact rest)).
    rewrite (joinBest_cons false).
    destruct (ext_leb (ext_min beta (Fin v)) alpha0) eqn:Hbreak.
    + (* pruned: the score is an upper bound *)
      unfold minSoFar, windowResult in *.
      destruct acc as [w|], eacc as [e|]; try done.
      * destruct (joinBest_min_le (Z.min e (exact m))
                    (bestOf false (map exact rest))) as (y & -> & Hy).
        subst beta. clear Hskip Hchild IH. ext_cases.
      * destruct (joinBest_min_le (exact m)
                    (bestOf false (map exact rest))) as (y & -> & Hy).
        subst beta. clear Hskip Hchild IH. ext_cases.
    + apply IH.
      * intros k Hk. apply Hskip. by right.
      * intros k a b Hk. apply Hchild. by right.
      * subst beta. clear Hskip Hchild IH.
        destruct acc as [w|]; ext_cases; f_equal; lia.
      * done.
      * unfold minSoFar in *.
        destruct acc as [w|], eacc as [e|]; try done;
          subst beta; clear Hskip Hchild IH; ext_cases.
Qed.

(** The best of the scores does not depend on their order. *)
Lemma bestOf_Permutation isMaximizing (l k : list Z) :
  l ≡ₚ k → bestOf isMaximizing l = bestOf isMaximizing k.
Proof.
  unfold bestOf.
  induction 1 as [|x l k _ IH|x y l|l k j _ IH1 _ IH2]; cbn [foldr].
  - done.
  - by rewrite IH.
  - destruct (foldr _ None l), isMaximizing; f_equal; lia.
  - by rewrite IH1.
Qed.

Lemma opponentOf_involutive role : opponentOf (opponentOf role) = role.
Proof. by destruct role. Qed.

(** The side to move after a ply is the opponent of the side that moved. *)
Lemma next_turn (isMaximizing : bool) (aiRole : Player) :
  (if negb isMaximizing then aiRole else opponentOf aiRole)
  = opponentOf (if isMaximizing then aiRole else opponentOf aiRole).
Proof. destruct isMaximizing; cbn; by rewrite ?opponentOf_involutive. Qed.

Lemma neverReversed_descend board move mover currentCaptured goatsPlaced :
  neverReversed (Some move)
    (simulateMove board move mover currentCaptured).1 (opponentOf mover)
    goatsPlaced.
Proof.
  intros prev [= <-] m Hm. by eapply candidates_never_reverse.
Qed.

(** The score of a position searched with any window stands to its
    plain value as the window says. *)
Lemma minimax_window (depth : nat) :
  ∀ (board : Board) (alpha beta : ext) (isMaximizing : bool) (aiRole : Player)
    (goatsPlaced goatsCaptured : Z) (previousMove : option AIMove),
    ext_leb beta alpha = false →
    neverReversed previousMove board
      (if isMaximizing then aiRole else opponentOf aiRole) goatsPlaced →
    withinWindow alpha beta
      (minimax depth board alpha beta isMaximizing aiRole goatsPlaced
         goatsCaptured previousMove)
      (plainMinimax depth board isMaximizing aiRole goatsPlaced goatsCaptured).
Proof.
  induction depth as [|depth' IH];
    intros board alpha beta isMaximizing aiRole goatsPlaced goatsCaptured
      previousMove Hlt Hprev.
  - assert (Heq : minimax 0 board alpha beta isMaximizing aiRole goatsPlaced
                    goatsCaptured previousMove
                  = plainMinimax 0 board isMaximizing aiRole goatsPlaced
                      goatsCaptured) by reflexivity.
    rewrite Heq. apply withinWindow_refl.
  - set (currentTurn := if isMaximizing then aiRole else opponentOf aiRole)
      in *.
    destruct (gameOver (checkWinCondition board goatsCaptured currentTurn))
      eqn:Hover.
    { rewrite minimax_terminal by done. apply withinWindow_refl. }
    rewrite minimax_S, plainMinimax_S. fold currentTurn. rewrite Hover.
    set (moves := plyMoves board currentTurn goatsPlaced).
    set (child := descend depth' board isMaximizing aiRole goatsPlaced
                    goatsCaptured).
    set (exact := plainValue depth' board isMaximizing aiRole goatsPlaced
                    goatsCaptured).
    assert (Hperm : moves ≡ₚ getAllPossibleMoves board currentTurn goatsPlaced)
      by apply sortMovesForPruning_Permutation.
    rewrite <- (bestOf_Permutation isMaximizing _ _
                  (Permutation_map exact Hperm)).
    destruct moves as [|m0 rest] eqn:Hmoves; [apply withinWindow_refl|].
    rewrite <- Hmoves in *. cbn [length Nat.eqb].
    assert (Hlen : (length moves =? 0)%nat = false) by (by rewrite Hmoves).
    rewrite Hlen.
    assert (Hbest : is_Some (bestOf isMaximizing (map exact moves))).
    { rewrite Hmoves. by eexists. }
    assert (Hskip : ∀ m, m ∈ moves →
              skipsMove previousMove (length moves) m = false).
    { intros m Hm. unfold skipsMove. destruct previousMove as [prev|]; [|done].
      rewrite (Hprev prev eq_refl m); [done|]. by rewrite <- Hperm. }
    assert (Hchild : ∀ m a b, m ∈ moves → ext_leb b a = false →
              withinWindow a b (child m a b) (exact m)).
    { intros m a b _ Hab. unfold child, exact, descend, plainValue.
      fold currentTurn.
      pose proof (neverReversed_descend board m currentTurn goatsCaptured
                    (placedAfter goatsPlaced currentTurn m)) as Hnext.
      destruct (simulateMove board m currentTurn goatsCaptured)
        as [nextBoard nextCaptured].
      apply IH; [done|]. rewrite next_turn. exact Hnext. }
    clearbody child exact moves. clear IH Hmoves Hlen Hperm Hprev.
    unfold searchPly. destruct isMaximizing.
    + pose proof (maxLoop_window child exact previousMove (length moves)
                    alpha beta moves None alpha None Hskip Hchild eq_refl Hlt I)
        as Hres.
      cbn [joinBest] in Hres. unfold windowResult in Hres.
      destruct Hbest as [e He]. rewrite He in *.
      by destruct (maxLoop _ _ _ _ _ _ _).
    + pose proof (minLoop_window child exact previousMove (length moves)
                    alpha beta moves None beta None Hskip Hchild eq_refl Hlt I)
        as Hres.
      cbn [joinBest] in Hres. unfold windowResult in Hres.
      destruct Hbest as [e He]. rewrite He in *.
      by destruct (minLoop _ _ _ _ _ _ _).
Qed.

(** ** The repetition check: what a ply returns *)

(** The loops look only at the searches of the candidates they do not
    pass over. *)
Lemma maxLoop_ext child1 child2 previousMove movesLength moves maxEval
    alpha beta :
  (∀ m a b, m ∈ moves → skipsMove previousMove movesLength m = false →
            child1 m a b = child2 m a b) →
  maxLoop child1 previousMove movesLength moves maxEval alpha beta
  = maxLoop child2 previousMove movesLength moves maxEval alpha beta.
Proof.
  revert maxEval alpha. induction moves as [|m rest IH];
    intros maxEval alpha Hsame; [done|].
  cbn [maxLoop].
  assert (Hrest : ∀ k a b, k ∈ rest →
            skipsMove previousMove movesLength k = false →
            child1 k a b = child2 k a b).
  { intros k a b Hk. apply Hsame. by right. }
  destruct (skipsMove previousMove movesLength m) eqn:Hskip; [by apply IH|].
  rewrite (Hsame m alpha beta) by (done || left).
  destruct (ext_leb _ _); [done|]. by apply IH.
Qed.

Lemma minLoop_ext child1 child2 previousMove movesLength moves minEval
    alpha beta :
  (∀ m a b, m ∈ moves → skipsMove previousMove movesLength m = false →
            child1 m a b = child2 m a b) →
  minLoop child1 previousMove movesLength moves minEval alpha beta
  = minLoop child2 previousMove movesLength moves minEval alpha beta.
Proof.
  revert minEval beta. induction moves as [|m rest IH];
    intros minEval beta Hsame; [done|].
  cbn [minLoop].
  assert (Hrest : ∀ k a b, k ∈ rest →
            skipsMove previousMove movesLength k = false →
            child1 k a b = child2 k a b).
  { intros k a b Hk. apply Hsame. by right. }
  destruct (skipsMove previousMove movesLength m) eqn:Hskip; [by apply IH|].
  rewrite (Hsame m alpha beta) by (done || left).
  destruct (ext_leb _ _); [done|]. by apply IH.
Qed.

(** A ply without previous move, over any candidates: its score stands
    to the best of their exact values as the window says. *)
Lemma searchPly_window child exact isMaximizing moves alpha beta :
  moves ≠ [] →
  ext_leb beta alpha = false →
  (∀ m a b, m ∈ moves → ext_leb b a = false →
            withinWindow a b (child m a b) (exact m)) →
  ∃ best, bestOf isMaximizing (map exact moves) = Some best
          ∧ withinWindow alpha beta
              (searchPly child None isMaximizing moves alpha beta) best.
Proof.
  intros Hne Hlt Hchild.
  assert (Hbest : is_Some (bestOf isMaximizing (map exact moves))).
  { destruct moves; [done|]. by eexists. }
  destruct Hbest as [best Hbest]. exists best. split; [done|].
  assert (Hskip : ∀ m, m ∈ moves → skipsMove None (length moves) m = false)
    by done.
  unfold searchPly. destruct isMaximizing.
  - pose proof (maxLoop_window child exact None (length moves) alpha beta
                  moves None alpha None Hskip Hchild eq_refl Hlt I) as Hres.
    cbn [joinBest] in Hres. unfold windowResult in Hres.
    rewrite Hbest in Hres. by destruct (maxLoop _ _ _ _ _ _ _).
  - pose proof (minLoop_window child exact None (length moves) alpha beta
                  moves None beta None Hskip Hchild eq_refl Hlt I) as Hres.
    cbn [joinBest] in Hres. unfold windowResult in Hres.
    rewrite Hbest in Hres. by destruct (minLoop _ _ _ _ _ _ _).
Qed.

(** The search of a candidate stands to its plain value as the window
    says. *)
Lemma descend_window depth' board isMaximizing aiRole goatsPlaced
    goatsCaptured move alpha beta :
  ext_leb beta alpha = false →
  withinWindow alpha beta
    (descend depth' board isMaximizing aiRole goatsPlaced goatsCaptured move
       alpha beta)
    (plainValue depth' board isMaximizing aiRole goatsPlaced goatsCaptured
       move).
Proof.
  intros Hlt. unfold descend, plainValue.
  set (currentTurn := if isMaximizing then aiRole else opponentOf aiRole).
  pose proof (neverReversed_descend board move currentTurn goatsCaptured
                (placedAfter goatsPlaced currentTurn move)) as Hnext.
  destruct (simulateMove board move currentTurn goatsCaptured)
    as [nextBoard nextCaptured].
  apply minimax_window; [done|]. rewrite next_turn. exact Hnext.
Qed.

(** C8: at a ply of [minimax] that is not terminal, entered after the
    move [prev] with a window that is not empty, a candidate is passed
    over exactly when it is the reverse of [prev] and the ply has more
    than one candidate. With several candidates the score of the ply
    is, within the window, the best of the plain values of the
    candidates that do not reverse [prev], and the loop returns the same
    whatever the search of a reversing candidate would answer: that
    candidate is not evaluated. A sole candidate is evaluated even when
    it reverses [prev]: the score of the ply is its value. On the calls
    the search itself makes, where [prev] is the move the other side has
    just made on the board, no candidate reverses [prev]: all are kept. *)
Theorem minimax_skips_reverse_move (depth' : nat) (board : Board)
    (alpha beta : ext) (isMaximizing : bool) (aiRole : Player)
    (goatsPlaced goatsCaptured : Z) (prev : AIMove) :
  let currentTurn := if isMaximizing then aiRole else opponentOf aiRole in
  let moves := plyMoves board currentTurn goatsPlaced in
  let kept := filter (λ m, isReverseMove m prev = false) moves in
  let value :=
    plainValue depth' board isMaximizing aiRole goatsPlaced goatsCaptured in
  let score :=
    minimax (S depth') board alpha beta isMaximizing aiRole goatsPlaced
      goatsCaptured (Some prev) in
  gameOver (checkWinCondition board goatsCaptured currentTurn) = false →
  ext_leb beta alpha = false →
  (∀ move,
     skipsMove (Some prev) (length moves) move = true
     ↔ (from move = Some (to prev) ∧ from prev = Some (to move))
       ∧ (1 < length moves)%nat)
  ∧ ((1 < length moves)%nat →
     (∃ best, bestOf isMaximizing (map value kept) = Some best
              ∧ withinWindow alpha beta score best)
     ∧ ∀ child1 child2 : AIMove → ext → ext → Z,
         (∀ m a b, m ∈ kept → child1 m a b = child2 m a b) →
         searchPly child1 (Some prev) isMaximizing moves alpha beta
         = searchPly child2 (Some prev) isMaximizing moves alpha beta)
  ∧ (∀ move, moves = [move] → withinWindow alpha beta score (value move))
  ∧ (∀ (before : Board) (mover : Player) (captured : Z),
       board = (simulateMove before prev mover captured).1 →
       currentTurn = opponentOf mover →
       kept = moves).
Proof.
  intros currentTurn moves kept value score Hover Hlt.
  assert (Hskips : ∀ move,
     skipsMove (Some prev) (length moves) move = true
     ↔ (from move = Some (to prev) ∧ from prev = Some (to move))
       ∧ (1 < length moves)%nat).
  { intros move. rewrite skipsMove_true. split.
    - intros (p & [= <-] & Hrev & Hlen). split; [|done].
      apply isReverseMove_true in Hrev as (source & Hsrc & ->). done.
    - intros [[Hf Ht] Hlen]. exists prev. repeat split; try done.
      apply isReverseMove_true. exists (to move). split; [done|].
      destruct move as [f t]. cbn [from to] in *. by subst f. }
  split; [exact Hskips|]. split; [|split].
  - intros Hlen.
    assert (Hne : moves ≠ []).
    { intros Hnil. rewrite Hnil in Hlen. simpl in Hlen. lia. }
    split.
    + assert (Hkept : kept ≠ []).
      { destruct (some_move_not_skipped (Some prev) moves
                    (NoDup_plyMoves _ _ _) Hne) as (m & Hm & Hskip).
        assert (Hin : m ∈ kept).
        { apply list_elem_of_filter. split; [|done].
          unfold skipsMove in Hskip.
          apply andb_false_iff in Hskip as [Hrev|Hone]; [done|].
          apply Nat.ltb_ge in Hone. lia. }
        intros Hnil. rewrite Hnil in Hin. by apply elem_of_nil in Hin. }
      unfold score. rewrite minimax_ply by done.
      fold currentTurn. fold moves. rewrite (searchPly_filter _ _ _ _ _ _ Hlen).
      fold kept. apply searchPly_window; [done|done|].
      intros m a b _ Hab. by apply descend_window.
    + intros child1 child2 Hsame. unfold searchPly.
      assert (Hsame' : ∀ m a b, m ∈ moves →
                skipsMove (Some prev) (length moves) m = false →
                child1 m a b = child2 m a b).
      { intros m a b Hm Hskip. apply Hsame. apply list_elem_of_filter.
        split; [|done]. unfold skipsMove in Hskip.
        apply andb_false_iff in Hskip as [Hrev|Hone]; [done|].
        apply Nat.ltb_ge in Hone. lia. }
      by rewrite (maxLoop_ext child1 child2 _ _ _ _ _ _ Hsame'),
                 (minLoop_ext child1 child2 _ _ _ _ _ _ Hsame').
  - intros move Hmoves. unfold score. rewrite minimax_ply; [|done|].
    + fold currentTurn. fold moves. rewrite Hmoves, searchPly_single.
      by apply descend_window.
    + fold currentTurn. fold moves. by rewrite Hmoves.
  - intros before mover captured Hboard Hturn.
    unfold kept. apply filter_all. intros m Hm.
    unfold moves, plyMoves in Hm.
    rewrite sortMovesForPruning_Permutation, Hboard, Hturn in Hm.
    by apply candidates_never_reverse in Hm.
Qed.

(** A call the search makes: at depth 4 [getMinimaxMove], for the tigers
    after a first goat on node 1, searches the move from 0 to 2 by this
    call, a ply of the goats with nineteen placements. *)
Lemma minimax_skips_reverse_move_witness :
  gameOver (checkWinCondition afterTigerReply 0 goat) = false
  ∧ ext_leb PosInf NegInf = false
  ∧ (1 < length (plyMoves afterTigerReply goat 1))%nat
  ∧ filter (λ m, isReverseMove m tigerReply = false)
      (plyMoves afterTigerReply goat 1)
    = plyMoves afterTigerReply goat 1
  ∧ ∃ best,
      bestOf false
        (map (plainValue 2 afterTigerReply false tiger 1 0)
           (filter (λ m, isReverseMove m tigerReply = false)
              (plyMoves afterTigerReply goat 1))) = Some best
      ∧ withinWindow NegInf PosInf
          (minimax 3 afterTigerReply NegInf PosInf false tiger 1 0
             (Some tigerReply))
          best.
Proof.
  assert (Hover : gameOver (checkWinCondition afterTigerReply 0 goat) = false)
    by (vm_compute; reflexivity).
  assert (Hlt : ext_leb PosInf NegInf = false) by reflexivity.
  assert (Hlen : (1 < length (plyMoves afterTigerReply goat 1))%nat)
    by (vm_compute; lia).
  pose proof (minimax_skips_reverse_move 2 afterTigerReply NegInf PosInf false
                tiger 1 0 tigerReply Hover Hlt) as (_ & Hseveral & _ & Hkept).
  split; [exact Hover|]. split; [exact Hlt|]. split; [exact Hlen|].
  split; [exact (Hkept firstGoat tiger 0 eq_refl eq_refl)|].
  exact (proj1 (Hseveral Hlen)).
Defined.

(** A call that the search itself never makes, the previous move being
    one of the side to move: a tiger at 8 that has come from 18 and may
    jump back over the goat at 13. The jump, the best of its four
    candidates in the plain search, is passed over, and the ply has the
    value of the best of the other three. *)
Example minimax_reverse_jump_left_out :
  let back := mkMove (Some 18%nat) 8%nat in
  plyMoves scenarioA tiger 18
  = [mkMove (Some 8%nat) 18%nat; mkMove (Some 8%nat) 3%nat;
     mkMove (Some 8%nat) 7%nat; mkMove (Some 8%nat) 9%nat]
  ∧ map (plainValue 0 scenarioA true tiger 18 0) (plyMoves scenarioA tiger 18)
    = [2120; 120; 120; 120]
  ∧ minimax 1 scenarioA NegInf PosInf true tiger 18 0 (Some back) = 120
  ∧ minimax 1 scenarioA NegInf PosInf true tiger 18 0 None = 2120.
Proof. vm_compute. repeat split; reflexivity. Qed.

(** X17: searched with the full window, a position has the value of the
    plain minimax of the same depth: neither the pruning, nor the
    ordering of the moves, nor the repetition check changes it, and the
    fallbacks for a ply without a searched move play no part. The score
    that [getMinimaxMove] gives a move is the plain value of the
    position after the move. *)
Theorem minimax_exact (depth : nat) (board : Board) (isMaximizing : bool)
    (aiRole : Player) (goatsPlaced goatsCaptured : Z) (move : AIMove) :
  minimax depth board NegInf PosInf isMaximizing aiRole goatsPlaced
    goatsCaptured None
  = plainMinimax depth board isMaximizing aiRole goatsPlaced goatsCaptured
  ∧ rootScore board aiRole goatsPlaced goatsCaptured depth move
    = (let '(nextBoard, nextCaptured) :=
         simulateMove board move aiRole goatsCaptured in
       plainMinimax (depth - 1) nextBoard false aiRole
         (placedAfter goatsPlaced aiRole move) nextCaptured).
Proof.
  split.
  - apply withinWindow_full, minimax_window; [done|]. by intros prev.
  - unfold rootScore.
    pose proof (neverReversed_descend board move aiRole goatsCaptured
                  (placedAfter goatsPlaced aiRole move)) as Hnext.
    destruct (simulateMove board move aiRole goatsCaptured)
      as [nextBoard nextCaptured].
    apply withinWindow_full, minimax_window; [done|]. exact Hnext.
Qed.

(** ** The repetition check inside the search *)

Lemma maxLoop_unskipped child previousMove movesLength moves maxEval alpha beta :
  (∀ m, m ∈ moves → skipsMove previousMove movesLength m = false) →
  maxLoop child previousMove movesLength moves maxEval alpha beta
  = maxLoop child None movesLength moves maxEval alpha beta.
Proof.
  revert maxEval alpha. induction moves as [|m rest IH];
    intros maxEval alpha Hskip; [done|].
  cbn [maxLoop]. rewrite Hskip by left. cbn [skipsMove].
  destruct (ext_leb _ _); [done|]. apply IH.
  intros k Hk. apply Hskip. by right.
Qed.

Lemma minLoop_unskipped child previousMove movesLength moves minEval alpha beta :
  (∀ m, m ∈ moves → skipsMove previousMove movesLength m = false) →
  minLoop child previousMove movesLength moves minEval alpha beta
  = minLoop child None movesLength moves minEval alpha beta.
Proof.
  revert minEval beta. induction moves as [|m rest IH];
    intros minEval beta Hskip; [done|].
  cbn [minLoop]. rewrite Hskip by left. cbn [skipsMove].
  destruct (ext_leb _ _); [done|]. apply IH.
  intros k Hk. apply Hskip. by right.
Qed.

Lemma minimax_unskipped (depth : nat) (board : Board) (alpha beta : ext)
    (isMaximizing : bool) (aiRole : Player) (goatsPlaced goatsCaptured : Z)
    (previousMove : option AIMove) :
  neverReversed previousMove board
    (if isMaximizing then aiRole else opponentOf aiRole) goatsPlaced →
  minimax depth board alpha beta isMaximizing aiRole goatsPlaced
    goatsCaptured previousMove
  = minimax depth board alpha beta isMaximizing aiRole goatsPlaced
      goatsCaptured None.
Proof.
  intros Hprev. destruct depth as [|depth']; [reflexivity|].
  rewrite !minimax_S.
  set (currentTurn := if isMaximizing then aiRole else opponentOf aiRole) in *.
  destruct (gameOver _); [done|].
  set (moves := plyMoves board currentTurn goatsPlaced).
  destruct (length moves =? 0)%nat; [done|].
  assert (Hskip : ∀ m, m ∈ moves →
            skipsMove previousMove (length moves) m = false).
  { intros m Hm. unfold skipsMove. destruct previousMove as [prev|]; [|done].
    rewrite (Hprev prev eq_refl m); [done|].
    unfold moves, plyMoves in Hm.
    by rewrite sortMovesForPruning_Permutation in Hm. }
  unfold searchPly.
  by rewrite maxLoop_unskipped, minLoop_unskipped.
Qed.

(** X18: inside the search the repetition check never passes over a
    move. The previous move handed to a ply is the move the other side
    has just made, whose piece stands on its destination, so no
    candidate starts from there: every recursive call of [minimax], and
    the call of [getMinimaxMove] on a move of the root, returns what it
    returns without a previous move, for any window. *)
Theorem repetition_check_never_fires (depth' : nat) (board : Board)
    (alpha beta : ext) (isMaximizing : bool) (aiRole : Player)
    (goatsPlaced goatsCaptured : Z) (move : AIMove) :
  let currentTurn := if isMaximizing then aiRole else opponentOf aiRole in
  let nextBoard := (simulateMove board move currentTurn goatsCaptured).1 in
  let nextCaptured := (simulateMove board move currentTurn goatsCaptured).2 in
  (∀ m, m ∈ plyMoves nextBoard (opponentOf currentTurn)
              (placedAfter goatsPlaced currentTurn move) →
        ∀ n, skipsMove (Some move) n m = false)
  ∧ descend depth' board isMaximizing aiRole goatsPlaced goatsCaptured move
      alpha beta
    = minimax depth' nextBoard alpha beta (negb isMaximizing) aiRole
        (placedAfter goatsPlaced currentTurn move) nextCaptured None.
Proof.
  intros currentTurn nextBoard nextCaptured.
  pose proof (neverReversed_descend board move currentTurn goatsCaptured
                (placedAfter goatsPlaced currentTurn move)) as Hnext.
  split.
  - intros m Hm n. unfold skipsMove.
    rewrite (Hnext move eq_refl m); [done|].
    unfold plyMoves in Hm. by rewrite sortMovesForPruning_Permutation in Hm.
  - unfold descend, nextBoard, nextCaptured. fold currentTurn.
    destruct (simulateMove board move currentTurn goatsCaptured)
      as [nb nc]. cbn [fst snd] in *.
    apply minimax_unskipped. by rewrite next_turn.
Qed.



(** X20: in every state reached from the initial position by legal
    moves, at every difficulty and for either role, what
    [calculateAIMove] answers is a legal move of the role, and it
    answers none only when the role has no legal move. *)
Theorem calculateAIMove_reachable (s : GameState.t) (difficulty : Difficulty)
    (aiRole : Player) (rnd : nat → Q) :
  reachable s →
  (∀ k, (0 <= rnd k)%Q ∧ (rnd k < 1)%Q) →
  let moves :=
    getAllPossibleMoves (GameState.board s) aiRole (GameState.goatsPlaced s) in
  let answer :=
    calculateAIMove (GameState.board s) (GameState.goatsPlaced s)
      (GameState.goatsCaptured s) difficulty aiRole rnd in
  (answer = None ↔ moves = [])
  ∧ ∀ f t, answer = Some (f, t) →
           ∃ move, move ∈ moves ∧ from move = f ∧ Z.of_nat (to move) = t.
Proof.
  intros Hreach Hrnd.
  apply aiMove_member; [done|].
  by apply reachable_balance in Hreach as (_ & _ & _ & _ & ?).
Qed.

Lemma calculateAIMove_reachable_witness :
  reachable initialState
  ∧ (∀ k : nat, (0 <= 1 # 2)%Q ∧ (1 # 2 < 1)%Q)
  ∧ ∀ f t,
      calculateAIMove (GameState.board initialState)
        (GameState.goatsPlaced initialState)
        (GameState.goatsCaptured initialState) easy goat (λ _, 1 # 2)
      = Some (f, t) →
      ∃ move,
        move ∈ getAllPossibleMoves (GameState.board initialState) goat
                 (GameState.goatsPlaced initialState)
        ∧ from move = f ∧ Z.of_nat (to move) = t.
Proof.
  assert (Hr : ∀ k : nat, (0 <= 1 # 2)%Q ∧ (1 # 2 < 1)%Q).
  { intros _. split; [vm_compute; discriminate|vm_compute; reflexivity]. }
  split; [exact reachable_initial|]. split; [exact Hr|].
  exact (proj2 (calculateAIMove_reachable initialState easy goat (λ _, 1 # 2)
                  reachable_initial Hr)).
Defined.

(** * The earlier AI *)

Lemma flat_map_filter {A B} (P : A → bool) (f : A → B) (l : list A) :
  flat_map (λ a, if P a then [f a] else []) l
  = map f (filter (λ a, P a = true) l).
Proof.
  induction l as [|a l IH]; [done|]. cbn [flat_map].
  rewrite filter_cons, IH. destruct (P a) eqn:HP.
  - by rewrite decide_True.
  - by rewrite decide_False.
Qed.

Lemma map_flat_map {A B C} (g : B → C) (f : A → list B) (l : list A) :
  map g (flat_map f l) = flat_map (λ a, map g (f a)) l.
Proof.
  induction l as [|a l IH]; [done|]. cbn [flat_map].
  by rewrite map_app, IH.
Qed.

Lemma flat_map_ext_in {A B} (f g : A → list B) (l : list A) :
  (∀ a, a ∈ l → f a = g a) → flat_map f l = flat_map g l.
Proof.
  induction l as [|a l IH]; intros Hfg; [done|]. cbn [flat_map].
  rewrite Hfg by left. f_equal. apply IH. intros b Hb. apply Hfg. by right.
Qed.

(** The moves of one tiger, as the earlier AI collects them. *)
Lemma legacy_moves_of_tiger board goatsPlaced n :
  map ofLegacy
    (flat_map
       (λ neighbor,
          if isEmpty board neighbor then [LegacyAI.mk n neighbor false] else [])
       (adjacent n)
     ++ flat_map
          (λ '(start, middle, end_),
             (if (start =? n)%nat && holds board middle goat
                 && isEmpty board end_
              then [LegacyAI.mk n end_ true] else [])
             ++ (if (end_ =? n)%nat && holds board middle goat
                    && isEmpty board start
                 then [LegacyAI.mk n start true] else []))
          JUMP_PATHS)
  = map (λ t, mkMove (Some n) t) (getValidMoves n tiger board goatsPlaced).
Proof.
  rewrite getValidMoves_tiger, !map_app. f_equal.
  - rewrite flat_map_filter, map_map. done.
  - rewrite !map_flat_map. apply flat_map_ext_in.
    intros [[s m] e] _. unfold jumpsOf. rewrite !map_app.
    f_equal; case_match; done.
Qed.

Lemma legacy_possibleMoves_same (board : Board) (goatsPlaced : Z) :
  map ofLegacy (LegacyAI.possibleMoves board)
  = getAllPossibleMoves board tiger goatsPlaced
  ∧ ∀ m, m ∈ LegacyAI.possibleMoves board →
         LegacyAI.isJump m = isJump board (ofLegacy m).
Proof.
  split.
  - unfold LegacyAI.possibleMoves, getAllPossibleMoves.
    rewrite (bool_decide_eq_false_2 (tiger = goat)) by done. cbn [andb].
    rewrite map_flat_map. apply flat_map_ext_in. intros n _.
    apply legacy_moves_of_tiger.
  - intros m Hm. unfold LegacyAI.possibleMoves in Hm.
    apply elem_of_flat_map in Hm as (n & _ & Hm).
    unfold isJump, ofLegacy. cbn [from to].
    apply elem_of_app in Hm as [Hm|Hm].
    + apply elem_of_flat_map in Hm as (t & Ht & Hm).
      destruct (isEmpty board t); [|by apply elem_of_nil in Hm].
      apply list_elem_of_singleton in Hm as ->.
      cbn [LegacyAI.from LegacyAI.to LegacyAI.isJump].
      apply adjacent_not_jump in Ht.
      destruct (List.find _ _) as [p|] eqn:Hfind.
      * apply find_some in Hfind as [Hin Hp].
        assert (existsb (matchesJump n t) JUMP_PATHS = true); [|congruence].
        apply existsb_exists. by exists p.
      * symmetry. apply bool_decide_eq_false. by intros [? ?].
    + apply elem_of_flat_map in Hm as ([[s mid] e] & Hin & Hm).
      assert (Hcase : LegacyAI.isJump m = true
                      ∧ matchesJump (LegacyAI.from m) (LegacyAI.to m) (s, mid, e)
                        = true).
      { apply elem_of_app in Hm as [Hm|Hm]; case_match eqn:Hc;
          try (by apply elem_of_nil in Hm);
          apply list_elem_of_singleton in Hm as ->;
          cbn [LegacyAI.from LegacyAI.to LegacyAI.isJump];
          apply andb_true_iff in Hc as [Hc _];
          apply andb_true_iff in Hc as [Hc%Nat.eqb_eq _];
          (split; [done|]); apply matchesJump_true; auto. }
      destruct Hcase as [-> Hmatch]. symmetry. apply bool_decide_eq_true.
      destruct (List.find _ _) eqn:Hfind; [by eexists|].
      apply list_elem_of_In in Hin.
      pose proof (find_none _ _ Hfind _ Hin). congruence.
Qed.

(** X21: the moves the earlier tiger AI collects are the moves
    [getAllPossibleMoves] lists for the tigers, in the same order, and
    the [isJump] flag it gives a move is the answer of [isJump]. *)
Theorem LegacyAI_possibleMoves (board : Board) (goatsPlaced : Z) :
  map ofLegacy (LegacyAI.possibleMoves board)
  = getAllPossibleMoves board tiger goatsPlaced
  ∧ ∀ m, m ∈ LegacyAI.possibleMoves board →
         LegacyAI.isJump m = isJump board (ofLegacy m).
Proof. exact (legacy_possibleMoves_same board goatsPlaced). Qed.

Lemma insertSorted_Permutation {A} (cmp : A → A → Z) x l :
  insertSorted cmp x l ≡ₚ x :: l.
Proof.
  induction l as [|y l IH]; [done|]. cbn [insertSorted].
  case_match; [done|]. rewrite IH. apply Permutation_swap.
Qed.

Lemma sortBy_Permutation {A} (cmp : A → A → Z) l : sortBy cmp l ≡ₚ l.
Proof.
  unfold sortBy. induction l as [|x l IH]; [done|].
  cbn [foldr]. by rewrite insertSorted_Permutation, IH.
Qed.

(** A comparator that compares a key sorts by the key. *)
Lemma sortBy_sorted {A} (cmp : A → A → Z) (key : A → Z) l :
  (∀ a b, cmp a b <= 0 ↔ key a <= key b) →
  StronglySorted (λ a b, key a <= key b) (sortBy cmp l).
Proof.
  intros Hkey. apply Sorted_StronglySorted; [intros a b c; lia|].
  unfold sortBy. induction l as [|x l IH]; cbn [foldr]; [constructor|].
  induction IH as [|y k Hk IHk Hhd]; cbn [insertSorted].
  - by repeat constructor.
  - destruct (cmp x y <=? 0) eqn:Hc.
    + apply Z.leb_le, Hkey in Hc. constructor; [by constructor|by constructor].
    + apply Z.leb_gt in Hc.
      assert (Hyx : key y <= key x).
      { destruct (Z.le_gt_cases (key x) (key y)) as [Hle|?]; [|lia].
        apply Hkey in Hle. lia. }
      constructor; [done|].
      destruct k as [|z k]; cbn [insertSorted]; [by constructor|].
      destruct (cmp x z <=? 0); constructor; [done|].
      by apply HdRel_inv in Hhd.
Qed.

Lemma legacy_tiger_answer (board : Board) (difficulty : Difficulty) (r : Q) :
  (0 <= r)%Q → (r < 1)%Q →
  (LegacyAI.calculateTigerMove board difficulty r = None
   ↔ LegacyAI.possibleMoves board = [])
  ∧ (∀ m, LegacyAI.calculateTigerMove board difficulty r = Some m →
          m ∈ LegacyAI.possibleMoves board)
  ∧ (difficulty = medium →
     (∃ j, j ∈ LegacyAI.possibleMoves board ∧ LegacyAI.isJump j = true) →
     ∃ m, LegacyAI.calculateTigerMove board difficulty r = Some m
          ∧ LegacyAI.isJump m = true)
  ∧ (difficulty = hard →
     ∀ m, LegacyAI.calculateTigerMove board difficulty r = Some m →
          ∀ m', m' ∈ LegacyAI.possibleMoves board →
                LegacyAI.moveScore board m' <= LegacyAI.moveScore board m).
Proof.
  intros H0 H1. unfold LegacyAI.calculateTigerMove.
  generalize (LegacyAI.moveScore board). intros score.
  generalize (LegacyAI.possibleMoves board). intros possible.
    destruct (decide (possible = [])) as [Hempty|Hne].
    { rewrite Hempty. cbn [length Nat.eqb]. split; [done|]. split; [done|]. split.
      - intros _ (j & Hj & _). by apply elem_of_nil in Hj.
      - done. }
    assert (Hlen0 : (length (possible) =? 0)%nat = false).
    { apply Nat.eqb_neq. intros Hl. by apply nil_length_inv in Hl. }
    rewrite Hlen0.
    destruct (lookup_randomIndex (possible) r H0 H1 Hne)
      as (a & Ha & Hin).
    destruct difficulty.
    - rewrite Ha. split; [done|]. split; [by intros ? [= <-]|]. done.
    - set (jumpMoves := filter _ (possible)).
      assert (Hjumps : ∀ j, j ∈ jumpMoves
                ↔ LegacyAI.isJump j = true ∧ j ∈ possible)
        by (intros j; unfold jumpMoves; by rewrite list_elem_of_filter).
      destruct (0 <? length jumpMoves)%nat eqn:Hlen.
      + apply Nat.ltb_lt in Hlen.
        destruct (lookup_randomIndex jumpMoves r H0 H1) as (b & Hb & Hbin).
        { intros Hn. rewrite Hn in Hlen. simpl in Hlen. lia. }
        rewrite Hb. apply Hjumps in Hbin as [Hjump Hbin].
        split; [done|]. split; [by intros ? [= <-]|].
        split; [|done]. intros _ _. by exists b.
      + rewrite Ha. split; [done|]. split; [by intros ? [= <-]|].
        split; [|done]. intros _ (j & Hj & Hjump). exfalso.
        apply Nat.ltb_ge in Hlen.
        assert (Hjin : j ∈ jumpMoves) by (by apply Hjumps).
        destruct jumpMoves; [by apply elem_of_nil in Hjin|simpl in Hlen; lia].
    - set (scoredMoves :=
             map (λ move, (move, score move))
               (possible)).
      set (sorted := sortBy (λ a b : LegacyAI.Move * Z, b.2 - a.2) scoredMoves).
      assert (Hperm : sorted ≡ₚ scoredMoves) by apply sortBy_Permutation.
      assert (Hsorted : StronglySorted
                (λ a b : LegacyAI.Move * Z, - a.2 <= - b.2) sorted).
      { apply (sortBy_sorted _ (λ a, - a.2)). intros x y. lia. }
      assert (Hscored : ∀ x, x ∈ sorted
                ↔ ∃ m, m ∈ possible
                       ∧ x = (m, score m)).
      { intros x. rewrite Hperm. unfold scoredMoves.
        rewrite list_elem_of_fmap.
        split; [intros (m & -> & Hm); by exists m
               |intros (m & Hm & ->); by exists m]. }
      destruct sorted as [|first rest] eqn:Hs.
      { exfalso. assert (Hx : (a, score a) ∈ @nil (LegacyAI.Move * Z)).
        { apply Hscored. by exists a. }
        by apply elem_of_nil in Hx. }
      set (bestMoves := filter (λ m : LegacyAI.Move * Z, m.2 = first.2)
                          (first :: rest)).
      assert (Hbest : ∀ x, x ∈ bestMoves
                ↔ x.2 = first.2 ∧ x ∈ first :: rest)
        by (intros x; unfold bestMoves; by rewrite list_elem_of_filter).
      assert (Hfirst : first ∈ bestMoves) by (apply Hbest; split; [done|left]).
      destruct (lookup_randomIndex bestMoves r H0 H1) as (b & Hb & Hbin).
      { intros Hn. rewrite Hn in Hfirst. by apply elem_of_nil in Hfirst. }
      rewrite Hb. cbn [fmap option_fmap option_map].
      apply Hbest in Hbin as [Hbscore Hbin].
      apply Hscored in Hbin as (mb & Hmb & ->). cbn [fst snd] in *.
      split; [done|]. split; [by intros ? [= <-]|]. split; [done|].
      intros _ m [= <-] m' Hm'.
      assert (Hin' : (m', score m') ∈ first :: rest).
      { apply Hscored. by exists m'. }
      rewrite Hbscore.
      apply StronglySorted_inv in Hsorted as [_ Hall].
      apply elem_of_cons in Hin' as [<-|Hin']; [cbn [fst snd]; lia|].
      rewrite Forall_forall in Hall. apply Hall in Hin'. cbn [fst snd] in Hin'. lia.
Qed.

(** X22: for a random value from 0 to 1, the earlier tiger AI answers
    no move exactly when the tigers have no legal move, and otherwise
    one of the legal moves of the tigers; at medium difficulty it
    answers a jump when there is one, and at hard difficulty a move
    whose score no possible move exceeds. *)
Theorem LegacyAI_calculateTigerMove (board : Board) (goatsPlaced : Z)
    (difficulty : Difficulty) (r : Q) :
  (0 <= r)%Q → (r < 1)%Q →
  let answer := LegacyAI.calculateTigerMove board difficulty r in
  (answer = None ↔ getAllPossibleMoves board tiger goatsPlaced = [])
  ∧ (∀ m, answer = Some m →
          m ∈ LegacyAI.possibleMoves board
          ∧ ofLegacy m ∈ getAllPossibleMoves board tiger goatsPlaced)
  ∧ (difficulty = medium →
     (∃ j, j ∈ LegacyAI.possibleMoves board ∧ LegacyAI.isJump j = true) →
     ∃ m, answer = Some m ∧ LegacyAI.isJump m = true)
  ∧ (difficulty = hard →
     ∀ m, answer = Some m →
          ∀ m', m' ∈ LegacyAI.possibleMoves board →
                LegacyAI.moveScore board m' <= LegacyAI.moveScore board m).
Proof.
  intros H0 H1. cbv zeta.
  destruct (legacy_possibleMoves_same board goatsPlaced) as [Hsame _].
  assert (Hlegal : ∀ m, m ∈ LegacyAI.possibleMoves board →
            ofLegacy m ∈ getAllPossibleMoves board tiger goatsPlaced).
  { intros m Hm. rewrite <- Hsame. apply list_elem_of_fmap. by exists m. }
  assert (Hnil : LegacyAI.possibleMoves board = []
                 ↔ getAllPossibleMoves board tiger goatsPlaced = []).
  { rewrite <- Hsame. split; [by intros ->|].
    destruct (LegacyAI.possibleMoves board); [done|discriminate]. }
  destruct (legacy_tiger_answer board difficulty r H0 H1)
    as (Hn & Hs & Hm & Hh).
  split; [by rewrite Hn|]. split; [|split; [done|done]].
  intros m Hm'. split; [by apply Hs|]. by apply Hlegal, Hs.
Qed.

Lemma LegacyAI_calculateTigerMove_witness :
  (0 <= 1 # 2)%Q ∧ (1 # 2 < 1)%Q
  ∧ ∀ m, LegacyAI.calculateTigerMove scenarioA hard (1 # 2) = Some m →
         m ∈ LegacyAI.possibleMoves scenarioA
         ∧ ofLegacy m ∈ getAllPossibleMoves scenarioA tiger 18.
Proof.
  assert (H0 : (0 <= 1 # 2)%Q) by (vm_compute; discriminate).
  assert (H1 : (1 # 2 < 1)%Q) by (vm_compute; reflexivity).
  split; [exact H0|]. split; [exact H1|].
  exact (proj1 (proj2
    (LegacyAI_calculateTigerMove scenarioA 18 hard (1 # 2) H0 H1))).
Defined.

Example LegacyAI_hard_scenarioA :
  LegacyAI.calculateTigerMove scenarioA hard (1 # 2)
  = Some (LegacyAI.mk 8 18 true).
Proof. vm_compute. reflexivity. Qed.

Lemma lookup_randomIndex_cases {A} (l : list A) (r : Q) :
  (0 <= r)%Q → (r < 1)%Q →
  match l !! randomIndex r (length l) with
  | Some a => a ∈ l
  | None => l = []
  end.
Proof.
  intros H0 H1. destruct (decide (l = [])) as [->|Hne]; [done|].
  destruct (lookup_randomIndex l r H0 H1 Hne) as (a & -> & Hin). done.
Qed.

Lemma nil_not_elem_of {A} (l : list A) : (∀ x, x ∉ l) → l = [].
Proof. destruct l as [|a l]; [done|]. intros H. destruct (H a). left. Qed.

(** The placements and the slides of the goats, in the words of the
    later rule engine. *)
Lemma legacy_goat_placement (board : Board) (goatsPlaced : Z) (t : nat) :
  goatsPlaced < GOATS_TOTAL →
  t ∈ filter (λ n, isEmpty board n = true) (map Point_id NODES)
  ↔ mkMove None t ∈ getAllPossibleMoves board goat goatsPlaced.
Proof.
  intros Hlt.
  destruct (elem_of_getAllPossibleMoves_iff board goat goatsPlaced
              (mkMove None t)) as [_ ->].
  rewrite list_elem_of_filter, isEmpty_true, elem_of_NODES. cbn [from to].
  split.
  - intros [He Ht]. left. done.
  - intros [(_ & _ & _ & Ht & He)|[_ (f & Hf & _)]]; [done|discriminate].
Qed.

Lemma legacy_goat_slide (board : Board) (goatsPlaced : Z) (f t : nat) :
  GOATS_TOTAL <= goatsPlaced →
  (f, t) ∈ flat_map
             (λ n, flat_map
                     (λ neighbor,
                        if isEmpty board neighbor then [(n, neighbor)] else [])
                     (adjacent n))
             (piecesOf board goat)
  ↔ mkMove (Some f) t ∈ getAllPossibleMoves board goat goatsPlaced.
Proof.
  intros Hge.
  destruct (elem_of_getAllPossibleMoves_iff board goat goatsPlaced
              (mkMove (Some f) t)) as [_ ->].
  cbn [from to]. rewrite elem_of_flat_map. split.
  - intros (n & Hn & Hm). right. split; [lia|].
    apply elem_of_flat_map in Hm as (t' & Ht' & Hm).
    destruct (isEmpty board t') eqn:He; [|by apply elem_of_nil in Hm].
    apply list_elem_of_singleton in Hm as [= -> ->].
    exists n. split; [done|]. split; [by apply elem_of_piecesOf|].
    apply elem_of_getValidMoves. split; [done|]. split; [|done].
    by apply isEmpty_true.
  - intros [(_ & Hlt & _)|[_ (n & [= <-] & Hn & Ht)]]; [lia|].
    apply elem_of_getValidMoves in Ht as (_ & He & Ht).
    exists f. split; [by apply elem_of_piecesOf|].
    apply elem_of_flat_map. exists t. split; [done|].
    apply isEmpty_true in He. rewrite He. by left.
Qed.

Lemma legacy_goat_placement_none (board : Board) (goatsPlaced : Z) :
  goatsPlaced < GOATS_TOTAL →
  filter (λ n, isEmpty board n = true) (map Point_id NODES) = [] →
  getAllPossibleMoves board goat goatsPlaced = [].
Proof.
  intros Hlt Hnil. apply nil_not_elem_of. intros [f t] Hin.
  assert (Hf : f = None).
  { apply elem_of_getAllPossibleMoves_iff in Hin
      as [(_ & _ & Hf & _)|[Hn _]]; [done|]. destruct Hn. done. }
  subst f. apply legacy_goat_placement in Hin; [|done].
  rewrite Hnil in Hin. by apply elem_of_nil in Hin.
Qed.

Lemma legacy_goat_slide_none (board : Board) (goatsPlaced : Z) :
  GOATS_TOTAL <= goatsPlaced →
  flat_map
    (λ n, flat_map
            (λ neighbor,
               if isEmpty board neighbor then [(n, neighbor)] else [])
            (adjacent n))
    (piecesOf board goat) = [] →
  getAllPossibleMoves board goat goatsPlaced = [].
Proof.
  intros Hge Hnil. apply nil_not_elem_of. intros [f t] Hin.
  assert (Hf : ∃ n, f = Some n).
  { apply elem_of_getAllPossibleMoves_iff in Hin
      as [(_ & Hlt & _)|[_ (n & Hn & _)]]; [lia|]. by exists n. }
  destruct Hf as [n ->]. apply legacy_goat_slide in Hin; [|done].
  rewrite Hnil in Hin. by apply elem_of_nil in Hin.
Qed.

Lemma legacy_goat_answer (board : Board) (goatsPlaced : Z)
    (difficulty : Difficulty) (rnd : nat → Q) :
  (∀ k, (0 <= rnd k)%Q ∧ (rnd k < 1)%Q) →
  let answer := LegacyAI.calculateGoatMove board goatsPlaced difficulty rnd in
  (goatsPlaced < GOATS_TOTAL →
   match answer with
   | Some (None, Some t) =>
       mkMove None t ∈ getAllPossibleMoves board goat goatsPlaced
   | Some (None, None) => getAllPossibleMoves board goat goatsPlaced = []
   | _ => False
   end)
  ∧ (goatsPlaced < GOATS_TOTAL → difficulty ≠ easy → (1 # 2 < rnd 0%nat)%Q →
     (∃ t n, (t < 24)%nat ∧ board !! t = None
             ∧ board !! n = Some tiger ∧ t ∈ adjacent n) →
     ∃ t n, answer = Some (None, Some t)
            ∧ board !! t = None ∧ board !! n = Some tiger ∧ t ∈ adjacent n)
  ∧ (GOATS_TOTAL <= goatsPlaced →
     match answer with
     | Some (Some f, Some t) =>
         mkMove (Some f) t ∈ getAllPossibleMoves board goat goatsPlaced
     | None => getAllPossibleMoves board goat goatsPlaced = []
     | _ => False
     end).
Proof.
  intros Hrnd. cbv zeta. unfold LegacyAI.calculateGoatMove.
  pose proof (legacy_goat_placement board goatsPlaced) as Hplace.
  pose proof (legacy_goat_slide board goatsPlaced) as Hslide.
  pose proof (legacy_goat_placement_none board goatsPlaced) as Hfull.
  pose proof (legacy_goat_slide_none board goatsPlaced) as Hstuck.
  assert (Hnear : ∀ t,
    t ∈ filter
          (λ n, existsb (λ tId, includes (adjacent tId) n)
                  (piecesOf board tiger) = true)
          (filter (λ n, isEmpty board n = true) (map Point_id NODES))
    ↔ (∃ n, board !! n = Some tiger ∧ t ∈ adjacent n)
      ∧ t ∈ filter (λ n, isEmpty board n = true) (map Point_id NODES)).
  { intros t. rewrite list_elem_of_filter, existsb_exists.
    apply and_iff_compat_r. split.
    - intros (n & Hn%list_elem_of_In%elem_of_piecesOf & Hi).
      exists n. split; [done|]. by apply bool_decide_eq_true in Hi.
    - intros (n & Hn & Ht). exists n.
      split; [by apply list_elem_of_In, elem_of_piecesOf|].
      by apply bool_decide_eq_true. }
  assert (Hempty : ∀ t,
    t ∈ filter (λ n, isEmpty board n = true) (map Point_id NODES)
    ↔ (t < 24)%nat ∧ board !! t = None).
  { intros t. rewrite list_elem_of_filter, isEmpty_true, elem_of_NODES. tauto. }
  revert Hplace Hslide Hfull Hstuck Hnear Hempty.
  generalize (filter (λ n, isEmpty board n = true) (map Point_id NODES)).
  intros emptyNodes.
  generalize (flat_map
             (λ n, flat_map
                     (λ neighbor,
                        if isEmpty board neighbor then [(n, neighbor)] else [])
                     (adjacent n))
             (piecesOf board goat)).
  intros possible.
  generalize (getAllPossibleMoves board goat goatsPlaced). intros legal.
  generalize (piecesOf board tiger). intros tigers.
  set (nearTigers := filter _ emptyNodes).
  intros Hplace Hslide Hfull Hstuck Hnear Hempty.
  assert (Hpick : ∀ k (l : list nat),
            match l !! randomIndex (rnd k) (length l) with
            | Some t => t ∈ l
            | None => l = []
            end).
  { intros k l. apply lookup_randomIndex_cases; apply Hrnd. }
  split; [|split].
  - intros Hlt. rewrite (proj2 (Z.ltb_lt _ _) Hlt).
    destruct (_ && (0 <? length nearTigers)%nat) eqn:Hc.
    + apply andb_true_iff in Hc as [_ Hlen%Nat.ltb_lt].
      destruct (negb _).
      * pose proof (Hpick 1%nat nearTigers) as Hn.
        destruct (nearTigers !! randomIndex (rnd 1%nat) (length nearTigers))
          as [t|].
        -- apply Hplace; [done|]. by apply Hnear in Hn as [_ Hn].
        -- rewrite Hn in Hlen. simpl in Hlen. lia.
      * pose proof (Hpick 1%nat emptyNodes) as Hn.
        destruct (emptyNodes !! randomIndex (rnd 1%nat) (length emptyNodes))
          as [t|]; [by apply Hplace|by apply Hfull].
    + pose proof (Hpick 0%nat emptyNodes) as Hn.
      destruct (emptyNodes !! randomIndex (rnd 0%nat) (length emptyNodes))
        as [t|]; [by apply Hplace|by apply Hfull].
  - intros Hlt Hd Hhalf (t & n & Ht & He & Hn & Hadj).
    rewrite (proj2 (Z.ltb_lt _ _) Hlt).
    assert (Hin : t ∈ nearTigers).
    { apply Hnear. split; [by exists n|]. by apply Hempty. }
    assert (Hlen : (0 <? length nearTigers)%nat = true).
    { apply Nat.ltb_lt. destruct nearTigers; [by apply elem_of_nil in Hin|].
      simpl. lia. }
    rewrite Hlen.
    assert (Hdiff : match difficulty with easy => false | _ => true end = true)
      by (by destruct difficulty).
    rewrite Hdiff. cbn [andb].
    assert (Hgt : negb (Qle_bool (rnd 0%nat) (1 # 2)) = true).
    { apply negb_true_iff. destruct (Qle_bool _ _) eqn:Hle; [|done].
      apply Qle_bool_iff in Hle. exfalso. by apply (Qlt_not_le _ _ Hhalf). }
    rewrite Hgt.
    pose proof (Hpick 1%nat nearTigers) as Hp.
    destruct (nearTigers !! randomIndex (rnd 1%nat) (length nearTigers))
      as [t'|].
    + apply Hnear in Hp as [(n' & Hn' & Hadj') Hp]. apply Hempty in Hp as [_ Hp].
      by exists t', n'.
    + rewrite Hp in Hin. by apply elem_of_nil in Hin.
  - intros Hge. rewrite (proj2 (Z.ltb_ge _ _) Hge).
    destruct (length possible =? 0)%nat eqn:Hlen.
    + apply Nat.eqb_eq, nil_length_inv in Hlen. by apply Hstuck.
    + apply Nat.eqb_neq in Hlen.
      pose proof (lookup_randomIndex_cases possible (rnd 0%nat)
                    (proj1 (Hrnd 0%nat)) (proj2 (Hrnd 0%nat))) as Hp.
      destruct (possible !! randomIndex (rnd 0%nat) (length possible))
        as [[f t]|].
      * by apply Hslide.
      * by rewrite Hp in Hlen.
Qed.

(** X23: with random values from 0 to 1, the earlier goat AI places,
    while goats remain, on an empty node, and answers a move without
    destination when no node is empty; when it is not easy, draws more
    than one half and some empty node is next to a tiger, the node it
    places on is next to a tiger. Once all goats are placed it answers
    a legal slide, and no move exactly when no goat can slide. *)
Theorem LegacyAI_calculateGoatMove (board : Board) (goatsPlaced : Z)
    (difficulty : Difficulty) (rnd : nat → Q) :
  (∀ k, (0 <= rnd k)%Q ∧ (rnd k < 1)%Q) →
  let answer := LegacyAI.calculateGoatMove board goatsPlaced difficulty rnd in
  (goatsPlaced < GOATS_TOTAL →
   match answer with
   | Some (None, Some t) =>
       mkMove None t ∈ getAllPossibleMoves board goat goatsPlaced
   | Some (None, None) => getAllPossibleMoves board goat goatsPlaced = []
   | _ => False
   end)
  ∧ (goatsPlaced < GOATS_TOTAL → difficulty ≠ easy → (1 # 2 < rnd 0%nat)%Q →
     (∃ t n, (t < 24)%nat ∧ board !! t = None
             ∧ board !! n = Some tiger ∧ t ∈ adjacent n) →
     ∃ t n, answer = Some (None, Some t)
            ∧ board !! t = None ∧ board !! n = Some tiger ∧ t ∈ adjacent n)
  ∧ (GOATS_TOTAL <= goatsPlaced →
     match answer with
     | Some (Some f, Some t) =>
         mkMove (Some f) t ∈ getAllPossibleMoves board goat goatsPlaced
     | None => getAllPossibleMoves board goat goatsPlaced = []
     | _ => False
     end).
Proof. exact (legacy_goat_answer board goatsPlaced difficulty rnd). Qed.

Lemma legacy_ai_answer (board : Board) (goatsPlaced : Z)
    (difficulty : Difficulty) (aiRole : Player) (rnd : nat → Q) :
  (∀ k, (0 <= rnd k)%Q ∧ (rnd k < 1)%Q) →
  (∃ n, (n < 24)%nat ∧ board !! n = None) →
  let moves := getAllPossibleMoves board aiRole goatsPlaced in
  let answer :=
    LegacyAI.calculateAIMove board goatsPlaced difficulty aiRole rnd in
  (answer = None ↔ moves = [])
  ∧ ∀ f t, answer = Some (f, t) →
           ∃ move, move ∈ moves ∧ from move = f ∧ Some (to move) = t.
Proof.
  intros Hrnd (n & Hn & He). cbv zeta. unfold LegacyAI.calculateAIMove.
  destruct aiRole.
  - rewrite (bool_decide_eq_true_2 (tiger = tiger)) by done.
    destruct (legacy_tiger_answer board difficulty (rnd 0%nat)
                (proj1 (Hrnd 0%nat)) (proj2 (Hrnd 0%nat)))
      as (Hnone & Hsome & _).
    destruct (legacy_possibleMoves_same board goatsPlaced) as [Hsame _].
    rewrite <- Hsame.
    destruct (LegacyAI.calculateTigerMove _ _ _) as [m|].
    + specialize (Hsome m eq_refl). cbn [fmap option_fmap option_map].
      split; [split; [done|]|].
      * intros Hnil. apply fmap_nil_inv in Hnil. rewrite Hnil in Hsome.
        by apply elem_of_nil in Hsome.
      * intros f t [= <- <-]. exists (ofLegacy m).
        split; [|done]. apply list_elem_of_fmap. by exists m.
    + cbn [fmap option_fmap option_map]. split; [|done].
      split; [intros _|done]. by rewrite (proj1 Hnone eq_refl).
  - rewrite (bool_decide_eq_false_2 (goat = tiger)) by done.
    destruct (legacy_goat_answer board goatsPlaced difficulty rnd Hrnd)
      as (Hplace & _ & Hslide).
    destruct (Z.lt_ge_cases goatsPlaced GOATS_TOTAL) as [Hlt|Hge].
    + specialize (Hplace Hlt).
      assert (Hin : mkMove None n ∈ getAllPossibleMoves board goat goatsPlaced).
      { apply elem_of_getAllPossibleMoves_iff. left. by repeat split. }
      destruct (LegacyAI.calculateGoatMove _ _ _ _) as [[[f|] [t|]]|];
        try done.
      * split; [split; [done|]|].
        -- intros Hnil. rewrite Hnil in Hin. by apply elem_of_nil in Hin.
        -- intros f' t' [= <- <-]. by exists (mkMove None t).
      * rewrite Hplace in Hin. by apply elem_of_nil in Hin.
    + specialize (Hslide Hge).
      destruct (LegacyAI.calculateGoatMove _ _ _ _) as [[[f|] [t|]]|];
        try done.
      split; [split; [done|]|].
      * intros Hnil. rewrite Hnil in Hslide. by apply elem_of_nil in Hslide.
      * intros f' t' [= <- <-]. by exists (mkMove (Some f) t).
Qed.

(** X24: on a board with an empty node, for either role and at every
    difficulty, the earlier [calculateAIMove] answers no move exactly
    when the role has no legal move, and otherwise the source and the
    destination of a move that the later [getAllPossibleMoves] lists
    for the role. *)
Theorem LegacyAI_calculateAIMove_legal (board : Board) (goatsPlaced : Z)
    (difficulty : Difficulty) (aiRole : Player) (rnd : nat → Q) :
  (∀ k, (0 <= rnd k)%Q ∧ (rnd k < 1)%Q) →
  (∃ n, (n < 24)%nat ∧ board !! n = None) →
  let moves := getAllPossibleMoves board aiRole goatsPlaced in
  let answer :=
    LegacyAI.calculateAIMove board goatsPlaced difficulty aiRole rnd in
  (answer = None ↔ moves = [])
  ∧ ∀ f t, answer = Some (f, t) →
           ∃ move, move ∈ moves ∧ from move = f ∧ Some (to move) = t.
Proof.
  exact (legacy_ai_answer board goatsPlaced difficulty aiRole rnd).
Qed.

Lemma LegacyAI_calculateAIMove_legal_witness :
  (∀ k : nat, (0 <= 3 # 4)%Q ∧ (3 # 4 < 1)%Q)
  ∧ (∃ n, (n < 24)%nat ∧ INITIAL_BOARD !! n = None)
  ∧ ∀ f t, LegacyAI.calculateAIMove INITIAL_BOARD 0 hard goat (λ _, 3 # 4)
           = Some (f, t) →
           ∃ move, move ∈ getAllPossibleMoves INITIAL_BOARD goat 0
                   ∧ from move = f ∧ Some (to move) = t.
Proof.
  assert (Hr : ∀ k : nat, (0 <= 3 # 4)%Q ∧ (3 # 4 < 1)%Q).
  { intros _. split; [vm_compute; discriminate|vm_compute; reflexivity]. }
  assert (He : ∃ n, (n < 24)%nat ∧ INITIAL_BOARD !! n = None).
  { exists 1%nat. split; [lia|vm_compute; reflexivity]. }
  split; [exact Hr|]. split; [exact He|].
  exact (proj2 (LegacyAI_calculateAIMove_legal INITIAL_BOARD 0 hard goat
                  (λ _, 3 # 4) Hr He)).
Defined.

Lemma LegacyAI_calculateGoatMove_witness :
  (∀ k : nat, (0 <= 3 # 4)%Q ∧ (3 # 4 < 1)%Q)
  ∧ 0 < GOATS_TOTAL ∧ hard ≠ easy ∧ (1 # 2 < 3 # 4)%Q
  ∧ (∃ t n, (t < 24)%nat ∧ INITIAL_BOARD !! t = None
            ∧ INITIAL_BOARD !! n = Some tiger ∧ t ∈ adjacent n)
  ∧ ∃ t n, LegacyAI.calculateGoatMove INITIAL_BOARD 0 hard (λ _, 3 # 4)
           = Some (None, Some t)
           ∧ INITIAL_BOARD !! t = None
           ∧ INITIAL_BOARD !! n = Some tiger ∧ t ∈ adjacent n.
Proof.
  assert (Hr : ∀ k : nat, (0 <= 3 # 4)%Q ∧ (3 # 4 < 1)%Q).
  { intros _. split; [vm_compute; discriminate|vm_compute; reflexivity]. }
  assert (Hlt : 0 < GOATS_TOTAL) by reflexivity.
  assert (Hd : hard ≠ easy) by discriminate.
  assert (Hh : (1 # 2 < 3 # 4)%Q) by reflexivity.
  assert (He : ∃ t n, (t < 24)%nat ∧ INITIAL_BOARD !! t = None
            ∧ INITIAL_BOARD !! n = Some tiger ∧ t ∈ adjacent n).
  { exists 2%nat, 0%nat. split; [lia|]. split; [vm_compute; reflexivity|].
    split; [vm_compute; reflexivity|]. apply list_elem_of_In. vm_compute. tauto. }
  split; [exact Hr|]. split; [exact Hlt|]. split; [exact Hd|].
  split; [exact Hh|]. split; [exact He|].
  exact (proj1 (proj2 (LegacyAI_calculateGoatMove INITIAL_BOARD 0 hard
                  (λ _, 3 # 4) Hr)) Hlt Hd Hh He).
Defined.

(** * The game component *)

(** What [App.executeMove] stores while the game runs: the game of the
    rule engine's handler, no selection, and the verdict of
    [checkWinCondition] on the new position. *)
Lemma app_executeMove_running (s : App.State) (f : option nat) (t : nat) :
  App.gameOver s = false →
  let s' := App.executeMove s f t in
  gameOf s' = executeMove (gameOf s) f t
  ∧ App.selectedNode s' = None ∧ App.validMoves s' = []
  ∧ App.gameOver s'
    = gameOver (checkWinCondition (App.board s') (App.goatsCaptured s')
                  (App.turn s'))
  ∧ App.winner s'
    = winner (checkWinCondition (App.board s') (App.goatsCaptured s')
                (App.turn s')).
Proof.
  intros Hrun. cbv zeta. unfold App.executeMove, executeMove, gameOf.
  rewrite Hrun.
  cbn [GameState.board GameState.turn GameState.goatsPlaced
       GameState.goatsCaptured].
  destruct (match f with Some _ => _ | None => _ end) as [[newBoard captured] placed].
  destruct (checkWinCondition _ _ _) as [over won why] eqn:Hwin.
  cbn [App.board App.turn App.goatsPlaced App.goatsCaptured App.selectedNode
       App.validMoves App.gameOver App.winner].
  rewrite Hwin. done.
Qed.

Lemma winner_of_checkWinCondition (board : Board) (goatsCaptured : Z)
    (turn : Player) :
  gameOver (checkWinCondition board goatsCaptured turn) = true
  ↔ is_Some (winner (checkWinCondition board goatsCaptured turn)).
Proof.
  unfold checkWinCondition.
  repeat case_match; cbn [gameOver winner tigersWin goatsWin notOver];
    split; try done; try (by intros [? ?]); by eexists.
Qed.

(** A running verdict: fewer than eight goats captured, and a tiger, if
    there is any, has a move. *)
Lemma checkWinCondition_running (board : Board) (goatsCaptured : Z)
    (turn : Player) (goatsPlaced : Z) :
  gameOver (checkWinCondition board goatsCaptured turn) = false →
  piecesOf board tiger ≠ [] →
  goatsCaptured < GOATS_TO_WIN
  ∧ getAllPossibleMoves board tiger goatsPlaced ≠ [].
Proof.
  unfold checkWinCondition. intros Hrun Htigers.
  destruct (GOATS_TO_WIN <=? goatsCaptured) eqn:Hc; [done|].
  apply Z.leb_gt in Hc. split; [done|].
  destruct (length (piecesOf board tiger) =? 0)%nat eqn:Hlen.
  { apply Nat.eqb_eq, nil_length_inv in Hlen. done. }
  destruct (existsb _ _) eqn:Hex; [|done].
  apply existsb_exists in Hex as (n & Hn & Hmoves).
  apply Nat.ltb_lt in Hmoves.
  destruct (getValidMoves n tiger board GOATS_TOTAL) as [|t l] eqn:Hvalid;
    [simpl in Hmoves; lia|].
  assert (Hin : mkMove (Some n) t ∈ getAllPossibleMoves board tiger goatsPlaced).
  { apply elem_of_getAllPossibleMoves_iff. right. split; [by intros [? _]|].
    exists n. cbn [from to]. split; [done|].
    split; [by apply elem_of_piecesOf, list_elem_of_In|].
    rewrite getValidMoves_tiger. rewrite getValidMoves_tiger in Hvalid.
    rewrite Hvalid. left. }
  intros Hnil. rewrite Hnil in Hin. by apply elem_of_nil in Hin.
Qed.

(** A click changes the game by a legal move to the node clicked, or not
    at all. *)
Lemma click_sound (config : App.GameConfig) (s : App.State) (id : nat) :
  (id < 24)%nat → selectionConsistent s →
  let s' := App.handleNodeClick config s id in
  selectionConsistent s'
  ∧ ((gameOf s' = gameOf s ∧ App.gameOver s' = App.gameOver s
      ∧ App.winner s' = App.winner s)
     ∨ (App.gameOver s = false
        ∧ ¬ (App.mode config = pve ∧ App.turn s = App.aiRole config)
        ∧ ∃ move, legalMove (gameOf s) move ∧ to move = id
                  ∧ s' = App.executeMove s (from move) (to move)
                  ∧ gameOf s' = playMove (gameOf s) move)).
Proof.
  intros Hid Hsel. cbv zeta. unfold App.handleNodeClick.
  destruct (App.gameOver s) eqn:Hrun; [by split; [|left]|].
  destruct (bool_decide (App.mode config = pve)
            && bool_decide (App.turn s = App.aiRole config)) eqn:Hai;
    [by split; [|left]|].
  assert (Hhuman : ¬ (App.mode config = pve ∧ App.turn s = App.aiRole config)).
  { intros [Hm Ht]. apply andb_false_iff in Hai as [Hai|Hai];
      by apply bool_decide_eq_false in Hai. }
  assert (Hmove : ∀ move, legalMove (gameOf s) move → to move = id →
    selectionConsistent (App.executeMove s (from move) (to move))
    ∧ ((gameOf (App.executeMove s (from move) (to move)) = gameOf s
        ∧ App.gameOver (App.executeMove s (from move) (to move)) = false
        ∧ App.winner (App.executeMove s (from move) (to move)) = App.winner s)
       ∨ (false = false ∧ ¬ (App.mode config = pve
                             ∧ App.turn s = App.aiRole config)
          ∧ ∃ move', legalMove (gameOf s) move' ∧ to move' = id
               ∧ App.executeMove s (from move) (to move)
                 = App.executeMove s (from move') (to move')
               ∧ gameOf (App.executeMove s (from move) (to move))
                 = playMove (gameOf s) move'))).
  { intros move Hlegal Hto.
    destruct (app_executeMove_running s (from move) (to move) Hrun)
      as (Hgame & Hnone & Hnil & _).
    split.
    - unfold selectionConsistent. by rewrite Hnone.
    - right. split; [done|]. split; [done|]. exists move.
      split; [done|]. split; [done|]. split; [done|].
      rewrite Hgame. by apply executeMove_playMove. }
  destruct (bool_decide (App.board s !! id = Some (App.turn s))) eqn:Hown.
  { apply bool_decide_eq_true in Hown.
    destruct (bool_decide (App.turn s = goat)
              && (App.goatsPlaced s <? GOATS_TOTAL)); [by split; [|left]|].
    split.
    - unfold selectionConsistent, App.select.
      cbn [App.selectedNode App.validMoves App.board App.turn
              App.goatsPlaced]. done.
    - left. unfold App.select, gameOf.
      by cbn [App.board App.turn App.goatsPlaced App.goatsCaptured
              App.gameOver App.winner]. }
  destruct (bool_decide (App.board s !! id = None)
            && bool_decide (App.turn s = goat)
            && (App.goatsPlaced s <? GOATS_TOTAL)) eqn:Hplace.
  { apply andb_true_iff in Hplace as [Hplace Hlt%Z.ltb_lt].
    apply andb_true_iff in Hplace
      as [Hnone%bool_decide_eq_true Hgoat%bool_decide_eq_true].
    apply (Hmove (mkMove None id)); [|done].
    unfold legalMove, gameOf.
    cbn [GameState.board GameState.turn GameState.goatsPlaced].
    apply elem_of_getAllPossibleMoves_iff. left. by repeat split. }
  assert (Hdeselect : selectionConsistent (App.select s None [])
    ∧ ((gameOf (App.select s None []) = gameOf s
        ∧ App.gameOver (App.select s None []) = false
        ∧ App.winner (App.select s None []) = App.winner s)
       ∨ (false = false ∧ ¬ (App.mode config = pve
                             ∧ App.turn s = App.aiRole config)
          ∧ ∃ move, legalMove (gameOf s) move ∧ to move = id
               ∧ App.select s None [] = App.executeMove s (from move) (to move)
               ∧ gameOf (App.select s None []) = playMove (gameOf s) move))).
  { split; [done|]. left. unfold App.select, gameOf.
    by cbn [App.board App.turn App.goatsPlaced App.goatsCaptured
            App.gameOver App.winner]. }
  unfold selectionConsistent in Hsel.
  destruct (App.selectedNode s) as [selected|]; [|exact Hdeselect].
  destruct Hsel as [Hpiece Hvalid].
  destruct (includes (App.validMoves s) id) eqn:Hinc; [|exact Hdeselect].
  apply bool_decide_eq_true in Hinc. rewrite Hvalid in Hinc.
  apply (Hmove (mkMove (Some selected) id)); [|done].
  unfold legalMove, gameOf.
  cbn [GameState.board GameState.turn GameState.goatsPlaced].
  apply elem_of_getAllPossibleMoves_iff. right. cbn [from to]. split.
  - intros [Hgoat Hlt]. rewrite Hgoat in Hinc.
    apply elem_of_getValidMoves in Hinc as [Hge _]. lia.
  - by exists selected.
Qed.

Lemma appInvariant_move (s : App.State) (move : AIMove) :
  appInvariant s → App.gameOver s = false → legalMove (gameOf s) move →
  appInvariant (App.executeMove s (from move) (to move)).
Proof.
  intros (Hreach & _) Hrun Hlegal.
  destruct (app_executeMove_running s (from move) (to move) Hrun)
    as (Hgame & Hnone & Hnil & Hover & Hwon).
  split; [|split; [|split]].
  - rewrite Hgame, (executeMove_playMove _ _ Hlegal). by constructor.
  - unfold selectionConsistent. by rewrite Hnone.
  - rewrite Hover, Hwon. apply winner_of_checkWinCondition.
  - by rewrite Hover.
Qed.

Lemma appInvariant_same (s s' : App.State) :
  appInvariant s → selectionConsistent s' →
  gameOf s' = gameOf s → App.gameOver s' = App.gameOver s →
  App.winner s' = App.winner s →
  appInvariant s'.
Proof.
  intros (Hreach & _ & Hflag & Hrun) Hsel Hgame Hover Hwon.
  assert (Hb : App.board s' = App.board s
               ∧ App.goatsCaptured s' = App.goatsCaptured s
               ∧ App.turn s' = App.turn s).
  { unfold gameOf in Hgame. by injection Hgame as -> -> _ ->. }
  destruct Hb as (Hb & Hc & Ht).
  split; [by rewrite Hgame|]. split; [done|].
  rewrite Hover, Hwon, Hb, Hc, Ht. done.
Qed.

(** The answer of the AI in a state of the component. *)
Lemma ai_answer (config : App.GameConfig) (s : App.State) (rnd : nat → Q) :
  appInvariant s →
  (∀ k, (0 <= rnd k)%Q ∧ (rnd k < 1)%Q) →
  ∃ s', App.aiTurn config s rnd = Some s'
    ∧ ((App.gameOver s = false ∧ App.mode config = pve
        ∧ App.turn s = App.aiRole config) →
       (s' = s ∧ App.turn s = goat ∧ GOATS_TOTAL <= App.goatsPlaced s
        ∧ getAllPossibleMoves (App.board s) goat (App.goatsPlaced s) = [])
       ∨ ∃ move, legalMove (gameOf s) move
                 ∧ s' = App.executeMove s (from move) (to move)
                 ∧ gameOf s' = playMove (gameOf s) move)
    ∧ (¬ (App.gameOver s = false ∧ App.mode config = pve
          ∧ App.turn s = App.aiRole config) → s' = s).
Proof.
  intros (Hreach & _ & _ & Hrun) Hrnd. unfold App.aiTurn.
  destruct (negb (App.gameOver s) && bool_decide (App.mode config = pve)
            && bool_decide (App.turn s = App.aiRole config)) eqn:Hc.
  - apply andb_true_iff in Hc as [Hc Hturn%bool_decide_eq_true].
    apply andb_true_iff in Hc as [Hover%negb_true_iff Hmode%bool_decide_eq_true].
    specialize (Hrun Hover).
    pose proof (reachable_balance _ Hreach) as (_ & _ & Hplaced & _ & Hempty).
    pose proof (reachable_tigers _ Hreach) as Htigers.
    unfold gameOf in Hplaced, Hempty, Htigers.
    cbn [GameState.board GameState.goatsPlaced] in Hplaced, Hempty, Htigers.
    destruct (aiMove_member (App.board s) (App.goatsPlaced s)
                (App.goatsCaptured s) (App.difficulty config)
                (App.aiRole config) rnd Hrnd Hempty) as [Hnone Hsome].
    destruct (calculateAIMove _ _ _ _ _ _) as [[f t]|].
    + destruct (Hsome f t eq_refl) as (move & Hin & <- & <-).
      rewrite (proj2 (Z.leb_le 0 _) (Nat2Z.is_nonneg _)), Nat2Z.id.
      eexists. split; [done|]. split; [|tauto]. intros _. right.
      assert (Hlegal : legalMove (gameOf s) move).
      { unfold legalMove, gameOf.
        cbn [GameState.board GameState.turn GameState.goatsPlaced].
        by rewrite Hturn. }
      exists move. split; [done|]. split; [done|].
      destruct (app_executeMove_running s (from move) (to move) Hover)
        as (-> & _).
      by apply executeMove_playMove.
    + exists s. split; [done|]. split; [|done]. intros _. left.
      pose proof (proj1 Hnone eq_refl) as Hnil. rewrite <- Hturn in Hnil.
      split; [done|].
      assert (Hgoat : App.turn s = goat).
      { destruct (App.turn s) eqn:Ht; [|done]. exfalso.
        assert (Hsome' : piecesOf (App.board s) tiger ≠ []).
        { intros Hn. rewrite Hn in Htigers. discriminate. }
        destruct (checkWinCondition_running _ _ _ (App.goatsPlaced s)
                    Hrun Hsome') as [_ Hne]. done. }
      rewrite Hgoat in Hnil. split; [done|]. split; [|done].
      destruct (Z.lt_ge_cases (App.goatsPlaced s) GOATS_TOTAL) as [Hlt|]; [|done].
      exfalso. destruct Hempty as (n & Hn & He).
      assert (Hin : mkMove None n
                    ∈ getAllPossibleMoves (App.board s) goat (App.goatsPlaced s)).
      { apply elem_of_getAllPossibleMoves_iff. left. by repeat split. }
      rewrite Hnil in Hin. by apply elem_of_nil in Hin.
  - exists s. split; [done|]. split; [|done].
    intros (Hover & Hmode & Hturn).
    rewrite Hover, (bool_decide_eq_true_2 _ Hmode),
      (bool_decide_eq_true_2 _ Hturn) in Hc. done.
Qed.

Lemma appReachable_appInvariant (s : App.State) :
  appReachable s → appInvariant s.
Proof.
  induction 1 as [|config s id Hreach IH Hid|config s rnd s' Hreach IH Hrnd Hai
                  |s Hreach IH Hrun].
  - split; [constructor|]. split; [done|]. split.
    + cbn. split; [done|]. by intros [? ?].
    + intros _. vm_compute. reflexivity.
  - destruct IH as (Hr & Hsel & Hrest).
    destruct (click_sound config s id Hid Hsel)
      as [Hsel' [(Hgame & Hover & Hwon)|(Hrun & _ & move & Hlegal & _ & Heq & _)]].
    + by apply (appInvariant_same s).
    + rewrite Heq. by apply appInvariant_move.
  - destruct (ai_answer config s rnd IH Hrnd) as (s'' & Heq & Hturn & Hother).
    rewrite Hai in Heq. injection Heq as <-.
    destruct (decide (App.gameOver s = false ∧ App.mode config = pve
                      ∧ App.turn s = App.aiRole config)) as [Hc|Hc].
    + destruct (Hturn Hc) as [(-> & _)|(move & Hlegal & -> & _)]; [done|].
      apply appInvariant_move; [done| |done]. by destruct Hc.
    + by rewrite (Hother Hc).
  - destruct IH as (Hr & Hsel & Hrest).
    split; [done|]. split; [done|]. split.
    + cbn. split; [by eexists|done].
    + cbn. done.
Qed.

(** X25: with a consistent selection, a click on a node of the board
    keeps the selection consistent and either leaves the position, the
    counters, the turn and the verdict as they are, or plays a legal
    move of the side to move to the node clicked; the latter only while
    the game runs and it is not the AI's turn. *)
Theorem handleNodeClick_legal (config : App.GameConfig) (s : App.State)
    (id : nat) :
  (id < 24)%nat → selectionConsistent s →
  let s' := App.handleNodeClick config s id in
  selectionConsistent s'
  ∧ ((gameOf s' = gameOf s ∧ App.gameOver s' = App.gameOver s
      ∧ App.winner s' = App.winner s)
     ∨ (App.gameOver s = false
        ∧ ¬ (App.mode config = pve ∧ App.turn s = App.aiRole config)
        ∧ ∃ move, legalMove (gameOf s) move ∧ to move = id
                  ∧ s' = App.executeMove s (from move) (to move)
                  ∧ gameOf s' = playMove (gameOf s) move)).
Proof. exact (click_sound config s id). Qed.

Lemma handleNodeClick_legal_witness :
  (1 < 24)%nat ∧ selectionConsistent App.resetGame
  ∧ selectionConsistent
      (App.handleNodeClick (App.mkConfig pvp tiger easy) App.resetGame 1).
Proof.
  assert (Hid : (1 < 24)%nat) by lia.
  assert (Hsel : selectionConsistent App.resetGame) by reflexivity.
  split; [exact Hid|]. split; [exact Hsel|].
  exact (proj1 (handleNodeClick_legal (App.mkConfig pvp tiger easy)
                  App.resetGame 1 Hid Hsel)).
Defined.

(** X26: in every state the component reaches by clicks, AI moves,
    surrender and resets, the position is one reached from the initial
    position by legal moves, the selection is consistent, the game is
    over exactly when a winner is recorded, and while it is not over
    fewer than eight goats are captured and the tigers have a legal
    move. *)
Theorem appReachable_invariant (s : App.State) :
  appReachable s →
  reachable (gameOf s)
  ∧ selectionConsistent s
  ∧ (App.gameOver s = true ↔ is_Some (App.winner s))
  ∧ (App.gameOver s = false →
     App.goatsCaptured s < GOATS_TO_WIN
     ∧ getAllPossibleMoves (App.board s) tiger (App.goatsPlaced s) ≠ []).
Proof.
  intros Hs. apply appReachable_appInvariant in Hs as (Hr & Hsel & Hflag & Hrun).
  split; [done|]. split; [done|]. split; [done|]. intros Hover.
  apply (checkWinCondition_running _ _ (App.turn s)); [by apply Hrun|].
  pose proof (reachable_tigers _ Hr) as Htigers.
  unfold gameOf in Htigers. cbn [GameState.board] in Htigers.
  intros Hn. rewrite Hn in Htigers. discriminate.
Qed.

Lemma appReachable_invariant_witness :
  appReachable App.resetGame
  ∧ reachable (gameOf App.resetGame)
  ∧ selectionConsistent App.resetGame.
Proof.
  split; [exact appReachable_reset|].
  pose proof (appReachable_invariant App.resetGame appReachable_reset)
    as (Hr & Hsel & _).
  exact (conj Hr Hsel).
Defined.

(** X27: let [s] be a state the component reaches, taken as the state
    of the render that armed the timer of the AI, which the callback
    reads; it is the state of the component when the timer fires unless
    the game is reset in between. The callback never moves to a
    negative node. When in [s] the game runs in the mode against the AI
    and it is the AI's turn, the callback stores [s] with a legal move
    of the AI played on it, except when the AI plays the goats, all
    goats are placed and none can slide: then it stores nothing. In
    every other case it stores nothing. *)
Theorem aiTurn_legal (config : App.GameConfig) (s : App.State)
    (rnd : nat → Q) :
  appReachable s →
  (∀ k, (0 <= rnd k)%Q ∧ (rnd k < 1)%Q) →
  ∃ s', App.aiTurn config s rnd = Some s'
    ∧ ((App.gameOver s = false ∧ App.mode config = pve
        ∧ App.turn s = App.aiRole config) →
       (s' = s ∧ App.turn s = goat ∧ GOATS_TOTAL <= App.goatsPlaced s
        ∧ getAllPossibleMoves (App.board s) goat (App.goatsPlaced s) = [])
       ∨ ∃ move, legalMove (gameOf s) move
                 ∧ s' = App.executeMove s (from move) (to move)
                 ∧ gameOf s' = playMove (gameOf s) move)
    ∧ (¬ (App.gameOver s = false ∧ App.mode config = pve
          ∧ App.turn s = App.aiRole config) → s' = s).
Proof.
  intros Hs Hrnd. apply ai_answer; [|done].
  by apply appReachable_appInvariant.
Qed.

Lemma aiTurn_legal_witness :
  appReachable App.resetGame
  ∧ (∀ k : nat, (0 <= 1 # 2)%Q ∧ (1 # 2 < 1)%Q)
  ∧ ∃ s', App.aiTurn (App.mkConfig pve goat easy) App.resetGame (λ _, 1 # 2)
          = Some s'.
Proof.
  assert (Hr : ∀ k : nat, (0 <= 1 # 2)%Q ∧ (1 # 2 < 1)%Q).
  { intros _. split; [vm_compute; discriminate|vm_compute; reflexivity]. }
  split; [exact appReachable_reset|]. split; [exact Hr|].
  destruct (aiTurn_legal (App.mkConfig pve goat easy) App.resetGame
              (λ _, 1 # 2) appReachable_reset Hr) as (s' & Hs' & _).
  exists s'. exact Hs'.
Defined.
